(** * silabeador-ts: Spanish syllabification and prosodic stress

    A shallow embedding of [src/silabeador.ts].  JavaScript strings are
    sequences of UTF-16 code units; the embedding keeps that view, so that
    [length], [slice], [at] and the regular expression of [split] count as
    the program does, while the [u]-flagged regular expression of
    [syllabify] and [Array.from] walk code points. *)

From Stdlib Require Import String Ascii.
From Stdlib Require Import List ZArith NArith Bool Lia.
Import ListNotations.
Local Open Scope Z_scope.

(* ===================================================================== *)
(** ** JavaScript strings *)
(* ===================================================================== *)

Module JS.

(** A string is its list of UTF-16 code units. *)
Definition jsstring := list N.

(** *** Literals

    Literals are written as in the source file, which is UTF-8: the bytes
    of a Rocq string are decoded to code points, then encoded in UTF-16. *)

Fixpoint utf8_decode (bs : list N) : list N :=
  match bs with
  | [] => []
  | b0 :: r0 =>
    if (b0 <? 128)%N then b0 :: utf8_decode r0
    else match r0 with
    | [] => []
    | b1 :: r1 =>
      if (b0 <? 224)%N then ((b0 mod 32) * 64 + b1 mod 64)%N :: utf8_decode r1
      else match r1 with
      | [] => []
      | b2 :: r2 =>
        if (b0 <? 240)%N
        then ((b0 mod 16) * 4096 + (b1 mod 64) * 64 + b2 mod 64)%N :: utf8_decode r2
        else match r2 with
        | [] => []
        | b3 :: r3 =>
          ((b0 mod 8) * 262144 + (b1 mod 64) * 4096 + (b2 mod 64) * 64 + b3 mod 64)%N
            :: utf8_decode r3
        end
      end
    end
  end.

Definition utf16_encode (cp : N) : list N :=
  if (cp <? 65536)%N then [cp]
  else [(55296 + (cp - 65536) / 1024)%N; (56320 + (cp - 65536) mod 1024)%N].

Definition js (s : string) : jsstring :=
  flat_map utf16_encode (utf8_decode (map N_of_ascii (list_ascii_of_string s))).

(** *** Equality and length *)

Fixpoint eqb (a b : jsstring) : bool :=
  match a, b with
  | [], [] => true
  | x :: a', y :: b' => (x =? y)%N && eqb a' b'
  | _, _ => false
  end.

Definition len {A} (l : list A) : Z := Z.of_nat (length l).

(** *** Indexing

    [relIndex n k] is the position that [slice] and friends derive from a
    relative index [k] on a sequence of length [n]: a negative [k] counts
    from the end, and the result is clamped to [0..n]. *)

Definition relIndex (n k : Z) : nat :=
  Z.to_nat (if k <? 0 then Z.max (n + k) 0 else Z.min k n).

(** [s.slice(a, b)] *)
Definition slice {A} (s : list A) (a b : Z) : list A :=
  let from := relIndex (len s) a in
  let to := relIndex (len s) b in
  firstn (to - from) (skipn from s).

(** [s.slice(a)] *)
Definition sliceFrom {A} (s : list A) (a : Z) : list A :=
  skipn (relIndex (len s) a) s.

(** [s.at(k)]: [None] stands for [undefined]. *)
Definition at_ {A} (s : list A) (k : Z) : option A :=
  let i := if k <? 0 then len s + k else k in
  if (i <? 0) || (len s <=? i) then None else nth_error s (Z.to_nat i).

(** [s[i]] for a non-negative integer [i]. *)
Definition charAt (s : jsstring) (i : Z) : option N :=
  if i <? 0 then None else nth_error s (Z.to_nat i).

(** *** Searching *)

Fixpoint startsWith (s p : jsstring) {struct p} : bool :=
  match p with
  | [] => true
  | c :: p' =>
    match s with
    | [] => false
    | d :: s' => (c =? d)%N && startsWith s' p'
    end
  end.

Definition endsWith (s p : jsstring) : bool :=
  if (length s <? length p)%nat then false
  else eqb (skipn (length s - length p) s) p.

(** [s.includes(p)]: substring search. *)
Fixpoint includes (s p : jsstring) : bool :=
  startsWith s p ||
  match s with
  | [] => false
  | _ :: s' => includes s' p
  end.

(** [s.includes(x)] where [x] is the result of an [at] or an index: a
    missing value is converted to the string ["undefined"] and searched
    for as such. *)
Definition includesAt (s : jsstring) (x : option N) : bool :=
  match x with
  | Some c => includes s [c]
  | None => includes s (js "undefined")
  end.

(** [s.replace(p, r)] with a string pattern, and a replacement without
    [$]: the first occurrence only. *)
Fixpoint replace (s p r : jsstring) : jsstring :=
  if startsWith s p then r ++ skipn (length p) s
  else match s with
  | [] => []
  | c :: s' => c :: replace s' p r
  end.

(** *** Code points *)

Definition isHighSurrogate (c : N) : bool := (55296 <=? c)%N && (c <=? 56319)%N.
Definition isLowSurrogate (c : N) : bool := (56320 <=? c)%N && (c <=? 57343)%N.

(** [Array.from(s)]: one string per code point, a well-formed surrogate
    pair counting as one. *)
Fixpoint arrayFrom (s : jsstring) : list jsstring :=
  match s with
  | [] => []
  | h :: t =>
    match t with
    | l :: t' =>
      if isHighSurrogate h && isLowSurrogate l
      then [h; l] :: arrayFrom t'
      else [h] :: arrayFrom t
    | [] => [[h]]
    end
  end.

Definition codePoint (x : jsstring) : N :=
  match x with
  | [h; l] => (65536 + (h - 55296) * 1024 + (l - 56320))%N
  | [c] => c
  | _ => 0%N
  end.

(** *** White space and [trim] *)

Definition isWhiteSpace (c : N) : bool :=
  existsb (N.eqb c)
    [9; 10; 11; 12; 13; 32; 160; 5760; 8232; 8233; 8239; 8287; 12288; 65279]%N
  || ((8192 <=? c)%N && (c <=? 8202)%N).

Fixpoint trimStart (s : jsstring) : jsstring :=
  match s with
  | [] => []
  | c :: s' => if isWhiteSpace c then trimStart s' else s
  end.

Definition trim (s : jsstring) : jsstring :=
  rev (trimStart (rev (trimStart s))).

(** *** Arrays *)

(** [a[a.length - 1] += x].  On an empty array the assignment creates the
    property ["-1"], which is not an element: the elements are unchanged. *)
Fixpoint appendLast (a : list jsstring) (x : jsstring) : list jsstring :=
  match a with
  | [] => []
  | [y] => [y ++ x]
  | y :: a' => y :: appendLast a' x
  end.

(** [a[a.length - k]], for [k >= 1]. *)
Definition fromEnd (a : list jsstring) (k : Z) : option jsstring :=
  if len a - k <? 0 then None else nth_error a (Z.to_nat (len a - k)).

Fixpoint setNth (a : list jsstring) (i : nat) (v : jsstring) : list jsstring :=
  match a, i with
  | [], _ => []
  | _ :: a', O => v :: a'
  | y :: a', S i' => y :: setNth a' i' v
  end.

(** [a[a.length - k] = v], for [k >= 1]: a negative index names a
    property that is not an element. *)
Definition setFromEnd (a : list jsstring) (k : Z) (v : jsstring) : list jsstring :=
  if len a - k <? 0 then a else setNth a (Z.to_nat (len a - k)) v.

End JS.
Import JS.


(* ===================================================================== *)
(** ** Exceptions: a method call on [undefined], a full call stack *)
(* ===================================================================== *)

Inductive exn : Type := TypeError | RangeError.

Inductive result (A : Type) : Type :=
| Ok (a : A)
| Throw (e : exn).

Arguments Ok {A} a.
Arguments Throw {A} e.

Definition bind {A B} (c : result A) (k : A -> result B) : result B :=
  match c with
  | Ok a => k a
  | Throw e => Throw e
  end.

Notation "x <- c ;; k" := (bind c (fun x => k))
  (at level 61, c at next level, right associativity).

(** [o!.m(...)]: the non-null assertion of TypeScript leaves no check in
    the compiled program; calling a method of [undefined] throws. *)
Definition deref {A} (o : option A) : result A :=
  match o with
  | Some a => Ok a
  | None => Throw TypeError
  end.

(* ===================================================================== *)
(** ** Regular expressions of [split] and [latin] *)
(* ===================================================================== *)

Module Regex.

(** The fragment that [diphthongPattern] is written in: character classes,
    sequence, alternation, [?] and [*] over a class. *)
Inductive regex : Type :=
| Cls (cs : jsstring)
| Seq (a b : regex)
| Alt (a b : regex)
| Opt (a : regex)
| StarCls (cs : jsstring).

Fixpoint starCls (cs : jsstring) (k : jsstring -> bool) (s : jsstring) : bool :=
  k s ||
  match s with
  | [] => false
  | c :: s' => includes cs [c] && starCls cs k s'
  end.

(** [matchK r k s]: some prefix of [s] matches [r] and the rest is
    accepted by [k]. *)
Fixpoint matchK (r : regex) (k : jsstring -> bool) (s : jsstring) : bool :=
  match r with
  | Cls cs =>
    match s with
    | [] => false
    | c :: s' => includes cs [c] && k s'
    end
  | Seq a b => matchK a (matchK b k) s
  | Alt a b => matchK a k s || matchK b k s
  | Opt a => matchK a k s || k s
  | StarCls cs => starCls cs k s
  end.

(** [r$] matched from the first position. *)
Definition matchToEnd (r : regex) (s : jsstring) : bool :=
  matchK r (fun rest => eqb rest []) s.

(** [s.match(/r$/)]: the search tries the start positions from the left;
    the match, when there is one, runs to the end of [s]. *)
Fixpoint matchEnd (r : regex) (s : jsstring) : option jsstring :=
  if matchToEnd r s then Some s
  else match s with
  | [] => None
  | _ :: s' => matchEnd r s'
  end.

(** [\w] without the [u] and [i] flags. *)
Definition isWordChar (c : N) : bool :=
  ((48 <=? c)%N && (c <=? 57)%N) || ((65 <=? c)%N && (c <=? 90)%N)
  || ((97 <=? c)%N && (c <=? 122)%N) || (c =? 95)%N.

(** [s.replace(new RegExp(p + "\\b"), r)] for a [p] of letters: the first
    occurrence of [p] that is followed by the end of [s] or by a character
    outside [\w]. *)
Fixpoint replaceBeforeBoundary (s p r : jsstring) : jsstring :=
  if startsWith s p &&
     match skipn (length p) s with
     | [] => true
     | d :: _ => negb (isWordChar d)
     end
  then r ++ skipn (length p) s
  else match s with
  | [] => []
  | c :: s' => c :: replaceBeforeBoundary s' p r
  end.

End Regex.
Import Regex.

(* ===================================================================== *)
(** ** Unicode letters and numbers *)
(* ===================================================================== *)

(** [\p{L}] on Latin-1: the letters of ASCII, the ordinal indicators and
    the micro sign, and the letters from U+00C0 on, which leaves out the
    two operators. *)
Definition latin1L (c : N) : bool :=
  ((65 <=? c)%N && (c <=? 90)%N) || ((97 <=? c)%N && (c <=? 122)%N)
  || existsb (N.eqb c) [170; 181; 186]%N
  || ((192 <=? c)%N && (c <=? 255)%N && negb (c =? 215)%N && negb (c =? 247)%N).

(** [\p{N}] on Latin-1: the digits, the superscript digits and the vulgar
    fractions. *)
Definition latin1N (c : N) : bool :=
  ((48 <=? c)%N && (c <=? 57)%N)
  || existsb (N.eqb c) [178; 179; 185; 188; 189; 190]%N.

Definition latin1LN (c : N) : bool := latin1L c || latin1N c.

(* ===================================================================== *)
(** ** The class [Syllabification] *)
(* ===================================================================== *)

Module Syllabification.

(** [word: string | string[]] *)
Inductive wordT : Type :=
| Str (s : jsstring)
| Arr (l : list jsstring).

(** The private fields read by the methods. *)
Record Self : Type := {
  vowels : jsstring;
  close : jsstring;
  ipa : bool;
  h : bool;
  tl : bool;
  hiatus : bool
}.

(** The public fields. *)
Record t : Type := {
  syllables : list jsstring;
  stress : Z
}.

Definition keys {V} (o : list (jsstring * V)) : list jsstring := map fst o.
Definition values {V} (o : list (jsstring * V)) : list V := map snd o.

(** [o[k]] on an object literal. *)
Fixpoint lookup {V} (k : jsstring) (o : list (jsstring * V)) : option V :=
  match o with
  | [] => None
  | (k', v) :: o' => if eqb k k' then Some v else lookup k o'
  end.

Section Methods.

(** [\p{L}] and [\p{N}] beyond Latin-1, by code point: the tables of the
    JavaScript engine. *)
Variable unicodeLN : N -> bool.

(** [String.prototype.toLowerCase], of the JavaScript engine. *)
Variable toLowerCase : jsstring -> jsstring.

(** The rules of [exceptions-data.js] in table order, each as the
    rewriting [word.replace(new RegExp(pattern, 'gu'), replacement)] that
    [makeExceptions] performs with it. *)
Variable EXCEPTIONS_LIST : list (jsstring -> jsstring).

Definition isLN (cp : N) : bool :=
  if (cp <? 256)%N then latin1LN cp else unicodeLN cp.

(** *** [makeExceptions] *)

Definition caparros : list (jsstring * jsstring) :=
  [(js "fie", js "fi_e"); (js "sua", js "su_a"); (js "rui", js "ru_i")].

Definition makeExceptions (this : Self) (word : jsstring) : jsstring :=
  let word :=
    if hiatus this && existsb (fun x => startsWith word x) (keys caparros) then
      let prefix := slice word 0 3 in
      match lookup prefix caparros with
      | Some v => replace word prefix v
      | None => word
      end
    else word in
  fold_left (fun word exception => exception word) EXCEPTIONS_LIST word.

(** *** [epenthesis] *)

Definition liquidae : list jsstring :=
  [js "sch"; js "sc"; js "st"; js "sp"; js "sf"; js "sb"; js "sm"; js "sn"].

Fixpoint epenthesis_for (onsets : list jsstring) (word : jsstring) : jsstring :=
  match onsets with
  | [] => word
  | onset :: onsets' =>
    if startsWith word onset then
      if includesAt (js "aeiouáéíóúrl") (charAt word (len onset))
      then js "es_" ++ sliceFrom onset 1 ++ sliceFrom word (len onset)
      else js "e" ++ onset ++ js "_" ++ sliceFrom word (len onset)
    else epenthesis_for onsets' word
  end.

Definition epenthesis (word : jsstring) : jsstring :=
  if existsb (fun onset => startsWith word onset) liquidae
  then epenthesis_for liquidae word
  else word.

(** *** [split] *)

Definition diphthongPattern (this : Self) : regex :=
  Alt (Seq (Cls (js "qg")) (Seq (Cls (js "wuü"))
        (Alt (Seq (Cls (js "eé")) (Opt (Seq (StarCls (js "h")) (Cls (close this)))))
        (Alt (Seq (Cls (js "i")) (Opt (Seq (StarCls (js "h")) (Cls (js "aeoáéó")))))
             (Cls (js "í"))))))
 (Alt (Seq (Cls (close this)) (Seq (Seq (StarCls (js "h")) (Cls (js "aáoóeéi")))
        (Opt (Seq (StarCls (js "h")) (Cls (close this))))))
      (Seq (Cls (js "aáoóeéií")) (Seq (StarCls (js "h")) (Cls (close this))))).

Definition digraph : list jsstring := [js "ll"; js "ch"; js "rr"].

(** [m.replace(/[gq]/g, '')] *)
Definition dropGQ (m : jsstring) : jsstring :=
  filter (fun c => negb (includes (js "gq") [c])) m.

(** The recursion of [split] consumes at least one code unit of a word
    that is not empty; [fuel] counts the calls that remain.  The frames
    that these calls take on the call stack are left out here and counted
    in [Stack.split]. *)
Fixpoint split_rec (fuel : nat) (this : Self) (word : jsstring)
    (syllables : list jsstring) : list jsstring :=
  match fuel with
  | O => syllables
  | S fuel' =>
    match matchEnd (diphthongPattern this) word with
    | Some diphthongMatch =>
      let diphthong := dropGQ diphthongMatch in
      split_rec fuel' this (slice word 0 (- len diphthong)) (diphthong :: syllables)
    | None =>
      if existsb (fun d => endsWith word d) digraph then
        split_rec fuel' this (slice word 0 (-2)) (sliceFrom word (-2) :: syllables)
      else if negb (eqb word []) then
        split_rec fuel' this (slice word 0 (-1)) (sliceFrom word (-1) :: syllables)
      else syllables
    end
  end.

Definition split (this : Self) (word : jsstring) (syllables : list jsstring)
    : list jsstring :=
  split_rec (S (length word)) this word syllables.

(** *** [join] *)

Definition indivisibleOnset (this : Self) : list jsstring :=
  let indivisibleOnset :=
    [js "pl"; js "bl"; js "fl"; js "cl"; js "kl"; js "gl"; js "ll";
     js "pr"; js "br"; js "fr"; js "cr"; js "kr"; js "gr"; js "rr";
     js "dr"; js "tr"; js "ch"; js "dh"; js "rh"; js "th";
     js "βl"; js "ɣl";
     js "βɾ"; js "pɾ"; js "fɾ"; js "kɾ"; js "gɾ"; js "ɣɾ"; js "dɾ"; js "ðɾ";
     js "tɾ"; js "bɾ"; js "tʃ"; js "gw"; js "ɣw"] in
  if tl this then indivisibleOnset ++ [js "tl"] else indivisibleOnset.

Definition indivisibleCoda : list jsstring :=
  [js "ns"; js "bs"; js "nz"; js "βs"; js "bz"; js "βz"; js "nd"; js "rt";
   js "st"; js "ff"; js "ls"; js "lz"; js "zz"; js "ll"; js "nt"; js "rs"; js "ɾs";
   js "ch"; js "nk"; js "nc"; js "lk"; js "sh"; js "nt"; js "sch"; js "mp"; js "rd"].

(** The variables of the loop of [join]. *)
Record joinState : Type := {
  word : list jsstring;
  onset : jsstring;
  media : Z
}.

(** [Array.from(letter).every(x => !this.vowels.includes(x.toLowerCase()))] *)
Definition noVowel (this : Self) (letter : jsstring) : bool :=
  forallb (fun x => negb (includes (vowels this) (toLowerCase x))) (arrayFrom letter).

(** The four pairings of the last two letters of the onset. *)
Definition pairing (onset : jsstring) : bool :=
     (includesAt (js "dðfkt") (at_ onset (-1)) &&
      includesAt (js "bβcθkdðfgɣkmɱɲñpqstvwxχzjw") (at_ onset (-2)))
  || (includesAt (js "gɣ") (at_ onset (-1)) && includesAt (js "cθtkjw") (at_ onset (-2)))
  || (includesAt (js "lmɱ") (at_ onset (-1)) && includesAt (js "mɱl") (at_ onset (-2)))
  || (includesAt (js "cθ") (at_ onset (-1)) && includesAt (js "kc") (at_ onset (-2))).

(** One turn of [for (const letter of syllables)]. *)
Definition joinStep (this : Self) (st : joinState) (letter : jsstring)
    : result joinState :=
  let word := word st in
  let onset := onset st in
  let media := media st in
  if eqb letter (js "_") then
    if 0 <? len word
    then Ok {| word := appendLast word onset; onset := []; media := media |}
    else Ok st
  else if noVowel this letter then
    if endsWith onset (js "y") then
      attach <-
        (if eqb onset (js "y") then
           if 0 <? len word then
             last <- deref (at_ word (-1)) ;;
             Ok (includesAt (js "AOEÁÓÉaoeáóé") (at_ last (-1)))
           else Ok false
         else Ok false) ;;
      Ok {| word := if attach then appendLast word onset else word ++ [onset];
            onset := letter; media := media |}
    else
      let onset := onset ++ letter in
      let media := if 0 <? len word then len onset / 2 else media in
      let media := if h this && endsWith onset (js "h") then 0 else media in
      Ok {| word := word; onset := onset; media := media |}
  else if (len onset <=? 1) || (len word =? 0) then
    Ok {| word := word ++ [onset ++ letter]; onset := []; media := media |}
  else if existsb (fun x => endsWith onset x) (indivisibleOnset this) then
    if 0 <? len word then
      Ok {| word := appendLast word (slice onset 0 (-2)) ++ [sliceFrom onset (-2) ++ letter];
            onset := []; media := media |}
    else
      Ok {| word := word ++ [onset ++ letter]; onset := []; media := media |}
  else if existsb (fun x => startsWith onset x) indivisibleCoda && (2 <? len onset) then
    Ok {| word := appendLast word (slice onset 0 2) ++ [sliceFrom onset 2 ++ letter];
          onset := []; media := media |}
  else if pairing onset then
    Ok {| word := appendLast word (slice onset 0 (-1)) ++ [sliceFrom onset (-1) ++ letter];
          onset := []; media := media |}
  else
    Ok {| word := appendLast word (slice onset 0 media) ++ [sliceFrom onset media ++ letter];
          onset := []; media := media |}.

Fixpoint joinLoop (this : Self) (st : joinState) (syllables : list jsstring)
    : result joinState :=
  match syllables with
  | [] => Ok st
  | letter :: syllables' =>
    st' <- joinStep this st letter ;;
    joinLoop this st' syllables'
  end.

(** [if (onset) { ... }] after the loop. *)
Definition joinTail (st : joinState) : list jsstring :=
  let word := word st in
  let onset := onset st in
  if negb (eqb onset []) then
    if len word <? 1 then word ++ [onset]
    else if endsWith onset (js "y") && (len onset =? 1) then appendLast word onset
    else if endsWith onset (js "y") then
      appendLast word (slice onset 0 (-2)) ++ [sliceFrom onset (-2)]
    else appendLast word onset
  else word.

Definition join (this : Self) (syllables : list jsstring) : result (list jsstring) :=
  st <- joinLoop this {| word := []; onset := []; media := 0 |} syllables ;;
  Ok (joinTail st).

(** *** [syllabify] *)

Definition foreignLig : list (jsstring * jsstring) :=
  [(js "à", js "a"); (js "è", js "e"); (js "ì", js "i"); (js "ò", js "o"); (js "ù", js "u");
   (js "ã", js "a"); (js "ẽ", js "e"); (js "ĩ", js "i"); (js "õ", js "o"); (js "ũ", js "u");
   (js "ﬁ", js "fi"); (js "ﬂ", js "fl")].

(** [word.replace(/[^\p{L}\p{N}_]/gu, '')] *)
Definition stripNonWord (word : jsstring) : jsstring :=
  concat (filter (fun x => isLN (codePoint x) || eqb x (js "_")) (arrayFrom word)).

(** [Array.from(word).map(letter => foreignLig[letter] ?? letter).join('')] *)
Definition foldForeign (word : jsstring) : jsstring :=
  concat (map (fun letter =>
                 match lookup letter foreignLig with
                 | Some v => v
                 | None => letter
                 end) (arrayFrom word)).

Definition syllabify (this : Self) (word : wordT) : result (list jsstring) :=
  match word with
  | Str word =>
    let word := stripNonWord word in
    let word := foldForeign word in
    let syllables := split this word [] in
    syllables <- join this syllables ;;
    Ok (map trim syllables)
  | Arr word => Ok word
  end.

(** *** [latin] *)

Definition flexiones : list jsstring :=
  [js "um"; js "em"; js "at"; js "ant"; js "it"; js "unt"; js "am"].

Definition dictionarium : list (jsstring * jsstring) :=
  [(js "a", js "á"); (js "e", js "é"); (js "i", js "í"); (js "o", js "ó"); (js "u", js "ú")].

Definition diphthongi : list (jsstring * jsstring) :=
  [(js "ae", js "æ"); (js "oe", js "œ")].

(** The first ending of [flexiones] that [word] ends with gets the
    sentinel: [word.replace(new RegExp(`${flexio}\\b`), `_${flexio}`)]. *)
Fixpoint markFlexio (flexiones : list jsstring) (word : jsstring) : jsstring :=
  match flexiones with
  | [] => word
  | flexio :: flexiones' =>
    if endsWith word flexio
    then replaceBeforeBoundary word flexio (js "_" ++ flexio)
    else markFlexio flexiones' word
  end.

(** The test applied to [syllables.at(-2)] and to [syllables.at(-3)]: a
    ligature, more than one of the five vowel letters, or no vowel letter
    at the end. *)
Definition longa (syllable : jsstring) : bool :=
  existsb (fun dipht => includes syllable dipht) (values diphthongi)
  || (1 <? len (filter (fun x => includes syllable x) (keys dictionarium)))
  || negb (existsb (fun x => endsWith syllable x) (keys dictionarium)).

(** [for (const [clavis, pretium] of Object.entries(dictionarium))
       if (syllables.at(-k)!.includes(clavis)) {
         syllables[syllables.length - k] =
           syllables[syllables.length - k].replace(clavis, pretium);
         break; }] *)
Fixpoint accentuate (entries : list (jsstring * jsstring)) (syllables : list jsstring)
    (k : Z) : result (list jsstring) :=
  match entries with
  | [] => Ok syllables
  | (clavis, pretium) :: entries' =>
    syllable <- deref (at_ syllables (- k)) ;;
    if includes syllable clavis then
      syllable <- deref (fromEnd syllables k) ;;
      Ok (setFromEnd syllables k (replace syllable clavis pretium))
    else accentuate entries' syllables k
  end.

(** [if (syllables.length > 1) { ... }]: the accent is written into the
    provisional syllables. *)
Definition latinStress (syllables : list jsstring) : result (list jsstring) :=
  if 1 <? len syllables then
    penultima <-
      (if len syllables =? 2 then Ok true
       else if 1 <? len syllables then
         syllable <- deref (at_ syllables (-2)) ;;
         Ok (longa syllable)
       else Ok false) ;;
    if penultima then accentuate dictionarium syllables 2
    else
      syllable <- deref (at_ syllables (-3)) ;;
      if longa syllable then accentuate dictionarium syllables 3
      else
        (* the loop body ends in an unconditional [break] *)
        match dictionarium with
        | [] => Ok syllables
        | (i, pretium) :: _ =>
          syllable <- deref (fromEnd syllables 2) ;;
          Ok (setFromEnd syllables 2 (replace syllable i pretium))
        end
  else Ok syllables.

(** The guard of the Latin rules, on the lowercased word. *)
Definition latinGuard (lowerWord : jsstring) : bool :=
  existsb (fun x => endsWith lowerWord x) flexiones &&
  negb (existsb (fun x => includes lowerWord x)
          [js "á"; js "é"; js "í"; js "ó"; js "ú"]).

(** The word handed to [syllabify] by [latin]: sentinel before the ending,
    then the two ligatures. *)
Definition latinMark (lowerWord : jsstring) : jsstring :=
  let word := markFlexio flexiones lowerWord in
  fold_left (fun word e => replace word (fst e) (snd e)) diphthongi word.

Definition latin (this : Self) (word : wordT) : result wordT :=
  match word with
  | Str s =>
    let lowerWord := toLowerCase s in
    if latinGuard lowerWord then
      syllables <- syllabify this (Str (latinMark lowerWord)) ;;
      syllables <- latinStress syllables ;;
      Ok (Arr syllables)
    else Ok word
  | Arr _ => Ok word
  end.

(** *** [stressedSyllable] *)

Definition accented (s : jsstring) : bool :=
  existsb (fun k => includes (js "áéíóúÁÉÍÓÚ") [k]) s.

(** [for (let i = 0; i < syllables.length; i++)
       if (accented(syllables[i])) return i - syllables.length;] *)
Fixpoint firstAccented (syllables : list jsstring) (i : Z) : option Z :=
  match syllables with
  | [] => None
  | syllable :: syllables' =>
    if accented syllable then Some i else firstAccented syllables' (i + 1)
  end.

Definition stressedSyllable (syllables : list jsstring) : result Z :=
  if len syllables =? 0 then Ok (-1)
  else if len syllables =? 1 then Ok (-1)
  else if accented (concat syllables) then
    match firstAccented syllables 0 with
    | Some i => Ok (i - len syllables)
    | None => Ok (-1)
    end
  else
    last <- deref (at_ syllables (-1)) ;;
    if includesAt (js "yY") (at_ last (-1)) && includesAt (js "aeiouAEIOU") (at_ last (-2))
    then Ok (-1)
    else if includesAt (js "aeiouAEIOUy") (at_ last (-1)) then Ok (-2)
    else if includesAt (js "nsNS") (at_ last (-1)) && includesAt (js "aeiouAEIOU") (at_ last (-2))
    then Ok (-2)
    else Ok (-1).

(** *** The constructor *)

(** The private fields as the constructor leaves them. *)
Definition init (ipa h tl hiatus : bool) : Self :=
  let vowels := js "aeiouáéíóúäëïöüàèìòùAEIOUÁÉÍÓÚÄËÏÓÜÀÈÌÒÙ" in
  let close := js "iuIU" in
  let vowels := if ipa then vowels ++ js "jw" else vowels in
  let close := if ipa then close ++ js "jw" else close in
  {| vowels := vowels; close := close; ipa := ipa; h := h; tl := tl;
     hiatus := hiatus |}.

Definition new (word : jsstring) (exceptions : Z) (ipa h epen tl : bool) : result t :=
  let word := if epen then epenthesis word else word in
  if 0 <? exceptions then
    let this := init ipa h tl (1 <? exceptions) in
    let word := makeExceptions this word in
    word <- latin this (Str word) ;;
    syllables <- syllabify this word ;;
    stress <- stressedSyllable syllables ;;
    Ok {| syllables := syllables; stress := stress |}
  else
    let this := init ipa h tl false in
    syllables <- syllabify this (Str word) ;;
    stress <- stressedSyllable syllables ;;
    Ok {| syllables := syllables; stress := stress |}.

End Methods.
End Syllabification.

(* ===================================================================== *)
(** ** The exported functions *)
(* ===================================================================== *)

Section Exports.

Variable unicodeLN : N -> bool.
Variable toLowerCase : jsstring -> jsstring.
Variable EXCEPTIONS_LIST : list (jsstring -> jsstring).

Definition syllabify (word : jsstring) (exceptions : Z) (ipa h epen tl : bool)
    : result (list jsstring) :=
  s <- Syllabification.new unicodeLN toLowerCase EXCEPTIONS_LIST
         word exceptions ipa h epen tl ;;
  Ok (Syllabification.syllables s).

Definition tonica (word : jsstring) (exceptions : Z) (ipa h epen tl : bool)
    : result Z :=
  s <- Syllabification.new unicodeLN toLowerCase EXCEPTIONS_LIST
         word exceptions ipa h epen tl ;;
  Ok (Syllabification.stress s).

End Exports.

(* ===================================================================== *)
(** ** An engine for words written in Latin-1 *)
(* ===================================================================== *)

Module Latin1.

(** No letter or number is known beyond U+00FF. *)
Definition unicodeLN (cp : N) : bool := false.

(** Lowercase of the capital letters of Latin-1. *)
Definition lowerUnit (c : N) : N :=
  if ((65 <=? c)%N && (c <=? 90)%N)
     || ((192 <=? c)%N && (c <=? 222)%N && negb (c =? 215)%N)
  then (c + 32)%N else c.

Definition toLowerCase (s : jsstring) : jsstring := map lowerUnit s.

(** The empty table of exceptions. *)
Definition EXCEPTIONS_LIST : list (jsstring -> jsstring) := [].

Definition syllabify := syllabify unicodeLN toLowerCase EXCEPTIONS_LIST.
Definition tonica := tonica unicodeLN toLowerCase EXCEPTIONS_LIST.
Definition new := Syllabification.new unicodeLN toLowerCase EXCEPTIONS_LIST.

End Latin1.

(* ===================================================================== *)
(** ** Notions used in the statements *)
(* ===================================================================== *)

(** The sentinel marker, as a code unit. *)
Definition sentinel : N := 95%N.

(** A string with its sentinel markers removed. *)
Definition unmark (s : jsstring) : jsstring :=
  filter (fun c => negb (c =? sentinel)%N) s.

(** The code units that the classes of a regular expression mention. *)
Fixpoint alphabet (r : regex) : jsstring :=
  match r with
  | Cls cs => cs
  | Seq a b => alphabet a ++ alphabet b
  | Alt a b => alphabet a ++ alphabet b
  | Opt a => alphabet a
  | StarCls cs => cs
  end.

(** The close vowels may be extended, but not by [g], [q] or the
    sentinel. *)
Definition closeOk (this : Syllabification.Self) : Prop :=
  forall c, In c (Syllabification.close this) -> ~ In c (js "gq_").

(** A segment produced by [split]: the sentinel alone, or a piece of the
    word without sentinel. *)
Definition segment (seg : jsstring) : Prop :=
  seg <> [] /\ (seg = [sentinel] \/ ~ In sentinel seg).

(** What [join] has put together so far. *)
Definition flat (st : Syllabification.joinState) : jsstring :=
  concat (Syllabification.word st) ++ Syllabification.onset st.

(** The segments other than the sentinel, concatenated. *)
Definition visible (segs : list jsstring) : jsstring :=
  concat (filter (fun seg => negb (eqb seg [sentinel])) segs).

(** A word after the two normalizing steps of [syllabify]: characters
    other than letters, numbers and the sentinel removed, foreign letters
    and ligatures folded. *)
Definition normalize (unicodeLN : N -> bool) (word : jsstring) : jsstring :=
  Syllabification.foldForeign (Syllabification.stripNonWord unicodeLN word).

(** No white space of JavaScript is a letter or a number. *)
Definition spaceless (unicodeLN : N -> bool) : Prop :=
  forall c, isWhiteSpace c = true -> unicodeLN c = false.

(** The accent that the Latin rule writes, undone: [á] to [a], and so on. *)
Definition unaccent (c : N) : N :=
  match Syllabification.lookup [c]
          (map (fun e => (snd e, fst e)) Syllabification.dictionarium) with
  | Some [v] => v
  | _ => c
  end.

(** The first letter of the table [a, e, i, o, u], in this order, that the
    syllable contains has its first occurrence replaced by the accented
    letter. *)
Fixpoint accentWith (entries : list (jsstring * jsstring)) (syllable : jsstring)
    : jsstring :=
  match entries with
  | [] => syllable
  | (clavis, pretium) :: entries' =>
    if includes syllable clavis then replace syllable clavis pretium
    else accentWith entries' syllable
  end.

(** One syllable with the accent written, or left as it is. *)
Definition accentedFrom (s s' : jsstring) : Prop :=
  s' = s \/
  exists c p, In ([c], [p]) Syllabification.dictionarium /\ s' = replace s [c] [p].

(** The plain vowels, in either case. *)
Definition plainVowel (c : N) : bool := existsb (N.eqb c) (js "aeiouAEIOU").

(** The default stress, read off the last syllable from its end: the last
    code unit [e] and whether a plain vowel stands before it. *)
Definition defaultStress (last : jsstring) : Z :=
  match rev last with
  | [] => -1
  | e :: before =>
    let afterVowel :=
      match before with
      | b :: _ => plainVowel b
      | [] => false
      end in
    if existsb (N.eqb e) (js "yY") && afterVowel then -1
    else if plainVowel e || existsb (N.eqb e) (js "y") then -2
    else if existsb (N.eqb e) (js "nsNS") && afterVowel then -2
    else -1
  end.

(** A word with the sentinel after the second letter of its prefix. *)
Definition hiatusMarked (prefix rest : jsstring) : jsstring :=
  slice prefix 0 2 ++ [sentinel] ++ sliceFrom prefix 2 ++ rest.

(** The five vowel letters of the table of accents. *)
Definition vowelLetter (c : N) : Prop := In c (js "aeiou").

(** A long syllable, in the words of the specification: it contains a
    ligature of a Latin diphthong, or two distinct vowel letters, or it
    does not end in a vowel letter. *)
Definition long (s : jsstring) : Prop :=
  (exists c, In c (js "æœ") /\ In c s)
  \/ (exists v1 v2, vowelLetter v1 /\ vowelLetter v2 /\ v1 <> v2 /\ In v1 s /\ In v2 s)
  \/ ~ (exists v r, vowelLetter v /\ s = r ++ [v]).

Section Statements.

Variable unicodeLN : N -> bool.
Variable toLowerCase : jsstring -> jsstring.
Variable EXCEPTIONS_LIST : list (jsstring -> jsstring).

(** A word without a letter or a number: no code point of it is one. *)
Definition letterless (word : jsstring) : Prop :=
  Forall (fun x => Syllabification.isLN unicodeLN (codePoint x) = false)
    (arrayFrom word).

(** The word after epenthesis and, from level 1 on, the exceptions. *)
Definition substituted (word : jsstring) (exceptions : Z) (epen : bool) : jsstring :=
  let word := if epen then Syllabification.epenthesis word else word in
  if 0 <? exceptions
  then Syllabification.makeExceptions EXCEPTIONS_LIST
         (Syllabification.init false false false (1 <? exceptions)) word
  else word.

(** Whether the Latin rules are applied to the word. *)
Definition latinFires (word : jsstring) (exceptions : Z) (epen : bool) : bool :=
  (0 <? exceptions)
  && Syllabification.latinGuard (toLowerCase (substituted word exceptions epen)).

(** The word that is split and joined: with the Latin marking when the
    Latin rules are applied. *)
Definition marked (word : jsstring) (exceptions : Z) (epen : bool) : jsstring :=
  if latinFires word exceptions epen
  then Syllabification.latinMark (toLowerCase (substituted word exceptions epen))
  else substituted word exceptions epen.

End Statements.

(* ===================================================================== *)
(** ** Notions used in the further properties *)
(* ===================================================================== *)

(** A string of the characters of [\w]. *)
Definition wordChars (s : jsstring) : Prop :=
  Forall (fun c => isWordChar c = true) s.

(** A syllable with a written accent. *)
Definition hasAccent (s : jsstring) : Prop :=
  exists c, In c s /\ In c (js "áéíóúÁÉÍÓÚ").

(** No syllable is the empty string. *)
Definition solid (syllables : list jsstring) : Prop :=
  Forall (fun s => s <> []) syllables.

(** The least number of code units that a regular expression matches. *)
Fixpoint minLen (r : regex) : nat :=
  match r with
  | Cls _ => 1
  | Seq a b => minLen a + minLen b
  | Alt a b => Nat.min (minLen a) (minLen b)
  | Opt _ => 0
  | StarCls _ => 0
  end.

(** A segment of [split], closer: one code unit, or two or more without
    [g], [q] or the sentinel (a diphthong, a triphthong or a digraph). *)
Definition nucleusOrUnit (seg : jsstring) : Prop :=
  (exists c, seg = [c])
  \/ ((2 <= length seg)%nat /\ Forall (fun c => ~ In c (js "gq_")) seg).

(** The segments that [join] takes for a nucleus: not the sentinel, and
    with a vowel among their code points. *)
Definition nucleus (toLowerCase : jsstring -> jsstring)
    (this : Syllabification.Self) (letter : jsstring) : bool :=
  negb (eqb letter (js "_")) && negb (Syllabification.noVowel toLowerCase this letter).


(** A string with one accent at most written into it: it is the target,
    or the target with one vowel letter replaced by its accented letter
    of the table [a -> á, e -> é, i -> í, o -> ó, u -> ú]. *)
Definition oneAccent (target out : jsstring) : Prop :=
  out = target \/
  exists a b c p,
    In ([c], [p]) Syllabification.dictionarium /\
    target = a ++ c :: b /\ out = a ++ p :: b.

(** A syllable with one of the five vowel letters of the table. *)
Definition hasVowelLetter (s : jsstring) : Prop :=
  exists v, vowelLetter v /\ In v s.

(** The accent written into a syllable: of the letters [a, e, i, o, u], in
    the order of the table, the first that the syllable contains has its
    first occurrence replaced by the accented letter. *)
Definition accentOn (s s' : jsstring) : Prop :=
  exists before c p after s1 s2,
    Syllabification.dictionarium = before ++ ([c], [p]) :: after /\
    (forall d q, In ([d], [q]) before -> ~ In d s) /\
    s = s1 ++ c :: s2 /\ ~ In c s1 /\ s' = s1 ++ p :: s2.

(** The word that [syllabify] hands to [split]: the marked word,
    normalized. *)
Definition splitInput (unicodeLN : N -> bool) (toLowerCase : jsstring -> jsstring)
    (EXCEPTIONS_LIST : list (jsstring -> jsstring))
    (word : jsstring) (exceptions : Z) (epen : bool) : jsstring :=
  normalize unicodeLN (marked toLowerCase EXCEPTIONS_LIST word exceptions epen).

(* ===================================================================== *)
(** ** The call stack of [split] *)
(* ===================================================================== *)

(** [split] calls itself once for each segment that it cuts off the word,
    and once more on the empty word that is left.  The engine keeps a
    frame of the call stack for each of these calls until the last one
    returns, and the call that finds no room for its frame throws a
    [RangeError].  [Stack] repeats [split] and its callers with the frames
    as a resource: [frames] is the number of nested calls of [split] that
    the stack has room for when [syllabify] calls it, a number that the
    engine fixes and that is finite. *)
Module Stack.

Import Syllabification.

(** The nested calls of [split] on a word: one for each segment, and one
    for the empty word that is left. *)
Definition calls (this : Self) (word : jsstring) : nat :=
  S (length (split this word [])).

Fixpoint split (frames : nat) (this : Self) (word : jsstring)
    (syllables : list jsstring) : result (list jsstring) :=
  match frames with
  | O => Throw RangeError
  | S frames' =>
    match matchEnd (diphthongPattern this) word with
    | Some diphthongMatch =>
      let diphthong := dropGQ diphthongMatch in
      split frames' this (slice word 0 (- len diphthong)) (diphthong :: syllables)
    | None =>
      if existsb (fun d => endsWith word d) digraph then
        split frames' this (slice word 0 (-2)) (sliceFrom word (-2) :: syllables)
      else if negb (eqb word []) then
        split frames' this (slice word 0 (-1)) (sliceFrom word (-1) :: syllables)
      else Ok syllables
    end
  end.

Section Methods.

Variable unicodeLN : N -> bool.
Variable toLowerCase : jsstring -> jsstring.
Variable EXCEPTIONS_LIST : list (jsstring -> jsstring).
Variable frames : nat.

Definition syllabify (this : Self) (word : wordT) : result (list jsstring) :=
  match word with
  | Str word =>
    let word := stripNonWord unicodeLN word in
    let word := foldForeign word in
    syllables <- split frames this word [] ;;
    syllables <- join toLowerCase this syllables ;;
    Ok (map trim syllables)
  | Arr word => Ok word
  end.

Definition latin (this : Self) (word : wordT) : result wordT :=
  match word with
  | Str s =>
    let lowerWord := toLowerCase s in
    if latinGuard lowerWord then
      syllables <- syllabify this (Str (latinMark lowerWord)) ;;
      syllables <- latinStress syllables ;;
      Ok (Arr syllables)
    else Ok word
  | Arr _ => Ok word
  end.

Definition new (word : jsstring) (exceptions : Z) (ipa h epen tl : bool) : result t :=
  let word := if epen then epenthesis word else word in
  if 0 <? exceptions then
    let this := init ipa h tl (1 <? exceptions) in
    let word := makeExceptions EXCEPTIONS_LIST this word in
    word <- latin this (Str word) ;;
    syllables <- syllabify this word ;;
    stress <- stressedSyllable syllables ;;
    Ok {| syllables := syllables; stress := stress |}
  else
    let this := init ipa h tl false in
    syllables <- syllabify this (Str word) ;;
    stress <- stressedSyllable syllables ;;
    Ok {| syllables := syllables; stress := stress |}.

End Methods.

End Stack.
(* ===================================================================== *)
(** ** Facts about the string operations *)
(* ===================================================================== *)

Set Default Proof Using "Type".

(** Membership in a list that is written out. *)
Ltac in_cases H := repeat (destruct H as [H|H]; [subst|]); try contradiction.
Ltac in_solve := repeat first [left; reflexivity | right].

Section StringFacts.

Lemma eqb_eq (a b : jsstring) : eqb a b = true <-> a = b.
Proof.
  revert b; induction a as [|x a IH]; intros [|y b]; simpl; split;
    try congruence; try reflexivity.
  - intros H. apply andb_true_iff in H as [H1 H2].
    apply N.eqb_eq in H1. apply IH in H2. congruence.
  - intros H. injection H as -> ->. rewrite N.eqb_refl. simpl. now apply IH.
Qed.

Lemma eqb_refl (a : jsstring) : eqb a a = true.
Proof. now apply eqb_eq. Qed.

Lemma eqb_neq (a b : jsstring) : eqb a b = false <-> a <> b.
Proof.
  split.
  - intros H E. apply eqb_eq in E. congruence.
  - intros H. destruct (eqb a b) eqn:E; [apply eqb_eq in E; contradiction | reflexivity].
Qed.

Lemma len_nonneg {A} (l : list A) : 0 <= len l.
Proof. unfold len. lia. Qed.

Lemma len_app {A} (l1 l2 : list A) : len (l1 ++ l2) = len l1 + len l2.
Proof. unfold len. rewrite length_app. lia. Qed.

Lemma len_nil_iff {A} (l : list A) : len l = 0 <-> l = [].
Proof. unfold len. destruct l; simpl; split; intros; try congruence; try lia. Qed.

(** The two halves that [slice(0, k)] and [slice(k)] cut a string into. *)
Lemma slice_sliceFrom {A} (s : list A) (k : Z) :
  slice s 0 k ++ sliceFrom s k = s.
Proof.
  unfold slice, sliceFrom.
  assert (H0 : relIndex (len s) 0 = O).
  { unfold relIndex. simpl. pose proof (len_nonneg s). rewrite Z.min_l by lia. reflexivity. }
  rewrite H0. simpl. rewrite Nat.sub_0_r. apply firstn_skipn.
Qed.

Lemma startsWith_iff (s p : jsstring) :
  startsWith s p = true <-> exists r, s = p ++ r.
Proof.
  revert s; induction p as [|c p IH]; intros s; simpl.
  - split; [intros _; now exists s | reflexivity].
  - destruct s as [|d s].
    + split; [discriminate | intros [r Hr]; discriminate].
    + rewrite andb_true_iff, N.eqb_eq, IH. split.
      * intros [-> [r ->]]. now exists r.
      * intros [r Hr]. injection Hr as -> ->. split; [reflexivity | now exists r].
Qed.

Lemma endsWith_iff (s p : jsstring) :
  endsWith s p = true <-> exists r, s = r ++ p.
Proof.
  unfold endsWith. destruct (length s <? length p)%nat eqn:E.
  - apply Nat.ltb_lt in E. split; [discriminate|].
    intros [r ->]. rewrite length_app in E. lia.
  - apply Nat.ltb_ge in E. rewrite eqb_eq. split.
    + intros H. exists (firstn (length s - length p) s).
      set (n := (length s - length p)%nat) in *.
      rewrite <- H. symmetry. apply firstn_skipn.
    + intros [r ->]. rewrite length_app.
      replace (length r + length p - length p)%nat with (length r + 0)%nat by lia.
      rewrite skipn_app, Nat.add_0_r, skipn_all. simpl.
      replace (length r - length r)%nat with O by lia. reflexivity.
Qed.

Lemma includes_unit (s : jsstring) (c : N) : includes s [c] = true <-> In c s.
Proof.
  induction s as [|d s IH]; simpl.
  - split; [discriminate | contradiction].
  - rewrite orb_true_iff, andb_true_r, N.eqb_eq, IH. intuition congruence.
Qed.

Lemma includes_unit_false (s : jsstring) (c : N) : includes s [c] = false <-> ~ In c s.
Proof.
  rewrite <- includes_unit. destruct (includes s [c]); intuition congruence.
Qed.

Lemma appendLast_length (a : list jsstring) (x : jsstring) :
  length (appendLast a x) = length a.
Proof.
  induction a as [|y a IH]; [reflexivity|].
  destruct a as [|z a]; [reflexivity|].
  change (appendLast (y :: z :: a) x) with (y :: appendLast (z :: a) x).
  simpl length in *. now rewrite IH.
Qed.

Lemma appendLast_snoc (a : list jsstring) (y x : jsstring) :
  appendLast (a ++ [y]) x = a ++ [y ++ x].
Proof.
  induction a as [|z a IH]; [reflexivity|].
  simpl app. destruct (a ++ [y]) eqn:E.
  - destruct a; discriminate.
  - rewrite <- E in *. change (appendLast (z :: a ++ [y]) x) with
      (match a ++ [y] with [] => [z ++ x] | _ => z :: appendLast (a ++ [y]) x end).
    rewrite E. rewrite <- E. now rewrite IH.
Qed.

Lemma nonempty_snoc {A} (a : list A) : a <> [] -> exists b y, a = b ++ [y].
Proof.
  intros H. destruct (exists_last H) as [b [y ->]]. now exists b, y.
Qed.

Lemma appendLast_concat (a : list jsstring) (x : jsstring) :
  a <> [] -> concat (appendLast a x) = concat a ++ x.
Proof.
  intros H. destruct (nonempty_snoc _ H) as [b [y ->]].
  rewrite appendLast_snoc, !concat_app. simpl. now rewrite !app_nil_r, app_assoc.
Qed.

End StringFacts.

(* ===================================================================== *)
(** ** Facts about the regular expressions *)
(* ===================================================================== *)

Section RegexFacts.

Lemma starCls_sound (cs : jsstring) (k : jsstring -> bool) (s : jsstring) :
  starCls cs k s = true ->
  exists s1 s2, s = s1 ++ s2 /\ Forall (fun c => In c cs) s1 /\ k s2 = true.
Proof.
  induction s as [|c s IH]; simpl; intros H.
  - rewrite orb_false_r in H. exists [], []. auto.
  - apply orb_true_iff in H as [H|H].
    + exists [], (c :: s). auto.
    + apply andb_true_iff in H as [Hc H].
      destruct (IH H) as (s1 & s2 & -> & Hs1 & Hk).
      exists (c :: s1), s2. repeat split; auto.
      constructor; auto. now apply includes_unit.
Qed.

(** A match consumes code units of the alphabet of the expression. *)
Lemma matchK_sound (r : regex) : forall (k : jsstring -> bool) (s : jsstring),
  matchK r k s = true ->
  exists s1 s2, s = s1 ++ s2 /\ Forall (fun c => In c (alphabet r)) s1 /\ k s2 = true.
Proof.
  induction r as [cs|a IHa b IHb|a IHa b IHb|a IHa|cs]; intros k s H; simpl in *.
  - destruct s as [|c s]; [discriminate|].
    apply andb_true_iff in H as [Hc H].
    exists [c], s. repeat split; auto. constructor; auto. now apply includes_unit.
  - destruct (IHa _ _ H) as (s1 & s2 & -> & Hs1 & H2).
    destruct (IHb _ _ H2) as (s3 & s4 & -> & Hs3 & H4).
    exists (s1 ++ s3), s4. rewrite app_assoc. repeat split; auto.
    apply Forall_app. split; eapply Forall_impl; eauto; simpl; intros;
      apply in_or_app; auto.
  - apply orb_true_iff in H as [H|H];
      [destruct (IHa _ _ H) as (s1 & s2 & -> & Hs1 & H2)
      |destruct (IHb _ _ H) as (s1 & s2 & -> & Hs1 & H2)];
      exists s1, s2; repeat split; auto;
      eapply Forall_impl; eauto; simpl; intros; apply in_or_app; auto.
  - apply orb_true_iff in H as [H|H].
    + destruct (IHa _ _ H) as (s1 & s2 & -> & Hs1 & H2). exists s1, s2. auto.
    + exists [], s. auto.
  - now apply starCls_sound.
Qed.

Lemma matchToEnd_sound (r : regex) (s : jsstring) :
  matchToEnd r s = true -> Forall (fun c => In c (alphabet r)) s.
Proof.
  intros H. destruct (matchK_sound _ _ _ H) as (s1 & s2 & -> & Hs1 & H2).
  apply eqb_eq in H2. subst. now rewrite app_nil_r.
Qed.

Lemma matchToEnd_Alt (a b : regex) (s : jsstring) :
  matchToEnd (Alt a b) s = matchToEnd a s || matchToEnd b s.
Proof. reflexivity. Qed.

Lemma matchToEnd_Seq_Cls (cs : jsstring) (b : regex) (s : jsstring) :
  matchToEnd (Seq (Cls cs) b) s =
  match s with
  | [] => false
  | c :: s' => includes cs [c] && matchToEnd b s'
  end.
Proof. reflexivity. Qed.

(** The match of [/r$/] is a suffix of the string. *)
Lemma matchEnd_suffix (r : regex) (s m : jsstring) :
  matchEnd r s = Some m -> exists pre, s = pre ++ m /\ matchToEnd r m = true.
Proof.
  induction s as [|c s IH]; simpl; intros H.
  - destruct (matchToEnd r []) eqn:E; [|discriminate].
    injection H as <-. now exists [].
  - destruct (matchToEnd r (c :: s)) eqn:E.
    + injection H as <-. now exists [].
    + destruct (IH H) as (pre & -> & Hm). now exists (c :: pre).
Qed.

End RegexFacts.

(* ===================================================================== *)
(** ** Facts about [split] *)
(* ===================================================================== *)

Section SplitFacts.

Import Syllabification.

Variable this : Self.

Lemma relIndex_neg (n k : Z) : 0 <= n -> 0 < k ->
  relIndex n (- k) = Z.to_nat (Z.max (n - k) 0).
Proof.
  intros Hn Hk. unfold relIndex.
  destruct (- k <? 0) eqn:E; [|apply Z.ltb_ge in E; lia].
  f_equal.
Qed.

Lemma slice0_length {A} (s : list A) (k : Z) :
  length (slice s 0 k) = relIndex (len s) k.
Proof.
  pose proof (slice_sliceFrom s k) as H.
  unfold slice, sliceFrom in *.
  assert (H0 : relIndex (len s) 0 = O).
  { unfold relIndex. simpl. pose proof (len_nonneg s). rewrite Z.min_l by lia. reflexivity. }
  rewrite H0 in *. simpl. rewrite Nat.sub_0_r.
  rewrite length_firstn. apply Nat.min_l.
  unfold relIndex, len. destruct (k <? 0) eqn:E; [apply Z.ltb_lt in E|]; lia.
Qed.

(** Cutting a non-empty suffix off by its length. *)
Lemma slice_suffix {A} (a d : list A) :
  d <> [] -> slice (a ++ d) 0 (- len d) = a /\ sliceFrom (a ++ d) (- len d) = d.
Proof.
  intros Hd.
  assert (Hlen : 0 < len d).
  { unfold len. destruct d; [contradiction | simpl; lia]. }
  assert (Hi : relIndex (len (a ++ d)) (- len d) = length a).
  { rewrite relIndex_neg by (auto using len_nonneg).
    rewrite len_app. unfold len. lia. }
  pose proof (slice_sliceFrom (a ++ d) (- len d)) as H.
  unfold sliceFrom in *. rewrite Hi in *.
  rewrite skipn_app, skipn_all, Nat.sub_diag in *. simpl in *.
  split; [|reflexivity].
  apply app_inv_tail in H. exact H.
Qed.

(** The pattern matches no empty string, whatever the close vowels. *)
Lemma diphthong_nonempty : matchEnd (diphthongPattern this) [] = None.
Proof. reflexivity. Qed.

(** Each call of [split] on a word that is not empty moves a non-empty
    suffix of it to the front of the syllables. *)
Lemma split_rec_shrinks (word : jsstring) (k : Z) :
  word <> [] -> (k = 0 \/ 0 < - k) -> (length (slice word 0 k) < length word)%nat.
Proof.
  intros Hw Hk. rewrite slice0_length.
  assert (0 < len word) by (unfold len; destruct word; [contradiction | simpl; lia]).
  unfold relIndex, len in *. destruct (k <? 0) eqn:E.
  - apply Z.ltb_lt in E. lia.
  - apply Z.ltb_ge in E. assert (k = 0) by lia. subst. simpl. lia.
Qed.

Lemma split_rec_fuel : forall (fuel1 fuel2 : nat) (word : jsstring) (syllables : list jsstring),
  (length word < fuel1)%nat -> (length word < fuel2)%nat ->
  split_rec fuel1 this word syllables = split_rec fuel2 this word syllables.
Proof.
  induction fuel1 as [|fuel1 IH]; intros fuel2 word syllables H1 H2; [lia|].
  destruct fuel2 as [|fuel2]; [lia|].
  cbn [split_rec].
  destruct (matchEnd (diphthongPattern this) word) as [m|] eqn:Em.
  - assert (Hw : word <> []).
    { intros ->. rewrite diphthong_nonempty in Em. discriminate. }
    assert (Hs : (length (slice word 0 (- len (dropGQ m))) < length word)%nat).
    { apply split_rec_shrinks; auto. pose proof (len_nonneg (dropGQ m)). lia. }
    apply IH; lia.
  - destruct (existsb (fun d => endsWith word d) digraph) eqn:Ed.
    + assert (Hw : word <> []).
      { intros ->. discriminate. }
      assert (Hs : (length (slice word 0 (-2)) < length word)%nat).
      { apply split_rec_shrinks; auto. lia. }
      apply IH; lia.
    + destruct (eqb word []) eqn:Ee; simpl; [reflexivity|].
      apply eqb_neq in Ee.
      assert (Hs : (length (slice word 0 (-1)) < length word)%nat).
      { apply split_rec_shrinks; auto. lia. }
      apply IH; lia.
Qed.

(** [split] satisfies the recursive equation of the source: the fuel it
    starts with is never exhausted. *)
Lemma split_unfold (word : jsstring) (syllables : list jsstring) :
  split this word syllables =
  match matchEnd (diphthongPattern this) word with
  | Some diphthongMatch =>
    let diphthong := dropGQ diphthongMatch in
    split this (slice word 0 (- len diphthong)) (diphthong :: syllables)
  | None =>
    if existsb (fun d => endsWith word d) digraph then
      split this (slice word 0 (-2)) (sliceFrom word (-2) :: syllables)
    else if negb (eqb word []) then
      split this (slice word 0 (-1)) (sliceFrom word (-1) :: syllables)
    else syllables
  end.
Proof.
  unfold split at 1. cbn [split_rec].
  destruct (matchEnd (diphthongPattern this) word) as [m|] eqn:Em.
  - assert (Hw : word <> []).
    { intros ->. rewrite diphthong_nonempty in Em. discriminate. }
    assert (Hs : (length (slice word 0 (- len (dropGQ m))) < length word)%nat).
    { apply split_rec_shrinks; auto. pose proof (len_nonneg (dropGQ m)). lia. }
    unfold split. apply split_rec_fuel; lia.
  - destruct (existsb (fun d => endsWith word d) digraph) eqn:Ed.
    + assert (Hw : word <> []) by (intros ->; discriminate).
      assert (Hs : (length (slice word 0 (-2)) < length word)%nat).
      { apply split_rec_shrinks; auto. lia. }
      unfold split. apply split_rec_fuel; lia.
    + destruct (eqb word []) eqn:Ee; simpl; [reflexivity|].
      apply eqb_neq in Ee.
      assert (Hs : (length (slice word 0 (-1)) < length word)%nat).
      { apply split_rec_shrinks; auto. lia. }
      unfold split. apply split_rec_fuel; lia.
Qed.

(** *** The segments *)

Hypothesis close_ok : closeOk this.

Ltac unit_cases H :=
  repeat match type of H with
         | In _ (_ ++ _) => apply in_app_or in H; destruct H as [H|H]
         end;
  first [ apply close_ok; exact H
        | vm_compute in H; vm_compute;
          repeat (destruct H as [H|H]; [subst; intuition discriminate|]);
          contradiction ].

Lemma safe_units (s : jsstring) :
  Forall (fun c => ~ In c (js "gq_")) s -> dropGQ s = s /\ ~ In sentinel s.
Proof.
  induction s as [|c s IH]; intros H; [split; [reflexivity | intros []]|].
  inversion H as [|? ? Hc Hs]; subst. destruct (IH Hs) as [IH1 IH2].
  unfold dropGQ in *. cbn [filter].
  assert (Hg : includes (js "gq") [c] = false).
  { apply includes_unit_false. intros Hin. apply Hc.
    vm_compute in Hin. vm_compute. intuition. }
  rewrite Hg. cbn [negb]. rewrite IH1. split; [reflexivity|].
  intros [E|Hin]; [|contradiction].
  apply Hc. rewrite E. vm_compute. auto.
Qed.

(** Of a diphthong match, [g] or [q] is at most the first code unit, and
    what remains is not empty. *)
Lemma diphthong_shape (m : jsstring) :
  matchToEnd (diphthongPattern this) m = true ->
  exists g, m = g ++ dropGQ m /\ dropGQ m <> [] /\ ~ In sentinel (dropGQ m).
Proof using close_ok.
  unfold diphthongPattern. rewrite !matchToEnd_Alt, matchToEnd_Seq_Cls. intros H.
  apply orb_true_iff in H as [H|H].
  - destruct m as [|c m']; [discriminate|].
    apply andb_true_iff in H as [Hc H].
    assert (Hm' : m' <> []) by (intros ->; discriminate).
    apply matchToEnd_sound in H.
    assert (Hs : Forall (fun c => ~ In c (js "gq_")) m').
    { eapply Forall_impl; [|exact H]. cbv beta. intros a Ha.
      cbn [alphabet] in Ha. unit_cases Ha. }
    destruct (safe_units _ Hs) as [Hd Hn].
    assert (Hg : includes (js "gq") [c] = true).
    { apply includes_unit. apply includes_unit in Hc.
      vm_compute in Hc |- *. intuition. }
    exists [c]. unfold dropGQ in *. cbn [filter]. rewrite Hg. cbn [negb app].
    rewrite Hd. auto.
  - assert (Hm : m <> []).
    { intros ->. discriminate. }
    assert (Hs : Forall (fun c => ~ In c (js "gq_")) m).
    { apply orb_true_iff in H as [H|H]; apply matchToEnd_sound in H;
        (eapply Forall_impl; [|exact H]); cbv beta; intros a Ha;
        cbn [alphabet] in Ha; unit_cases Ha. }
    destruct (safe_units _ Hs) as [Hd Hn].
    exists []. rewrite Hd. auto.
Qed.

Lemma slice_last (word r d : jsstring) (k : Z) :
  word = r ++ d -> d <> [] -> k = - len d ->
  slice word 0 k = r /\ sliceFrom word k = d.
Proof. intros -> Hd ->. now apply slice_suffix. Qed.

(** One call of [split] on a word that is not empty. *)
Lemma split_step (word : jsstring) :
  word <> [] ->
  exists rest seg, word = rest ++ seg /\ segment seg /\
    forall syllables, split this word syllables = split this rest (seg :: syllables).
Proof using close_ok.
  intros Hw.
  destruct (matchEnd (diphthongPattern this) word) as [m|] eqn:Em.
  - destruct (matchEnd_suffix _ _ _ Em) as (pre & -> & Hm).
    destruct (diphthong_shape _ Hm) as (g & Hg & Hd & Hn).
    exists (pre ++ g), (dropGQ m). repeat split; auto.
    + rewrite <- app_assoc. now rewrite <- Hg.
    + intros syllables. rewrite split_unfold, Em. cbv zeta.
      assert (E : pre ++ m = (pre ++ g) ++ dropGQ m) by (rewrite <- app_assoc; now rewrite <- Hg).
      destruct (slice_last _ _ _ _ E Hd eq_refl) as [-> _]. reflexivity.
  - destruct (existsb (fun d => endsWith word d) digraph) eqn:Ed.
    + apply existsb_exists in Ed as (d & Hin & Hd).
      apply endsWith_iff in Hd as (r & ->).
      assert (Hd2 : d <> [] /\ 2 = len d /\ ~ In sentinel d).
      { vm_compute in Hin.
        repeat (destruct Hin as [Hin|Hin];
                [subst; repeat split; [discriminate | vm_compute; intuition discriminate]|]).
        contradiction. }
      destruct Hd2 as (Hd & Hl & Hn).
      exists r, d. repeat split; auto.
      intros syllables. rewrite split_unfold, Em.
      assert (Ed : existsb (fun d0 => endsWith (r ++ d) d0) digraph = true).
      { apply existsb_exists. exists d. split; auto. apply endsWith_iff. now exists r. }
      rewrite Ed.
      destruct (slice_last (r ++ d) r d (-2) eq_refl Hd ltac:(lia)) as [-> ->]. reflexivity.
    + destruct (exists_last Hw) as (r & c & ->).
      exists r, [c]. repeat split; [discriminate | |].
      * destruct (N.eq_dec c sentinel) as [->|Hc]; [now left | right].
        intros [E|[]]. congruence.
      * intros syllables. rewrite split_unfold, Em, Ed.
        assert (Ee : eqb (r ++ [c]) [] = false) by (apply eqb_neq; destruct r; discriminate).
        rewrite Ee. cbn [negb].
        assert (Hl : 1 = len [c]) by reflexivity.
        assert (Hc : [c] <> []) by discriminate.
        destruct (slice_last (r ++ [c]) r [c] (-1) eq_refl Hc eq_refl) as [-> ->]. reflexivity.
Qed.

Lemma split_nil (syllables : list jsstring) : split this [] syllables = syllables.
Proof. reflexivity. Qed.

(** [split] cuts the word into segments, in order, before the syllables
    it was given. *)
Lemma split_segments : forall (n : nat) (word : jsstring) (syllables : list jsstring),
  (length word <= n)%nat ->
  exists segs, split this word syllables = segs ++ syllables /\
    concat segs = word /\ Forall segment segs.
Proof using close_ok.
  induction n as [|n IH]; intros word syllables Hn.
  - destruct word; [|simpl in Hn; lia]. exists []. rewrite split_nil. auto.
  - destruct word as [|c w] eqn:Ew.
    { exists []. rewrite split_nil. auto. }
    rewrite <- Ew in *.
    assert (Hw : word <> []) by (rewrite Ew; discriminate).
    destruct (split_step _ Hw) as (rest & seg & E & Hseg & Hstep).
    assert (Hlen : (length rest <= n)%nat).
    { rewrite E, length_app in Hn. destruct Hseg as [Hne _].
      destruct seg; [contradiction | simpl in Hn; lia]. }
    destruct (IH rest (seg :: syllables) Hlen) as (segs & Hs & Hc & Hf).
    exists (segs ++ [seg]). rewrite Hstep, Hs. repeat split.
    + now rewrite <- app_assoc.
    + rewrite concat_app, Hc. simpl. now rewrite app_nil_r.
    + apply Forall_app. split; auto.
Qed.

Lemma split_spec (word : jsstring) :
  exists segs, split this word [] = segs /\ concat segs = word /\ Forall segment segs.
Proof using close_ok.
  destruct (split_segments _ word [] (le_n (length word))) as (segs & Hs & Hc & Hf).
  exists segs. rewrite Hs, app_nil_r. auto.
Qed.

End SplitFacts.

(* ===================================================================== *)
(** ** Facts about [join] *)
(* ===================================================================== *)

Section JoinFacts.

Import Syllabification.

Variable toLowerCase : jsstring -> jsstring.
Variable this : Self.

Lemma at_last {A} (a : list A) : a <> [] -> exists y, at_ a (-1) = Some y.
Proof.
  intros H. unfold at_. cbn [Z.ltb Z.compare].
  assert (0 < len a) by (unfold len; destruct a; [contradiction | simpl; lia]).
  destruct ((len a + -1 <? 0) || (len a <=? len a + -1)) eqn:E.
  - apply orb_true_iff in E as [E|E]; [apply Z.ltb_lt in E | apply Z.leb_le in E]; lia.
  - destruct (nth_error a (Z.to_nat (len a + -1))) as [y|] eqn:En; [now exists y|].
    apply nth_error_None in En. unfold len in *. lia.
Qed.

Lemma len_pos_nonempty {A} (a : list A) : (0 <? len a) = true -> a <> [].
Proof. intros H ->. discriminate. Qed.

Lemma len_zero_false {A} (a : list A) : (len a =? 0) = false -> a <> [].
Proof. intros H ->. discriminate. Qed.

Lemma flat_push (w : list jsstring) (x o : jsstring) (m : Z) :
  flat {| word := w ++ [x]; onset := o; media := m |} = concat w ++ x ++ o.
Proof. unfold flat. cbn. rewrite concat_app. cbn. now rewrite app_nil_r, app_assoc. Qed.

Lemma flat_cut (w : list jsstring) (o letter : jsstring) (k m : Z) :
  w <> [] ->
  flat {| word := appendLast w (slice o 0 k) ++ [sliceFrom o k ++ letter];
          onset := []; media := m |} = (concat w ++ o) ++ letter.
Proof.
  intros Hw. rewrite flat_push, appendLast_concat by exact Hw.
  rewrite app_nil_r, <- !app_assoc. f_equal. rewrite app_assoc.
  now rewrite slice_sliceFrom.
Qed.

(** A turn of the loop never throws, and adds the segment to what has
    been put together, unless the segment is the sentinel. *)
Lemma joinStep_flat (st : joinState) (letter : jsstring) :
  exists st', joinStep toLowerCase this st letter = Ok st' /\
    flat st' = flat st ++ (if eqb letter (js "_") then [] else letter).
Proof.
  unfold joinStep. destruct st as [w o m]. cbn [word onset media].
  destruct (eqb letter (js "_")) eqn:El.
  { destruct (0 <? len w) eqn:Ew; eexists; split; try reflexivity.
    - apply len_pos_nonempty in Ew. unfold flat. cbn [word onset].
      rewrite appendLast_concat by exact Ew. reflexivity.
    - now rewrite app_nil_r. }
  destruct (noVowel toLowerCase this letter).
  { destruct (endsWith o (js "y")).
    - destruct (eqb o (js "y")); [destruct (0 <? len w) eqn:Ew|].
      + pose proof (len_pos_nonempty _ Ew) as Hw.
        destruct (at_last _ Hw) as [y ->]. cbn [deref bind].
        eexists; split; [reflexivity|].
        destruct (includesAt _ _).
        * unfold flat. cbn [word onset]. now rewrite appendLast_concat.
        * unfold flat. cbn [word onset]. rewrite concat_app. cbn.
          now rewrite app_nil_r.
      + cbn [bind]. eexists; split; [reflexivity|].
        unfold flat. cbn [word onset]. rewrite concat_app. cbn. now rewrite app_nil_r.
      + cbn [bind]. eexists; split; [reflexivity|].
        unfold flat. cbn [word onset]. rewrite concat_app. cbn. now rewrite app_nil_r.
    - eexists; split; [reflexivity|].
      unfold flat. cbn [word onset]. now rewrite app_assoc. }
  destruct ((len o <=? 1) || (len w =? 0)) eqn:E1.
  { eexists; split; [reflexivity|]. rewrite flat_push. unfold flat. cbn [word onset].
    now rewrite app_nil_r, app_assoc. }
  apply orb_false_iff in E1 as [_ Hw]. apply len_zero_false in Hw.
  destruct (existsb _ (indivisibleOnset this)).
  { destruct (0 <? len w); eexists; (split; [reflexivity|]).
    - now apply flat_cut.
    - rewrite flat_push. unfold flat. cbn [word onset].
      now rewrite app_nil_r, app_assoc. }
  destruct (existsb _ indivisibleCoda && (2 <? len o)).
  { eexists; split; [reflexivity|]. now apply flat_cut. }
  destruct (pairing o); eexists; (split; [reflexivity|]); now apply flat_cut.
Qed.

Lemma visible_cons (seg : jsstring) (segs : list jsstring) :
  visible (seg :: segs) = (if eqb seg (js "_") then [] else seg) ++ visible segs.
Proof.
  unfold visible. cbn [filter].
  change (js "_") with [sentinel].
  destruct (eqb seg [sentinel]); reflexivity.
Qed.

Lemma joinLoop_flat (segs : list jsstring) : forall st,
  exists st', joinLoop toLowerCase this st segs = Ok st' /\
    flat st' = flat st ++ visible segs.
Proof.
  induction segs as [|letter segs IH]; intros st; cbn [joinLoop].
  - exists st. split; [reflexivity|]. unfold visible. cbn. now rewrite app_nil_r.
  - destruct (joinStep_flat st letter) as (st1 & -> & H1). cbn [bind].
    destruct (IH st1) as (st' & -> & H'). exists st'. split; [reflexivity|].
    now rewrite H', H1, visible_cons, app_assoc.
Qed.

Lemma joinTail_flat (st : joinState) : concat (joinTail st) = flat st.
Proof.
  unfold joinTail, flat. destruct st as [w o m]. cbn [word onset].
  destruct (eqb o []) eqn:Eo; cbn [negb].
  { apply eqb_eq in Eo. subst. now rewrite app_nil_r. }
  destruct (len w <? 1) eqn:Ew.
  { rewrite concat_app. cbn. now rewrite app_nil_r. }
  assert (Hw : w <> []) by (intros ->; discriminate).
  destruct (endsWith o (js "y") && (len o =? 1)).
  { now apply appendLast_concat. }
  destruct (endsWith o (js "y")).
  - rewrite concat_app, appendLast_concat by exact Hw. cbn.
    now rewrite app_nil_r, <- app_assoc, slice_sliceFrom.
  - now apply appendLast_concat.
Qed.

(** [join] never throws and regroups the segments, dropping the
    sentinels. *)
Lemma join_concat (segs : list jsstring) :
  exists syllables, join toLowerCase this segs = Ok syllables /\
    concat syllables = visible segs.
Proof.
  unfold join.
  destruct (joinLoop_flat segs {| word := []; onset := []; media := 0 |})
    as (st' & -> & H'). cbn [bind].
  eexists; split; [reflexivity|]. now rewrite joinTail_flat, H'.
Qed.

(** Sentinels only: nothing is put together. *)
Lemma join_sentinels (segs : list jsstring) :
  Forall (fun seg => seg = [sentinel]) segs -> join toLowerCase this segs = Ok [].
Proof.
  intros H. unfold join.
  assert (E : joinLoop toLowerCase this {| word := []; onset := []; media := 0 |} segs
              = Ok {| word := []; onset := []; media := 0 |}).
  { induction H as [|seg segs -> _ IH]; [reflexivity|].
    cbn [joinLoop]. unfold joinStep at 1. cbn [word onset media].
    change (eqb [sentinel] (js "_")) with true. cbn [len length Z.of_nat Z.ltb Z.compare bind].
    exact IH. }
  rewrite E. reflexivity.
Qed.

End JoinFacts.

(* ===================================================================== *)
(** ** Facts about code points, white space and [trim] *)
(* ===================================================================== *)

Section UnicodeFacts.

Import Syllabification.

Lemma isWhiteSpace_cases (c : N) :
  isWhiteSpace c = true ->
  In c [9; 10; 11; 12; 13; 32; 160; 5760; 8232; 8233; 8239; 8287; 12288; 65279]%N
  \/ (8192 <= c <= 8202)%N.
Proof.
  unfold isWhiteSpace. intros H. apply orb_true_iff in H as [H|H].
  - left. apply existsb_exists in H as (x & Hin & Hx).
    apply N.eqb_eq in Hx. now subst.
  - right. apply andb_true_iff in H as [H1 H2].
    apply N.leb_le in H1, H2. lia.
Qed.

Lemma latin1_not_space (c : N) :
  (c <? 256)%N = true -> latin1LN c = true -> isWhiteSpace c = false.
Proof.
  intros Hc Hl. destruct (isWhiteSpace c) eqn:E; [|reflexivity].
  apply isWhiteSpace_cases in E as [E|E].
  - cbn [In] in E.
    repeat (destruct E as [E|E]; [subst; vm_compute in Hl, Hc; discriminate|]).
    contradiction.
  - apply N.ltb_lt in Hc. lia.
Qed.

Lemma surrogate_not_space (c : N) :
  isHighSurrogate c || isLowSurrogate c = true -> isWhiteSpace c = false.
Proof.
  intros Hs. destruct (isWhiteSpace c) eqn:E; [|reflexivity].
  apply isWhiteSpace_cases in E as [E|E].
  - cbn [In] in E.
    repeat (destruct E as [E|E]; [subst; vm_compute in Hs; discriminate|]).
    contradiction.
  - unfold isHighSurrogate, isLowSurrogate in Hs.
    apply orb_true_iff in Hs as [Hs|Hs]; apply andb_true_iff in Hs as [H1 H2];
      apply N.leb_le in H1, H2; lia.
Qed.

Lemma arrayFrom_pair (h l : N) (t : jsstring) :
  arrayFrom (h :: l :: t) =
  if isHighSurrogate h && isLowSurrogate l
  then [h; l] :: arrayFrom t
  else [h] :: arrayFrom (l :: t).
Proof. reflexivity. Qed.

(** [Array.from] yields single code units and surrogate pairs, and loses
    nothing. *)
Lemma arrayFrom_spec : forall (n : nat) (s : jsstring),
  (length s <= n)%nat ->
  concat (arrayFrom s) = s /\
  Forall (fun x => (exists u, x = [u]) \/
                   (exists h l, x = [h; l] /\ isHighSurrogate h = true
                                /\ isLowSurrogate l = true)) (arrayFrom s).
Proof.
  induction n as [|n IH]; intros s Hn.
  - destruct s; [|simpl in Hn; lia]. split; [reflexivity | constructor].
  - destruct s as [|h [|l t]].
    + split; [reflexivity | constructor].
    + split; [reflexivity|]. constructor; [left; eauto | constructor].
    + rewrite arrayFrom_pair.
      destruct (isHighSurrogate h && isLowSurrogate l) eqn:E.
      * destruct (IH t) as [H1 H2]; [simpl in *; lia|].
        split; [cbn; now rewrite H1|].
        apply andb_true_iff in E as [Eh El].
        constructor; [right; eauto | exact H2].
      * destruct (IH (l :: t)) as [H1 H2]; [simpl in *; lia|].
        split; [cbn [concat app]; now rewrite H1|].
        constructor; [left; eauto | exact H2].
Qed.

Lemma arrayFrom_concat (s : jsstring) : concat (arrayFrom s) = s.
Proof. exact (proj1 (arrayFrom_spec _ s (le_n _))). Qed.

Lemma arrayFrom_shape (s x : jsstring) :
  In x (arrayFrom s) ->
  (exists u, x = [u]) \/
  (exists h l, x = [h; l] /\ isHighSurrogate h = true /\ isLowSurrogate l = true).
Proof.
  intros H. pose proof (proj2 (arrayFrom_spec _ s (le_n _))) as HF.
  rewrite Forall_forall in HF. now apply HF.
Qed.

Lemma trimStart_id (s : jsstring) :
  Forall (fun c => isWhiteSpace c = false) s -> trimStart s = s.
Proof.
  intros H. destruct H as [|c s Hc Hs]; [reflexivity|].
  cbn. now rewrite Hc.
Qed.

Lemma trim_id (s : jsstring) :
  Forall (fun c => isWhiteSpace c = false) s -> trim s = s.
Proof.
  intros H. unfold trim. rewrite (trimStart_id _ H).
  rewrite trimStart_id; [apply rev_involutive|].
  apply Forall_forall. intros c Hc. apply in_rev in Hc.
  rewrite Forall_forall in H. auto.
Qed.

(** [trim] removes code units at both ends, and nothing else. *)
Lemma trimStart_incl (s : jsstring) (c : N) : In c (trimStart s) -> In c s.
Proof.
  induction s as [|d s IH]; cbn; [auto|].
  destruct (isWhiteSpace d); [right; auto | auto].
Qed.

Lemma trim_incl (s : jsstring) (c : N) : In c (trim s) -> In c s.
Proof.
  unfold trim. intros H. apply in_rev in H.
  apply trimStart_incl in H. apply in_rev in H. now apply trimStart_incl in H.
Qed.

Variable unicodeLN : N -> bool.

Lemma stripNonWord_incl (w : jsstring) (c : N) :
  In c (stripNonWord unicodeLN w) -> In c w.
Proof.
  unfold stripNonWord. intros H. apply in_concat in H as (x & Hx & Hc).
  apply filter_In in Hx as [Hx _].
  rewrite <- (arrayFrom_concat w). apply in_concat. eauto.
Qed.

Lemma foldForeign_units (w : jsstring) (c : N) :
  In c (foldForeign w) -> In c w \/ In c (js "aeioufl").
Proof.
  unfold foldForeign. intros H. apply in_concat in H as (y & Hy & Hc).
  apply in_map_iff in Hy as (x & <- & Hx).
  destruct (lookup x foreignLig) as [v|] eqn:E.
  - right. revert E. unfold foreignLig. cbn [lookup].
    repeat match goal with
           | |- (if ?b then _ else _) = _ -> _ =>
             destruct b;
             [intros E; injection E as <-; vm_compute in Hc |- *;
              in_cases Hc; in_solve|]
           end.
    discriminate.
  - left. rewrite <- (arrayFrom_concat w). apply in_concat. eauto.
Qed.

Hypothesis unicodeLN_spaceless : spaceless unicodeLN.

Lemma stripNonWord_spaceless (w : jsstring) :
  Forall (fun c => isWhiteSpace c = false) (stripNonWord unicodeLN w).
Proof using unicodeLN_spaceless.
  apply Forall_forall. intros c H.
  unfold stripNonWord in H. apply in_concat in H as (x & Hx & Hc).
  apply filter_In in Hx as [Hx Hp].
  destruct (arrayFrom_shape _ _ Hx) as [[u ->]|(hi & lo & -> & Hh & Hl)].
  - destruct Hc as [<-|[]]. cbn [codePoint] in Hp.
    apply orb_true_iff in Hp as [Hp|Hp].
    + unfold isLN in Hp. destruct (u <? 256)%N eqn:Eu.
      * now apply latin1_not_space.
      * destruct (isWhiteSpace u) eqn:Ew; [|reflexivity].
        rewrite (unicodeLN_spaceless _ Ew) in Hp. discriminate.
    + apply eqb_eq in Hp. injection Hp as ->. reflexivity.
  - apply surrogate_not_space.
    destruct Hc as [<-|[<-|[]]]; [rewrite Hh | rewrite Hl, orb_true_r]; reflexivity.
Qed.

Lemma normalize_spaceless (w : jsstring) :
  Forall (fun c => isWhiteSpace c = false) (normalize unicodeLN w).
Proof using unicodeLN_spaceless.
  apply Forall_forall. intros c H. unfold normalize in H.
  apply foldForeign_units in H as [H|H].
  - pose proof (stripNonWord_spaceless w) as HF.
    rewrite Forall_forall in HF. auto.
  - vm_compute in H.
    repeat (destruct H as [H|H]; [subst; reflexivity|]). contradiction.
Qed.

End UnicodeFacts.

(* ===================================================================== *)
(** ** Facts about [syllabify], [latin] and [stressedSyllable] *)
(* ===================================================================== *)

Section PipelineFacts.

Import Syllabification.

Variable unicodeLN : N -> bool.
Variable toLowerCase : jsstring -> jsstring.
Variable EXCEPTIONS_LIST : list (jsstring -> jsstring).

Lemma init_closeOk (ipa h tl hiatus : bool) : closeOk (init ipa h tl hiatus).
Proof.
  intros c Hc. destruct ipa; vm_compute in Hc |- *;
    repeat (destruct Hc as [Hc|Hc]; [subst; intuition discriminate|]);
    contradiction.
Qed.

Lemma unmark_app (a b : jsstring) : unmark (a ++ b) = unmark a ++ unmark b.
Proof. apply filter_app. Qed.

Lemma unmark_free (s : jsstring) : ~ In sentinel s -> unmark s = s.
Proof.
  induction s as [|c s IH]; intros H; [reflexivity|].
  unfold unmark in *. cbn [filter].
  destruct (c =? sentinel)%N eqn:E.
  - apply N.eqb_eq in E. subst. exfalso. apply H. now left.
  - cbn [negb]. rewrite IH; [reflexivity|]. intros Hin. apply H. now right.
Qed.

Lemma unmark_no_sentinel (s : jsstring) : ~ In sentinel (unmark s).
Proof.
  unfold unmark. intros H. apply filter_In in H as [_ H].
  now rewrite N.eqb_refl in H.
Qed.

Lemma visible_unmark (segs : list jsstring) :
  Forall segment segs -> visible segs = unmark (concat segs).
Proof.
  induction 1 as [|seg segs [Hne Hseg] _ IH]; [reflexivity|].
  rewrite visible_cons. cbn [concat]. rewrite unmark_app, IH. f_equal.
  change (js "_") with [sentinel].
  destruct Hseg as [->|Hfree]; [reflexivity|].
  rewrite unmark_free by exact Hfree.
  destruct (eqb seg [sentinel]) eqn:E; [|reflexivity].
  apply eqb_eq in E. subst. exfalso. apply Hfree. now left.
Qed.

(** The string branch of [syllabify]: the syllables before [trim]
    regroup the normalized word, sentinels left out. *)
Lemma syllabify_Str (this : Self) (w : jsstring) :
  closeOk this ->
  exists raw, syllabify unicodeLN toLowerCase this (Str w) = Ok (map trim raw) /\
    concat raw = unmark (normalize unicodeLN w).
Proof.
  intros Hc. unfold syllabify. cbv zeta.
  destruct (split_spec this Hc (foldForeign (stripNonWord unicodeLN w)))
    as (segs & -> & Hcat & Hseg).
  destruct (join_concat toLowerCase this segs) as (raw & -> & Hraw).
  exists raw. split; [reflexivity|].
  rewrite Hraw, visible_unmark by exact Hseg. now rewrite Hcat.
Qed.

Lemma concat_no_sentinel (l : list jsstring) :
  ~ In sentinel (concat l) -> Forall (fun s => ~ In sentinel s) l.
Proof.
  intros H. apply Forall_forall. intros s Hs Hin. apply H.
  apply in_concat. eauto.
Qed.

Lemma trimmed_no_sentinel (raw : list jsstring) :
  ~ In sentinel (concat raw) -> Forall (fun s => ~ In sentinel s) (map trim raw).
Proof.
  intros H. apply concat_no_sentinel in H. rewrite Forall_forall in *.
  intros s Hs. apply in_map_iff in Hs as (x & <- & Hx).
  intros Hin. apply trim_incl in Hin. now apply (H x).
Qed.

Lemma trimmed_spaceless (raw : list jsstring) :
  Forall (fun c => isWhiteSpace c = false) (concat raw) -> map trim raw = raw.
Proof.
  intros H. rewrite <- (map_id raw) at 2. apply map_ext_in.
  intros s Hs. apply trim_id. rewrite Forall_forall in *.
  intros c Hc. apply H. apply in_concat. eauto.
Qed.

(** *** Array accesses from the end *)

Lemma setNth_app (pre post : list jsstring) (s v : jsstring) :
  setNth (pre ++ s :: post) (length pre) v = pre ++ v :: post.
Proof. induction pre as [|x pre IH]; cbn; [reflexivity | now rewrite IH]. Qed.

Lemma nth_error_middle {A} (pre post : list A) (s : A) :
  nth_error (pre ++ s :: post) (length pre) = Some s.
Proof. induction pre as [|x pre IH]; cbn; [reflexivity | exact IH]. Qed.

Lemma fromEnd_decomp (a pre post : list jsstring) (s : jsstring) (k : Z) :
  a = pre ++ s :: post -> k = len post + 1 ->
  at_ a (- k) = Some s /\ fromEnd a k = Some s /\
  forall v, setFromEnd a k v = pre ++ v :: post.
Proof.
  intros -> ->.
  assert (Hl : len (pre ++ s :: post) - (len post + 1) = len pre).
  { rewrite len_app. unfold len. cbn [length]. lia. }
  pose proof (len_nonneg pre) as Hp. pose proof (len_nonneg post) as Hq.
  assert (Hn : Z.to_nat (len pre) = length pre) by (unfold len; lia).
  repeat split.
  - unfold at_.
    assert (E : (- (len post + 1) <? 0) = true) by (apply Z.ltb_lt; lia).
    rewrite E.
    replace (len (pre ++ s :: post) + - (len post + 1)) with (len pre) by lia.
    assert (E2 : (len pre <? 0) || (len (pre ++ s :: post) <=? len pre) = false).
    { apply orb_false_iff. split; [apply Z.ltb_ge; lia | apply Z.leb_gt; lia]. }
    rewrite E2, Hn. apply nth_error_middle.
  - unfold fromEnd. rewrite Hl.
    assert (E : (len pre <? 0) = false) by (apply Z.ltb_ge; lia).
    rewrite E, Hn. apply nth_error_middle.
  - intros v. unfold setFromEnd. rewrite Hl.
    assert (E : (len pre <? 0) = false) by (apply Z.ltb_ge; lia).
    rewrite E, Hn. apply setNth_app.
Qed.

Lemma last_three (a : list jsstring) :
  (3 <= length a)%nat -> exists pre x y z, a = pre ++ [x; y; z].
Proof.
  intros H. rewrite <- (rev_involutive a) in *.
  rewrite length_rev in H.
  destruct (rev a) as [|z [|y [|x r]]]; cbn [length] in H; try lia.
  exists (rev r), x, y, z. cbn [rev]. now rewrite <- !app_assoc.
Qed.

(** *** [latin] *)

Lemma accentuate_decomp (entries : list (jsstring * jsstring))
    (a pre post : list jsstring) (s : jsstring) (k : Z) :
  a = pre ++ s :: post -> k = len post + 1 ->
  accentuate entries a k = Ok (pre ++ accentWith entries s :: post).
Proof.
  intros Ha Hk. destruct (fromEnd_decomp a pre post s k Ha Hk) as (H1 & H2 & H3).
  induction entries as [|[clavis pretium] entries IH]; cbn [accentuate accentWith].
  - now rewrite Ha.
  - rewrite H1. cbn [deref bind].
    destruct (includes s clavis); [|exact IH].
    rewrite H2. cbn [deref bind]. now rewrite H3.
Qed.

(** The accent stage on three syllables or more. *)
Lemma latinStress_three (pre : list jsstring) (x y z : jsstring) :
  latinStress (pre ++ [x; y; z]) =
  Ok (if longa y then pre ++ [x; accentWith dictionarium y; z]
      else if longa x then pre ++ [accentWith dictionarium x; y; z]
      else pre ++ [x; replace y (js "a") (js "á"); z]).
Proof.
  unfold latinStress.
  assert (Hl : len (pre ++ [x; y; z]) = len pre + 3).
  { rewrite len_app. reflexivity. }
  pose proof (len_nonneg pre) as Hp.
  assert (E1 : (1 <? len (pre ++ [x; y; z])) = true) by (apply Z.ltb_lt; lia).
  assert (E2 : (len (pre ++ [x; y; z]) =? 2) = false) by (apply Z.eqb_neq; lia).
  rewrite E1, E2.
  destruct (fromEnd_decomp (pre ++ [x; y; z]) (pre ++ [x]) [z] y 2) as (Hy1 & Hy2 & Hy3);
    [now rewrite <- app_assoc | reflexivity |].
  destruct (fromEnd_decomp (pre ++ [x; y; z]) pre [y; z] x 3) as (Hx1 & Hx2 & Hx3);
    [reflexivity | reflexivity |].
  change (-2) with (- (2)). rewrite Hy1. cbn [deref bind].
  destruct (longa y).
  - rewrite (accentuate_decomp dictionarium _ (pre ++ [x]) [z] y 2);
      [now rewrite <- app_assoc | now rewrite <- app_assoc | reflexivity].
  - change (-3) with (- (3)). rewrite Hx1. cbn [deref bind].
    destruct (longa x).
    + now rewrite (accentuate_decomp dictionarium _ pre [y; z] x 3).
    + unfold dictionarium at 1. rewrite Hy2. cbn [deref bind].
      rewrite Hy3. now rewrite <- app_assoc.
Qed.

(** The accent stage on two syllables. *)
Lemma latinStress_two (y z : jsstring) :
  latinStress [y; z] = Ok [accentWith dictionarium y; z].
Proof.
  unfold latinStress. cbn [len length Z.of_nat Pos.of_succ_nat Pos.succ Z.ltb Z.eqb
                            Z.compare Pos.compare Pos.compare_cont Pos.eqb bind].
  now rewrite (accentuate_decomp dictionarium [y; z] [] [z] y 2).
Qed.

Lemma latinStress_short (a : list jsstring) :
  (length a <= 1)%nat -> latinStress a = Ok a.
Proof.
  intros H. unfold latinStress.
  assert (E : (1 <? len a) = false) by (apply Z.ltb_ge; unfold len; lia).
  now rewrite E.
Qed.

Lemma accentWith_from (s : jsstring) : accentedFrom s (accentWith dictionarium s).
Proof.
  unfold dictionarium. cbn [accentWith].
  repeat match goal with
         | |- accentedFrom _ (if ?b then replace _ (js ?c) (js ?p) else _) =>
           destruct b; [right; eexists _, _; split; [|reflexivity]; cbn; in_solve|]
         end.
  now left.
Qed.

Lemma Forall2_refl_from (a : list jsstring) : Forall2 accentedFrom a a.
Proof. induction a; constructor; [now left | assumption]. Qed.

Lemma Forall2_middle (pre post : list jsstring) (s s' : jsstring) :
  accentedFrom s s' -> Forall2 accentedFrom (pre ++ s :: post) (pre ++ s' :: post).
Proof.
  intros H. apply Forall2_app; [apply Forall2_refl_from|].
  constructor; [exact H | apply Forall2_refl_from].
Qed.

(** The accent stage never throws, and changes one syllable at most, by
    one accent. *)
Lemma latinStress_shape (a : list jsstring) :
  exists r, latinStress a = Ok r /\ Forall2 accentedFrom a r.
Proof.
  destruct (Nat.le_gt_cases (length a) 1) as [H|H].
  { exists a. split; [now apply latinStress_short | apply Forall2_refl_from]. }
  destruct (Nat.eq_dec (length a) 2) as [H2|H2].
  { destruct a as [|y [|z [|]]]; try discriminate.
    eexists. split; [apply latinStress_two|].
    apply (Forall2_middle [] [z]). apply accentWith_from. }
  destruct (last_three a) as (pre & x & y & z & ->); [lia|].
  eexists. split; [apply latinStress_three|].
  destruct (longa y); [|destruct (longa x)].
  - pose proof (Forall2_middle (pre ++ [x]) [z] y _ (accentWith_from y)) as HF.
    now rewrite <- !app_assoc in HF.
  - apply Forall2_middle. apply accentWith_from.
  - assert (HF : Forall2 accentedFrom ((pre ++ [x]) ++ y :: [z])
                   ((pre ++ [x]) ++ replace y (js "a") (js "á") :: [z])).
    { apply Forall2_middle. right. eexists _, _. split; [|reflexivity]. cbn. in_solve. }
    now rewrite <- !app_assoc in HF.
Qed.

Lemma replace_unit (s : jsstring) (c p : N) :
  replace s [c] [p] =
  match s with
  | [] => []
  | d :: s' => if (c =? d)%N then p :: s' else d :: replace s' [c] [p]
  end.
Proof.
  destruct s as [|d s']; [reflexivity|].
  cbn [replace startsWith]. rewrite andb_true_r.
  destruct (c =? d)%N; reflexivity.
Qed.

Lemma replace_unit_map (f : N -> N) (s : jsstring) (c p : N) :
  f p = f c -> map f (replace s [c] [p]) = map f s.
Proof.
  intros Hf. induction s as [|d s IH]; rewrite replace_unit; [reflexivity|].
  destruct (c =? d)%N eqn:E.
  - apply N.eqb_eq in E. subst. cbn [map]. now rewrite Hf.
  - cbn [map]. now rewrite IH.
Qed.

Lemma replace_unit_in (s : jsstring) (c p x : N) :
  In x (replace s [c] [p]) -> In x s \/ x = p.
Proof.
  induction s as [|d s IH]; rewrite replace_unit; [intros []|].
  destruct (c =? d)%N; cbn [In].
  - intros [E|H]; [now right | left; now right].
  - intros [E|H]; [left; now left|].
    destruct (IH H); [left; now right | now right].
Qed.

Lemma dictionarium_units (c p : N) :
  In ([c], [p]) dictionarium -> unaccent p = unaccent c /\ p <> sentinel.
Proof.
  intros H. vm_compute in H.
  repeat (destruct H as [H|H]; [injection H as <- <-; split; [reflexivity | discriminate]|]).
  contradiction.
Qed.

Lemma accentedFrom_unaccent (s s' : jsstring) :
  accentedFrom s s' -> map unaccent s' = map unaccent s.
Proof.
  intros [->|(c & p & Hin & ->)]; [reflexivity|].
  apply replace_unit_map. now apply dictionarium_units.
Qed.

Lemma accentedFrom_no_sentinel (s s' : jsstring) :
  accentedFrom s s' -> ~ In sentinel s -> ~ In sentinel s'.
Proof.
  intros [->|(c & p & Hin & ->)] Hs; [exact Hs|].
  intros H. apply replace_unit_in in H as [H|H]; [contradiction|].
  apply dictionarium_units in Hin as [_ Hp]. congruence.
Qed.

Lemma Forall2_unaccent (a r : list jsstring) :
  Forall2 accentedFrom a r -> map unaccent (concat r) = map unaccent (concat a).
Proof.
  induction 1 as [|s s' a r Hs _ IH]; [reflexivity|].
  cbn [concat]. rewrite !map_app, IH. f_equal. now apply accentedFrom_unaccent.
Qed.

Lemma Forall2_no_sentinel (a r : list jsstring) :
  Forall2 accentedFrom a r ->
  Forall (fun s => ~ In sentinel s) a -> Forall (fun s => ~ In sentinel s) r.
Proof.
  induction 1 as [|s s' a r Hs _ IH]; intros HF; [constructor|].
  inversion HF; subst. constructor; [eapply accentedFrom_no_sentinel; eauto | auto].
Qed.

Lemma Forall2_len (a r : list jsstring) : Forall2 accentedFrom a r -> len r = len a.
Proof. intros H. unfold len. now rewrite (Forall2_length H). Qed.

(** *** [stressedSyllable] *)

Lemma firstAccented_bounds (a : list jsstring) : forall i j,
  firstAccented a i = Some j -> i <= j < i + len a.
Proof.
  induction a as [|s a IH]; intros i j; cbn [firstAccented]; [discriminate|].
  assert (Hl : len (s :: a) = len a + 1) by (unfold len; cbn [length]; lia).
  pose proof (len_nonneg a).
  destruct (accented s).
  - intros E. injection E as <-. lia.
  - intros E. apply IH in E. lia.
Qed.

(** [stressedSyllable] never throws; its result counts from the end of
    the syllables that there are. *)
Lemma stressedSyllable_range (a : list jsstring) :
  exists st, stressedSyllable a = Ok st /\
    (len a <= 1 -> st = -1) /\ (1 <= len a -> - len a <= st <= -1).
Proof.
  unfold stressedSyllable.
  destruct (len a =? 0) eqn:E0.
  { apply Z.eqb_eq in E0. exists (-1). repeat split; lia. }
  destruct (len a =? 1) eqn:E1.
  { apply Z.eqb_eq in E1. exists (-1). repeat split; lia. }
  apply Z.eqb_neq in E0, E1. pose proof (len_nonneg a) as Hn.
  destruct (accented (concat a)).
  { destruct (firstAccented a 0) as [j|] eqn:Ej.
    - apply firstAccented_bounds in Ej. exists (j - len a). repeat split; lia.
    - exists (-1). repeat split; lia. }
  assert (Ha : a <> []) by (intros ->; now apply E0).
  destruct (at_last a Ha) as [y ->]. cbn [deref bind].
  repeat match goal with
         | |- context [if ?b then _ else _] => destruct b
         end; eexists; (split; [reflexivity|]); lia.
Qed.

(** *** The constructor *)

(** One run of the constructor: the word that is split and joined, the
    accent stage when the Latin rules are applied, the stress. *)
Lemma new_run (w : jsstring) (exceptions : Z) (ipa h epen tl : bool) :
  exists raw syls st,
    concat raw
      = unmark (normalize unicodeLN
                  (marked toLowerCase EXCEPTIONS_LIST w exceptions epen)) /\
    (if latinFires toLowerCase EXCEPTIONS_LIST w exceptions epen
     then latinStress (map trim raw) = Ok syls
     else syls = map trim raw) /\
    stressedSyllable syls = Ok st /\
    new unicodeLN toLowerCase EXCEPTIONS_LIST w exceptions ipa h epen tl
      = Ok {| syllables := syls; stress := st |}.
Proof.
  unfold new, marked, latinFires, substituted. cbv zeta.
  set (pre := if epen then epenthesis w else w).
  destruct (0 <? exceptions) eqn:E; cbn [andb].
  - change (makeExceptions EXCEPTIONS_LIST (init false false false (1 <? exceptions)) pre)
      with (makeExceptions EXCEPTIONS_LIST (init ipa h tl (1 <? exceptions)) pre).
    set (this := init ipa h tl (1 <? exceptions)).
    set (w' := makeExceptions EXCEPTIONS_LIST this pre).
    unfold latin. cbv zeta.
    destruct (latinGuard (toLowerCase w')) eqn:G.
    + destruct (syllabify_Str this (latinMark (toLowerCase w')) (init_closeOk _ _ _ _))
        as (raw & -> & Hraw).
      destruct (latinStress_shape (map trim raw)) as (syls & Hs & _).
      destruct (stressedSyllable_range syls) as (st & Hst & _).
      exists raw, syls, st. cbn [bind]. rewrite Hs. cbn [bind syllabify].
      rewrite Hst. auto.
    + destruct (syllabify_Str this w' (init_closeOk _ _ _ _)) as (raw & Hsy & Hraw).
      destruct (stressedSyllable_range (map trim raw)) as (st & Hst & _).
      exists raw, (map trim raw), st. cbn [bind]. rewrite Hsy. cbn [bind].
      rewrite Hst. auto.
  - set (this := init ipa h tl false).
    destruct (syllabify_Str this pre (init_closeOk _ _ _ _)) as (raw & -> & Hraw).
    destruct (stressedSyllable_range (map trim raw)) as (st & Hst & _).
    exists raw, (map trim raw), st. cbn [bind]. rewrite Hst. auto.
Qed.

(** The constructor returns an object; no syllable holds a sentinel; the
    stress counts from the end of the syllables. *)
Lemma new_returns (w : jsstring) (exceptions : Z) (ipa h epen tl : bool) :
  exists r,
    new unicodeLN toLowerCase EXCEPTIONS_LIST w exceptions ipa h epen tl = Ok r /\
    Forall (fun s => ~ In sentinel s) (syllables r) /\
    (len (syllables r) <= 1 -> stress r = -1) /\
    (1 <= len (syllables r) -> - len (syllables r) <= stress r <= -1).
Proof.
  destruct (new_run w exceptions ipa h epen tl) as (raw & syls & st & Hraw & Hl & Hst & Hn).
  exists {| syllables := syls; stress := st |}. split; [exact Hn|].
  cbn [syllables stress].
  assert (Hfree : Forall (fun s => ~ In sentinel s) (map trim raw)).
  { apply trimmed_no_sentinel. rewrite Hraw. apply unmark_no_sentinel. }
  split.
  - destruct (latinFires _ _ _ _ _).
    + destruct (latinStress_shape (map trim raw)) as (r & Hr & HF).
      rewrite Hr in Hl. injection Hl as <-.
      now apply (Forall2_no_sentinel _ _ HF).
    + now subst.
  - destruct (stressedSyllable_range syls) as (st' & Hst' & H1 & H2).
    rewrite Hst in Hst'. injection Hst' as <-. auto.
Qed.

(** *** The Latin marking writes no accent *)

Lemma existsb_false {A} (f : A -> bool) (l : list A) :
  existsb f l = false -> forall x, In x l -> f x = false.
Proof.
  intros H x Hx. destruct (f x) eqn:E; [|reflexivity].
  assert (existsb f l = true) by (apply existsb_exists; eauto). congruence.
Qed.

Lemma in_skipn {A} (n : nat) (l : list A) (x : A) : In x (skipn n l) -> In x l.
Proof.
  intros H. rewrite <- (firstn_skipn n l). apply in_or_app. now right.
Qed.

Lemma replace_incl (s p r : jsstring) (x : N) :
  In x (replace s p r) -> In x s \/ In x r.
Proof.
  induction s as [|c s IH]; cbn [replace].
  - destruct (startsWith [] p); [|intros []].
    intros H. apply in_app_or in H as [H|H]; [now right|].
    apply in_skipn in H. now left.
  - destruct (startsWith (c :: s) p).
    + intros H. apply in_app_or in H as [H|H]; [now right|].
      apply in_skipn in H. now left.
    + intros [->|H]; [left; now left|].
      destruct (IH H); [left; now right | now right].
Qed.

Lemma replaceBeforeBoundary_incl (s p r : jsstring) (x : N) :
  In x (replaceBeforeBoundary s p r) -> In x s \/ In x r.
Proof.
  induction s as [|c s IH]; cbn [replaceBeforeBoundary].
  - destruct (startsWith [] p && _); [|intros []].
    intros H. apply in_app_or in H as [H|H]; [now right|].
    apply in_skipn in H. now left.
  - destruct (startsWith (c :: s) p && _).
    + intros H. apply in_app_or in H as [H|H]; [now right|].
      apply in_skipn in H. now left.
    + intros [->|H]; [left; now left|].
      destruct (IH H); [left; now right | now right].
Qed.

Lemma markFlexio_incl (fls : list jsstring) (w : jsstring) (x : N) :
  In x (markFlexio fls w) -> In x w \/ x = sentinel.
Proof.
  induction fls as [|flexio fls IH]; cbn [markFlexio]; [now left|].
  destruct (endsWith w flexio) eqn:E; [|exact IH].
  intros H. apply replaceBeforeBoundary_incl in H as [H|H]; [now left|].
  destruct H as [<-|H]; [now right|].
  left. apply endsWith_iff in E as (r & ->). apply in_or_app. now right.
Qed.

Lemma latinMark_incl (w : jsstring) (x : N) :
  In x (latinMark w) -> In x w \/ In x (js "_æœ").
Proof.
  unfold latinMark. cbv zeta. unfold diphthongi. cbn [fold_left fst snd].
  intros H.
  apply replace_incl in H as [H|H]; [|right; vm_compute in H |- *; in_cases H; in_solve].
  apply replace_incl in H as [H|H]; [|right; vm_compute in H |- *; in_cases H; in_solve].
  apply markFlexio_incl in H as [H| ->]; [now left | right; vm_compute; in_solve].
Qed.

Lemma latinGuard_plain (w : jsstring) (c : N) :
  latinGuard w = true -> In c (js "áéíóú") -> ~ In c w.
Proof.
  unfold latinGuard. intros H Hc. apply andb_true_iff in H as [_ H].
  apply negb_true_iff in H.
  apply includes_unit_false. apply (existsb_false _ _ H).
  vm_compute in Hc |- *.
  in_cases Hc; in_solve.
Qed.

Lemma unaccent_plain (c : N) : ~ In c (js "áéíóú") -> unaccent c = c.
Proof.
  intros H. unfold unaccent, dictionarium. cbn [map lookup fst snd].
  repeat match goal with
         | |- context [eqb [c] (js ?k)] =>
           let E := fresh "E" in
           destruct (eqb [c] (js k)) eqn:E;
           [apply eqb_eq in E; injection E as ->; exfalso; apply H; vm_compute; in_solve|]
         end.
  reflexivity.
Qed.

(** What is split and joined on the Latin path carries no accent. *)
Lemma latin_target_plain (w : jsstring) :
  latinGuard w = true ->
  map unaccent (unmark (normalize unicodeLN (latinMark w)))
  = unmark (normalize unicodeLN (latinMark w)).
Proof.
  intros G. set (t := unmark (normalize unicodeLN (latinMark w))).
  rewrite <- (map_id t) at 2. apply map_ext_in.
  intros x Hx. apply filter_In in Hx as [Hx _].
  apply unaccent_plain. intros Hacc.
  assert (Hfix : forall l : jsstring,
            forallb (fun y => negb (existsb (N.eqb y) (js "áéíóú"))) l = true ->
            In x l -> False).
  { intros l Hl Hin. rewrite forallb_forall in Hl. apply Hl in Hin.
    apply negb_true_iff in Hin.
    assert (existsb (N.eqb x) (js "áéíóú") = true); [|congruence].
    apply existsb_exists. exists x. split; [exact Hacc | apply N.eqb_refl]. }
  apply foldForeign_units in Hx as [Hx|Hx].
  - apply stripNonWord_incl in Hx. apply latinMark_incl in Hx as [Hx|Hx].
    + now apply (latinGuard_plain w x G).
    + now apply (Hfix (js "_æœ")).
  - now apply (Hfix (js "aeioufl")).
Qed.

(** The syllables regroup the word that was split and joined. *)
Lemma new_concat (w : jsstring) (exceptions : Z) (ipa h epen tl : bool) :
  spaceless unicodeLN ->
  exists r,
    new unicodeLN toLowerCase EXCEPTIONS_LIST w exceptions ipa h epen tl = Ok r /\
    let target :=
      unmark (normalize unicodeLN (marked toLowerCase EXCEPTIONS_LIST w exceptions epen)) in
    if latinFires toLowerCase EXCEPTIONS_LIST w exceptions epen
    then map unaccent (concat (syllables r)) = target
    else concat (syllables r) = target.
Proof.
  intros Hsp.
  destruct (new_run w exceptions ipa h epen tl) as (raw & syls & st & Hraw & Hl & Hst & Hn).
  exists {| syllables := syls; stress := st |}. split; [exact Hn|].
  cbn [syllables]. cbv zeta.
  assert (Htrim : map trim raw = raw).
  { apply trimmed_spaceless. rewrite Hraw.
    apply Forall_forall. intros c Hc. apply filter_In in Hc as [Hc _].
    pose proof (normalize_spaceless unicodeLN Hsp
                  (marked toLowerCase EXCEPTIONS_LIST w exceptions epen)) as HF.
    rewrite Forall_forall in HF. auto. }
  rewrite Htrim in Hl.
  destruct (latinFires toLowerCase EXCEPTIONS_LIST w exceptions epen) eqn:F.
  - destruct (latinStress_shape raw) as (r & Hr & HF).
    rewrite Hr in Hl. injection Hl as <-.
    rewrite (Forall2_unaccent _ _ HF), Hraw.
    unfold marked. rewrite F. apply latin_target_plain.
    unfold latinFires in F. now apply andb_true_iff in F as [_ F].
  - subst. exact Hraw.
Qed.

End PipelineFacts.

(* ===================================================================== *)
(** ** Facts about the stress cascade and the hiatus prefixes *)
(* ===================================================================== *)

Section CascadeFacts.

Lemma includes_existsb (s : jsstring) (c : N) :
  includes s [c] = existsb (N.eqb c) s.
Proof.
  induction s as [|d s IH]; [reflexivity|].
  cbn [includes startsWith existsb]. now rewrite andb_true_r, IH.
Qed.

Lemma at_from_end {A} (pre post : list A) (s : A) (k : Z) :
  k = len post + 1 -> at_ (pre ++ s :: post) (- k) = Some s.
Proof.
  intros ->. unfold at_.
  pose proof (len_nonneg pre) as Hp. pose proof (len_nonneg post) as Hq.
  assert (Hl : len (pre ++ s :: post) = len pre + len post + 1).
  { rewrite len_app. unfold len. cbn [length]. lia. }
  assert (E : (- (len post + 1) <? 0) = true) by (apply Z.ltb_lt; lia).
  rewrite E.
  replace (len (pre ++ s :: post) + - (len post + 1)) with (len pre) by lia.
  assert (E2 : (len pre <? 0) || (len (pre ++ s :: post) <=? len pre) = false).
  { apply orb_false_iff. split; [apply Z.ltb_ge; lia | apply Z.leb_gt; lia]. }
  rewrite E2.
  replace (Z.to_nat (len pre)) with (length pre) by (unfold len; lia).
  apply nth_error_middle.
Qed.

(** The last two code units of a string, through [at]. *)
Lemma at_ends (s : jsstring) :
  match rev s with
  | [] => at_ s (-1) = None /\ at_ s (-2) = None
  | [e] => at_ s (-1) = Some e /\ at_ s (-2) = None
  | e :: b :: _ => at_ s (-1) = Some e /\ at_ s (-2) = Some b
  end.
Proof.
  assert (Hs : s = rev (rev s)) by (symmetry; apply rev_involutive).
  destruct (rev s) as [|e [|b r]]; rewrite Hs;
    [split; reflexivity | split; reflexivity|].
  cbn [rev]. split.
  - apply (at_from_end (rev r ++ [b]) [] e 1 eq_refl).
  - rewrite <- app_assoc.
    apply (at_from_end (rev r) [e] b 2 eq_refl).
Qed.

Lemma slice_prefix (p r : jsstring) : slice (p ++ r) 0 (len p) = p.
Proof.
  pose proof (slice_sliceFrom (p ++ r) (len p)) as H.
  unfold slice, sliceFrom in *.
  assert (H0 : relIndex (len (p ++ r)) 0 = O).
  { unfold relIndex. simpl. pose proof (len_nonneg (p ++ r)).
    rewrite Z.min_l by lia. reflexivity. }
  assert (H1 : relIndex (len (p ++ r)) (len p) = length p).
  { unfold relIndex. pose proof (len_nonneg p). pose proof (len_nonneg r).
    rewrite len_app.
    destruct (len p <? 0) eqn:E; [apply Z.ltb_lt in E; lia|].
    rewrite Z.min_l by lia. unfold len. lia. }
  rewrite H0, H1 in *. cbn [skipn]. rewrite Nat.sub_0_r.
  rewrite firstn_app, firstn_all, Nat.sub_diag. cbn [firstn]. apply app_nil_r.
Qed.

(** *** The test of a long syllable *)

Lemma longa_ligature (s : jsstring) :
  existsb (fun dipht => includes s dipht)
    (Syllabification.values Syllabification.diphthongi) = true
  <-> exists c, In c (js "æœ") /\ In c s.
Proof.
  split.
  - intros H. apply existsb_exists in H as (d & Hd & Hi).
    cbn in Hd. in_cases Hd; apply includes_unit in Hi;
      eexists; (split; [|exact Hi]); vm_compute; in_solve.
  - intros (c & Hc & Hs). apply existsb_exists. exists [c]. split.
    + vm_compute in Hc |- *. in_cases Hc; in_solve.
    + now apply includes_unit.
Qed.

Lemma longa_vowels (s : jsstring) :
  (1 <? len (filter (fun x => includes s x)
               (Syllabification.keys Syllabification.dictionarium))) = true
  <-> exists v1 v2, vowelLetter v1 /\ vowelLetter v2 /\ v1 <> v2 /\ In v1 s /\ In v2 s.
Proof.
  unfold Syllabification.keys, Syllabification.dictionarium, vowelLetter.
  cbn [map fst filter].
  change (js "a") with [97%N]. change (js "e") with [101%N]. change (js "i") with [105%N].
  change (js "o") with [111%N]. change (js "u") with [117%N].
  change (js "aeiou") with [97; 101; 105; 111; 117]%N.
  split.
  - destruct (includes s [97%N]) eqn:Ha; destruct (includes s [101%N]) eqn:He;
      destruct (includes s [105%N]) eqn:Hi; destruct (includes s [111%N]) eqn:Ho;
      destruct (includes s [117%N]) eqn:Hu; intros H; try discriminate H;
      repeat match goal with
             | E : includes s [_] = true |- _ => apply includes_unit in E
             end;
      match goal with
      | H1 : In ?a s, H2 : In ?b s |- _ =>
        exists a, b;
        split; [in_solve|]; split; [in_solve|]; split; [discriminate|];
        split; assumption
      end.
  - intros (v1 & v2 & H1 & H2 & Hne & Hs1 & Hs2).
    apply includes_unit in Hs1, Hs2.
    cbn [In] in H1, H2. in_cases H1; in_cases H2; try congruence;
      rewrite Hs1, Hs2;
      repeat match goal with
             | |- context [includes s ?k] => destruct (includes s k)
             end; reflexivity.
Qed.

Lemma longa_ending (s : jsstring) :
  negb (existsb (fun x => endsWith s x)
          (Syllabification.keys Syllabification.dictionarium)) = true
  <-> ~ (exists v r, vowelLetter v /\ s = r ++ [v]).
Proof.
  rewrite negb_true_iff. split.
  - intros H (v & r & Hv & ->).
    assert (E : existsb (fun x => endsWith (r ++ [v]) x)
                  (Syllabification.keys Syllabification.dictionarium) = true);
      [|congruence].
    apply existsb_exists. exists [v]. split.
    + unfold vowelLetter in Hv. vm_compute in Hv |- *. in_cases Hv; in_solve.
    + apply endsWith_iff. now exists r.
  - intros H. destruct (existsb _ _) eqn:E; [|reflexivity].
    exfalso. apply H. apply existsb_exists in E as (k & Hk & He).
    apply endsWith_iff in He as (r & ->).
    cbn in Hk. in_cases Hk; eexists _, r; (split; [|reflexivity]);
      unfold vowelLetter; vm_compute; in_solve.
Qed.

(** The test of the program is the long syllable of the specification. *)
Lemma longa_iff (s : jsstring) : Syllabification.longa s = true <-> long s.
Proof.
  unfold Syllabification.longa, long.
  rewrite !orb_true_iff, longa_ligature, longa_vowels, longa_ending. tauto.
Qed.

Lemma longa_false_iff (s : jsstring) : Syllabification.longa s = false <-> ~ long s.
Proof.
  rewrite <- longa_iff. destruct (Syllabification.longa s); split; congruence.
Qed.

End CascadeFacts.

(* ===================================================================== *)
(** ** Words without letters *)
(* ===================================================================== *)

Section LetterlessFacts.

Import Syllabification.

Variable unicodeLN : N -> bool.
Variable toLowerCase : jsstring -> jsstring.

(** A code unit that is no surrogate is a code point of the word. *)
Lemma arrayFrom_unit (c : N) : forall (n : nat) (w : jsstring),
  (length w <= n)%nat -> In c w ->
  isHighSurrogate c = false -> isLowSurrogate c = false ->
  In [c] (arrayFrom w).
Proof.
  intros n. induction n as [|n IH]; intros w Hn Hin Hh Hl.
  - destruct w; [contradiction | simpl in Hn; lia].
  - destruct w as [|h0 [|l0 t]]; [contradiction | |].
    + destruct Hin as [->|[]]. now left.
    + rewrite arrayFrom_pair.
      destruct (isHighSurrogate h0 && isLowSurrogate l0) eqn:E.
      * apply andb_true_iff in E as [Eh El].
        destruct Hin as [->|[->|Hin]]; [congruence | congruence |].
        right. apply IH; auto. simpl in *. lia.
      * destruct Hin as [->|Hin]; [now left|].
        right. apply IH; auto. simpl in *. lia.
Qed.

Lemma letterless_latin1 (w : jsstring) (c : N) :
  letterless unicodeLN w -> In c w -> (c <? 256)%N = true -> latin1LN c = false.
Proof.
  intros Hw Hin Hc. unfold letterless in Hw. rewrite Forall_forall in Hw.
  assert (Hs : isHighSurrogate c = false /\ isLowSurrogate c = false).
  { apply N.ltb_lt in Hc. unfold isHighSurrogate, isLowSurrogate.
    split; apply andb_false_iff; left; apply N.leb_gt; lia. }
  destruct Hs as [Hh Hl].
  pose proof (Hw [c] (arrayFrom_unit c _ w (le_n _) Hin Hh Hl)) as H.
  cbn [codePoint] in H. unfold isLN in H. now rewrite Hc in H.
Qed.

(** A word without letters does not begin or end with a string that holds
    a letter of Latin-1. *)
Lemma letterless_no_prefix (w p : jsstring) (c : N) :
  letterless unicodeLN w -> In c p -> (c <? 256)%N = true -> latin1LN c = true ->
  startsWith w p = false.
Proof.
  intros Hw Hin Hc Hl. destruct (startsWith w p) eqn:E; [|reflexivity].
  apply startsWith_iff in E as (r & ->).
  assert (latin1LN c = false); [|congruence].
  apply (letterless_latin1 (p ++ r) c Hw); auto. apply in_or_app. now left.
Qed.

Lemma letterless_no_suffix (w p : jsstring) (c : N) :
  letterless unicodeLN w -> In c p -> (c <? 256)%N = true -> latin1LN c = true ->
  endsWith w p = false.
Proof.
  intros Hw Hin Hc Hl. destruct (endsWith w p) eqn:E; [|reflexivity].
  apply endsWith_iff in E as (r & ->).
  assert (latin1LN c = false); [|congruence].
  apply (letterless_latin1 (r ++ p) c Hw); auto. apply in_or_app. now right.
Qed.

Lemma existsb_all_false {A} (f : A -> bool) (l : list A) :
  (forall x, In x l -> f x = false) -> existsb f l = false.
Proof.
  intros H. destruct (existsb f l) eqn:E; [|reflexivity].
  apply existsb_exists in E as (x & Hx & Hf). rewrite (H x Hx) in Hf. discriminate.
Qed.

Lemma letterless_epenthesis (w : jsstring) :
  letterless unicodeLN w -> epenthesis w = w.
Proof.
  intros Hw. unfold epenthesis.
  rewrite existsb_all_false; [reflexivity|].
  intros onset Hin. apply (letterless_no_prefix w onset 115%N Hw); try reflexivity.
  cbn in Hin. in_cases Hin; vm_compute; in_solve.
Qed.

Lemma letterless_makeExceptions (rules : list (jsstring -> jsstring)) (this : Self)
    (w : jsstring) :
  Forall (fun exception => forall w, letterless unicodeLN w ->
                                     letterless unicodeLN (exception w)) rules ->
  letterless unicodeLN w -> letterless unicodeLN (makeExceptions rules this w).
Proof.
  intros Hrules Hw. unfold makeExceptions.
  assert (Hc : existsb (fun x => startsWith w x) (keys caparros) = false).
  { apply existsb_all_false. intros p Hin. cbn in Hin.
    in_cases Hin;
      [apply (letterless_no_prefix w _ 102%N Hw)
      |apply (letterless_no_prefix w _ 115%N Hw)
      |apply (letterless_no_prefix w _ 114%N Hw)]; try reflexivity;
      vm_compute; in_solve. }
  rewrite Hc, andb_false_r. clear Hc.
  revert w Hw. induction Hrules as [|rule rules Hr _ IH]; intros w Hw; [exact Hw|].
  cbn [fold_left]. apply IH. now apply Hr.
Qed.

Lemma letterless_latinGuard (w : jsstring) :
  letterless unicodeLN w -> latinGuard w = false.
Proof.
  intros Hw. unfold latinGuard.
  rewrite existsb_all_false; [reflexivity|].
  intros fl Hin. cbn in Hin.
  in_cases Hin;
    first [ solve [apply (letterless_no_suffix w _ 109%N Hw); try reflexivity;
                   vm_compute; in_solve]
          | solve [apply (letterless_no_suffix w _ 116%N Hw); try reflexivity;
                   vm_compute; in_solve] ].
Qed.

(** Of a word without letters, only sentinels are kept. *)
Lemma letterless_strip (w : jsstring) :
  letterless unicodeLN w -> Forall (fun c => c = sentinel) (stripNonWord unicodeLN w).
Proof.
  intros Hw. unfold letterless in Hw. rewrite Forall_forall in Hw.
  apply Forall_forall. intros c Hc. unfold stripNonWord in Hc.
  apply in_concat in Hc as (x & Hx & Hc). apply filter_In in Hx as [Hx Hp].
  rewrite (Hw x Hx) in Hp. cbn [orb] in Hp. apply eqb_eq in Hp. subst x.
  destruct Hc as [<-|[]]. reflexivity.
Qed.

Lemma sentinels_foldForeign (s : jsstring) :
  Forall (fun c => c = sentinel) s -> foldForeign s = s.
Proof.
  intros H. unfold foldForeign. induction H as [|c s -> Hs IH]; [reflexivity|].
  assert (E : arrayFrom (sentinel :: s) = [sentinel] :: arrayFrom s).
  { destruct s as [|d s]; [reflexivity|]. now rewrite arrayFrom_pair. }
  rewrite E. cbn [map concat]. rewrite IH. reflexivity.
Qed.

Lemma sentinels_split (this : Self) (s : jsstring) :
  closeOk this -> Forall (fun c => c = sentinel) s ->
  Forall (fun seg => seg = [sentinel]) (split this s []).
Proof.
  intros Hc Hs. destruct (split_spec this Hc s) as (segs & -> & Hcat & Hseg).
  rewrite Forall_forall in *. intros seg Hin.
  destruct (Hseg seg Hin) as [Hne [E|Hfree]]; [exact E|].
  exfalso. destruct seg as [|c seg]; [contradiction|].
  apply Hfree. left. apply Hs. rewrite <- Hcat.
  apply in_concat. exists (c :: seg). split; [exact Hin | now left].
Qed.

(** A word without letters has no syllable. *)
Lemma letterless_syllabify (this : Self) (w : jsstring) :
  closeOk this -> letterless unicodeLN w ->
  syllabify unicodeLN toLowerCase this (Str w) = Ok [].
Proof.
  intros Hc Hw. unfold syllabify. cbv zeta.
  pose proof (letterless_strip w Hw) as Hs.
  rewrite (sentinels_foldForeign _ Hs).
  rewrite (join_sentinels toLowerCase this _ (sentinels_split this _ Hc Hs)).
  reflexivity.
Qed.

Lemma letterless_new (rules : list (jsstring -> jsstring))
    (w : jsstring) (exceptions : Z) (ipa h epen tl : bool) :
  (forall w, letterless unicodeLN w -> letterless unicodeLN (toLowerCase w)) ->
  Forall (fun exception => forall w, letterless unicodeLN w ->
                                     letterless unicodeLN (exception w)) rules ->
  letterless unicodeLN w ->
  new unicodeLN toLowerCase rules w exceptions ipa h epen tl
  = Ok {| syllables := []; stress := -1 |}.
Proof.
  intros Hlow Hrules Hw. unfold new. cbv zeta.
  assert (Hpre : (if epen then epenthesis w else w) = w).
  { destruct epen; [now apply letterless_epenthesis | reflexivity]. }
  rewrite Hpre.
  destruct (0 <? exceptions).
  - set (this := init ipa h tl (1 <? exceptions)).
    pose proof (letterless_makeExceptions rules this w Hrules Hw) as Hw'.
    unfold latin. cbv zeta.
    rewrite (letterless_latinGuard _ (Hlow _ Hw')). cbn [bind].
    rewrite (letterless_syllabify this _ (init_closeOk _ _ _ _) Hw'). reflexivity.
  - rewrite (letterless_syllabify _ _ (init_closeOk _ _ _ _) Hw). reflexivity.
Qed.

End LetterlessFacts.

(* ===================================================================== *)
(** ** Facts about the accent that [latin] writes *)
(* ===================================================================== *)

Section AccentFacts.

Import Syllabification.

Variable unicodeLN : N -> bool.
Variable toLowerCase : jsstring -> jsstring.
Variable EXCEPTIONS_LIST : list (jsstring -> jsstring).

(** The accent stage changes one syllable at most. *)
Lemma latinStress_cases (a : list jsstring) :
  latinStress a = Ok a \/
  exists pre s post c p,
    a = pre ++ s :: post /\ In ([c], [p]) dictionarium /\
    latinStress a = Ok (pre ++ replace s [c] [p] :: post).
Proof.
  assert (Hmid : forall pre s s' post,
            accentedFrom s s' ->
            Ok (pre ++ s' :: post) = Ok (pre ++ s :: post) \/
            exists pre0 s0 post0 c p,
              pre ++ s :: post = pre0 ++ s0 :: post0 /\ In ([c], [p]) dictionarium /\
              @Ok (list jsstring) (pre ++ s' :: post)
              = Ok (pre0 ++ replace s0 [c] [p] :: post0)).
  { intros pre s s' post [->|(c & p & Hin & ->)]; [now left|].
    right. exists pre, s, post, c, p. auto. }
  destruct (Nat.le_gt_cases (length a) 1) as [H|H].
  { left. now apply latinStress_short. }
  destruct (Nat.eq_dec (length a) 2) as [H2|H2].
  { destruct a as [|y [|z [|]]]; try discriminate.
    rewrite latinStress_two. apply (Hmid [] y _ [z]). apply accentWith_from. }
  destruct (last_three a) as (pre & x & y & z & ->); [lia|].
  rewrite latinStress_three.
  destruct (longa y); [|destruct (longa x)].
  - pose proof (Hmid (pre ++ [x]) y _ [z] (accentWith_from y)) as HF.
    now rewrite <- !app_assoc in HF.
  - apply Hmid. apply accentWith_from.
  - assert (HF : accentedFrom y (replace y (js "a") (js "á"))).
    { right. eexists _, _. split; [|reflexivity]. cbn. in_solve. }
    pose proof (Hmid (pre ++ [x]) y _ [z] HF) as HF'.
    now rewrite <- !app_assoc in HF'.
Qed.

(** The first occurrence of a code unit, replaced. *)
Lemma replace_unit_split (s : jsstring) (c p : N) :
  In c s ->
  exists s1 s2, s = s1 ++ c :: s2 /\ ~ In c s1 /\ replace s [c] [p] = s1 ++ p :: s2.
Proof.
  induction s as [|d s IH]; [intros []|]. rewrite replace_unit.
  destruct (c =? d)%N eqn:E.
  - apply N.eqb_eq in E. subst d. intros _. exists [], s. auto.
  - apply N.eqb_neq in E. intros [->|H]; [congruence|].
    destruct (IH H) as (s1 & s2 & Hs & Hn & Hr).
    exists (d :: s1), s2. rewrite Hr. rewrite Hs at 1.
    repeat split; auto. intros [->|Hin]; auto.
Qed.

Lemma replace_unit_miss (s : jsstring) (c p : N) :
  ~ In c s -> replace s [c] [p] = s.
Proof.
  induction s as [|d s IH]; rewrite replace_unit; [reflexivity|].
  intros H. destruct (c =? d)%N eqn:E.
  - apply N.eqb_eq in E. subst d. destruct H. now left.
  - rewrite IH; [reflexivity|]. intros Hin. apply H. now right.
Qed.

(** [accentWith] on a table of single letters: the first entry whose
    letter is in the syllable is applied, to the first occurrence of the
    letter; without such an entry the syllable is left as it is. *)
Lemma accentWith_first (entries : list (jsstring * jsstring)) (s : jsstring) :
  (forall k v, In (k, v) entries -> exists c p, k = [c] /\ v = [p]) ->
  (exists before c p after s1 s2,
     entries = before ++ ([c], [p]) :: after /\
     (forall d q, In ([d], [q]) before -> ~ In d s) /\
     s = s1 ++ c :: s2 /\ ~ In c s1 /\ accentWith entries s = s1 ++ p :: s2)
  \/ ((forall d q, In ([d], [q]) entries -> ~ In d s) /\ accentWith entries s = s).
Proof.
  induction entries as [|[k v] entries IH]; intros Hu.
  - right. split; [intros d q [] | reflexivity].
  - destruct (Hu k v (or_introl eq_refl)) as (c & p & -> & ->).
    cbn [accentWith]. destruct (includes s [c]) eqn:E.
    + left. apply includes_unit in E.
      destruct (replace_unit_split s c p E) as (s1 & s2 & Hs & Hn & Hr).
      exists [], c, p, entries, s1, s2. repeat split; auto; intros d q [].
    + apply includes_unit_false in E.
      assert (Hu' : forall k v, In (k, v) entries -> exists c p, k = [c] /\ v = [p]).
      { intros k v H. apply Hu. now right. }
      destruct (IH Hu') as [(before & c' & p' & after & s1 & s2 & He & Hb & Hs & Hn & Hr)
                           |[Hnone Hr]].
      * left. exists (([c], [p]) :: before), c', p', after, s1, s2.
        repeat split; auto.
        -- now rewrite He.
        -- intros d q [H|H]; [injection H as <- <-; exact E | now apply (Hb d q)].
      * right. split; [|exact Hr].
        intros d q [H|H]; [injection H as <- <-; exact E | now apply (Hnone d q)].
Qed.

Lemma dictionarium_vowel (c p : N) :
  In ([c], [p]) dictionarium -> vowelLetter c.
Proof.
  intros H. vm_compute in H. in_cases H;
    match goal with H : _ = _ |- _ => injection H as <- <- end;
    vm_compute; in_solve.
Qed.

Lemma vowel_dictionarium (v : N) :
  vowelLetter v -> exists q, In ([v], [q]) dictionarium.
Proof.
  intros H. vm_compute in H. in_cases H; eexists; vm_compute; in_solve.
Qed.

(** The accent on a chosen syllable: written when the syllable has one of
    the five vowel letters, and only then. *)
Lemma accentWith_spec (s : jsstring) :
  (hasVowelLetter s -> accentOn s (accentWith dictionarium s)) /\
  (~ hasVowelLetter s -> accentWith dictionarium s = s).
Proof.
  assert (Hu : forall k v, In (k, v) dictionarium -> exists c p, k = [c] /\ v = [p]).
  { intros k v H. vm_compute in H. in_cases H;
      match goal with H : _ = _ |- _ => injection H as <- <- end; eauto. }
  destruct (accentWith_first dictionarium s Hu)
    as [(before & c & p & after & s1 & s2 & He & Hb & Hs & Hn & Hr)|[Hnone Hr]].
  - split.
    + intros _. exists before, c, p, after, s1, s2. auto.
    + intros H. destruct H. exists c. split.
      * apply (dictionarium_vowel c p). rewrite He. apply in_or_app. right. now left.
      * rewrite Hs. apply in_or_app. right. now left.
  - split; [|intros _; exact Hr].
    intros (v & Hv & Hin). destruct (vowel_dictionarium v Hv) as (q & Hq).
    now destruct (Hnone v q Hq).
Qed.

(** The concatenation, with the accent of the Latin rules. *)
Lemma new_concat_accent (w : jsstring) (exceptions : Z) (ipa h epen tl : bool) :
  spaceless unicodeLN ->
  exists r,
    new unicodeLN toLowerCase EXCEPTIONS_LIST w exceptions ipa h epen tl = Ok r /\
    let target :=
      unmark (normalize unicodeLN (marked toLowerCase EXCEPTIONS_LIST w exceptions epen)) in
    if latinFires toLowerCase EXCEPTIONS_LIST w exceptions epen
    then oneAccent target (concat (syllables r))
    else concat (syllables r) = target.
Proof.
  intros Hsp.
  destruct (new_run unicodeLN toLowerCase EXCEPTIONS_LIST w exceptions ipa h epen tl)
    as (raw & syls & st & Hraw & Hl & Hst & Hn).
  exists {| syllables := syls; stress := st |}. split; [exact Hn|].
  cbn [syllables]. cbv zeta.
  assert (Htrim : map trim raw = raw).
  { apply trimmed_spaceless. rewrite Hraw.
    apply Forall_forall. intros c Hc. apply filter_In in Hc as [Hc _].
    pose proof (normalize_spaceless unicodeLN Hsp
                  (marked toLowerCase EXCEPTIONS_LIST w exceptions epen)) as HF.
    rewrite Forall_forall in HF. auto. }
  rewrite Htrim in Hl.
  destruct (latinFires toLowerCase EXCEPTIONS_LIST w exceptions epen) eqn:F.
  - rewrite <- Hraw.
    destruct (latinStress_cases raw) as [H|(pre & s & post & c & p & E & Hin & H)];
      rewrite H in Hl; injection Hl as <-.
    + now left.
    + destruct (in_dec N.eq_dec c s) as [Hc|Hc].
      * destruct (replace_unit_split s c p Hc) as (s1 & s2 & Hs & _ & Hr).
        right. exists (concat pre ++ s1), (s2 ++ concat post), c, p.
        split; [exact Hin|]. rewrite E, Hr, !concat_app. cbn [concat].
        rewrite Hs at 1. rewrite <- !app_assoc. cbn [app]. auto.
      * left. rewrite (replace_unit_miss s c p Hc). now rewrite E.
  - subst. exact Hraw.
Qed.

End AccentFacts.

(* ===================================================================== *)
(** ** Facts about the call stack of [split] *)
(* ===================================================================== *)

Section StackFacts.

Import Syllabification.

Variable unicodeLN : N -> bool.
Variable toLowerCase : jsstring -> jsstring.
Variable EXCEPTIONS_LIST : list (jsstring -> jsstring).
Variable this : Self.

(** One call of [split]: it returns the syllables, on the empty word, or
    it calls [split] on a shorter word, and the call takes one frame. *)
Lemma split_call (word : jsstring) :
  ((forall syllables, split this word syllables = syllables) /\
   (forall frames syllables, Stack.split (S frames) this word syllables = Ok syllables))
  \/ exists rest seg,
       (length rest < length word)%nat /\
       (forall syllables, split this word syllables = split this rest (seg :: syllables)) /\
       (forall frames syllables,
          Stack.split (S frames) this word syllables
          = Stack.split frames this rest (seg :: syllables)).
Proof.
  destruct (matchEnd (diphthongPattern this) word) as [m|] eqn:Em.
  - right. exists (slice word 0 (- len (dropGQ m))), (dropGQ m).
    assert (Hw : word <> []).
    { intros ->. rewrite diphthong_nonempty in Em. discriminate. }
    split; [|split].
    + apply split_rec_shrinks; auto. pose proof (len_nonneg (dropGQ m)). lia.
    + intros syllables. rewrite (split_unfold this word syllables), Em. reflexivity.
    + intros frames syllables. cbn [Stack.split]. rewrite Em. reflexivity.
  - destruct (existsb (fun d => endsWith word d) digraph) eqn:Ed.
    + right. exists (slice word 0 (-2)), (sliceFrom word (-2)).
      assert (Hw : word <> []) by (intros ->; discriminate).
      split; [|split].
      * apply split_rec_shrinks; auto. lia.
      * intros syllables. rewrite (split_unfold this word syllables), Em, Ed. reflexivity.
      * intros frames syllables. cbn [Stack.split]. rewrite Em, Ed. reflexivity.
    + destruct (eqb word []) eqn:Ee.
      * left. split.
        -- intros syllables. rewrite (split_unfold this word syllables), Em, Ed, Ee.
           reflexivity.
        -- intros frames syllables. cbn [Stack.split]. rewrite Em, Ed, Ee. reflexivity.
      * right. exists (slice word 0 (-1)), (sliceFrom word (-1)).
        apply eqb_neq in Ee as Hw.
        split; [|split].
        -- apply split_rec_shrinks; auto. lia.
        -- intros syllables. rewrite (split_unfold this word syllables), Em, Ed, Ee.
           reflexivity.
        -- intros frames syllables. cbn [Stack.split]. rewrite Em, Ed, Ee. reflexivity.
Qed.

(** The syllables that [split] is given stay behind the segments. *)
Lemma split_acc (word : jsstring) (syllables : list jsstring) :
  split this word syllables = split this word [] ++ syllables.
Proof.
  remember (S (length word)) as n eqn:Hn.
  assert (H : (length word < n)%nat) by lia. clear Hn.
  revert word syllables H.
  induction n as [|n IH]; intros word syllables H; [lia|].
  destruct (split_call word) as [[H1 _]|(rest & seg & Hl & H1 & _)].
  - now rewrite !H1.
  - rewrite (H1 syllables), (H1 []).
    rewrite (IH rest (seg :: syllables)), (IH rest [seg]) by lia.
    now rewrite <- app_assoc.
Qed.

(** [split] with a stack: the calls are one more than the segments. *)
Lemma stack_split : forall (frames : nat) (word : jsstring) (syllables : list jsstring),
  Stack.split frames this word syllables =
  if (length (split this word []) <? frames)%nat
  then Ok (split this word syllables)
  else Throw RangeError.
Proof.
  induction frames as [|frames IH]; intros word syllables; [reflexivity|].
  destruct (split_call word) as [[H1 H2]|(rest & seg & Hl & H1 & H2)].
  - rewrite H2, !H1. reflexivity.
  - rewrite H2, IH, (H1 syllables), (H1 []), (split_acc rest [seg]), length_app.
    cbn [length].
    destruct (Nat.ltb_spec (length (split this rest [])) frames);
      destruct (Nat.ltb_spec (length (split this rest []) + 1) (S frames));
      try lia; reflexivity.
Qed.

Lemma stack_syllabify (frames : nat) (w : jsstring) :
  Stack.syllabify unicodeLN toLowerCase frames this (Str w) =
  if (length (split this (normalize unicodeLN w) []) <? frames)%nat
  then syllabify unicodeLN toLowerCase this (Str w)
  else Throw RangeError.
Proof.
  unfold Stack.syllabify, syllabify, normalize. cbv zeta. rewrite stack_split.
  destruct (_ <? _)%nat; reflexivity.
Qed.

(** The segments are not more than the code units. *)
Lemma split_count (word : jsstring) :
  closeOk this -> (length (split this word []) <= length word)%nat.
Proof.
  intros Hc. destruct (split_spec this Hc word) as (segs & -> & <- & HF).
  induction HF as [|seg segs [Hne _] _ IH]; [apply le_n|].
  cbn [concat length]. rewrite length_app.
  destruct seg; [contradiction | cbn [length]; lia].
Qed.

End StackFacts.

Section StackConstructor.

Import Syllabification.

Variable unicodeLN : N -> bool.
Variable toLowerCase : jsstring -> jsstring.
Variable EXCEPTIONS_LIST : list (jsstring -> jsstring).

(** The constructor with a stack: it is the constructor when the stack
    has room for the calls of [split], and a [RangeError] otherwise. *)
Lemma stack_new (frames : nat) (w : jsstring) (exceptions : Z) (ipa h epen tl : bool) :
  Stack.new unicodeLN toLowerCase EXCEPTIONS_LIST frames w exceptions ipa h epen tl =
  if Nat.ltb
       (length (split (init ipa h tl (1 <? exceptions))
                  (normalize unicodeLN (marked toLowerCase EXCEPTIONS_LIST w exceptions epen))
                  []))
       frames
  then new unicodeLN toLowerCase EXCEPTIONS_LIST w exceptions ipa h epen tl
  else Throw RangeError.
Proof.
  unfold Stack.new, new, marked, latinFires, substituted. cbv zeta.
  set (pre := if epen then epenthesis w else w).
  destruct (0 <? exceptions) eqn:E; cbn [andb].
  - change (makeExceptions EXCEPTIONS_LIST (init false false false (1 <? exceptions)) pre)
      with (makeExceptions EXCEPTIONS_LIST (init ipa h tl (1 <? exceptions)) pre).
    set (this := init ipa h tl (1 <? exceptions)).
    set (w' := makeExceptions EXCEPTIONS_LIST this pre).
    unfold Stack.latin, latin. cbv zeta.
    destruct (latinGuard (toLowerCase w')) eqn:G.
    + rewrite stack_syllabify.
      destruct (_ <? _)%nat; [|reflexivity].
      destruct (syllabify unicodeLN toLowerCase this (Str (latinMark (toLowerCase w'))))
        as [syls|e]; [|reflexivity].
      cbn [bind]. destruct (latinStress syls); reflexivity.
    + cbn [bind]. rewrite stack_syllabify.
      destruct (_ <? _)%nat; reflexivity.
  - assert (E1 : (1 <? exceptions) = false).
    { apply Z.ltb_ge. apply Z.ltb_ge in E. lia. }
    rewrite E1. rewrite stack_syllabify.
    destruct (_ <? _)%nat; reflexivity.
Qed.

End StackConstructor.

(* ===================================================================== *)
(** ** The properties of the specification *)
(* ===================================================================== *)

Section Properties.

Import Syllabification (syllables, stress).

Variable unicodeLN : N -> bool.
Variable toLowerCase : jsstring -> jsstring.
Variable EXCEPTIONS_LIST : list (jsstring -> jsstring).

(** C1, as amended.  Concatenating the syllables that [syllabify] returns
    gives the normalized word with its sentinels removed, where the
    normalized word is the input after epenthesis, exception substitution
    and Latin marking (lowercase, sentinel before the ending, ligatures),
    after stripping what is not a letter, a number or the sentinel, and
    after folding the foreign letters and ligatures of [foreignLig]; on
    the Latin path the equality holds up to one accent: the concatenation
    is that word, or that word with one of its vowel letters replaced by
    the accented letter.  It is assumed of the engine that no white space
    is a letter or a number. *)
Theorem concatenation_invariant :
  spaceless unicodeLN ->
  forall (w : jsstring) (exceptions : Z) (ipa h epen tl : bool),
  exists syls,
    syllabify unicodeLN toLowerCase EXCEPTIONS_LIST w exceptions ipa h epen tl = Ok syls /\
    let target :=
      unmark (normalize unicodeLN (marked toLowerCase EXCEPTIONS_LIST w exceptions epen)) in
    if latinFires toLowerCase EXCEPTIONS_LIST w exceptions epen
    then oneAccent target (concat syls)
    else concat syls = target.
Proof.
  intros Hsp w exceptions ipa h epen tl.
  destruct (new_concat_accent unicodeLN toLowerCase EXCEPTIONS_LIST w exceptions
              ipa h epen tl Hsp)
    as (r & Hr & H).
  exists (syllables r). unfold syllabify. rewrite Hr. split; [reflexivity | exact H].
Qed.

(** C2.  The stress index lies in [[-N, -1]], where [N] is the number of
    syllables, from one syllable on, and it is [-1] when [N <= 1], the
    empty sequence included. *)
Theorem stress_range (w : jsstring) (exceptions : Z) (ipa h epen tl : bool) :
  exists r,
    Syllabification.new unicodeLN toLowerCase EXCEPTIONS_LIST w exceptions ipa h epen tl = Ok r /\
    tonica unicodeLN toLowerCase EXCEPTIONS_LIST w exceptions ipa h epen tl
      = Ok (stress r) /\
    (1 <= len (syllables r) -> - len (syllables r) <= stress r <= -1) /\
    (len (syllables r) <= 1 -> stress r = -1).
Proof.
  destruct (new_returns unicodeLN toLowerCase EXCEPTIONS_LIST w exceptions ipa h epen tl)
    as (r & Hr & _ & H1 & H2).
  exists r. unfold tonica. rewrite Hr. auto.
Qed.

(** C10.  No syllable that is returned holds the sentinel. *)
Theorem no_sentinel_in_syllables (w : jsstring) (exceptions : Z) (ipa h epen tl : bool) :
  exists syls,
    syllabify unicodeLN toLowerCase EXCEPTIONS_LIST w exceptions ipa h epen tl = Ok syls /\
    Forall (fun s => ~ In sentinel s) syls.
Proof.
  destruct (new_returns unicodeLN toLowerCase EXCEPTIONS_LIST w exceptions ipa h epen tl)
    as (r & Hr & H & _).
  exists (syllables r). unfold syllabify. rewrite Hr. auto.
Qed.

(** C3, as amended.  The Latin rules are run after the exception
    substitution when the exception level is positive, and only then: with
    a positive level, a word whose substituted, lowercased form passes the
    guard (a Latin ending, no accent mark) is segmented with the Latin
    marking and gets the Latin accent; with level 0 the word is segmented
    as it is, whether or not it passes the guard. *)
Theorem latin_fallback_gated (w : jsstring) (exceptions : Z) (ipa h epen tl : bool) :
  exists r,
    Syllabification.new unicodeLN toLowerCase EXCEPTIONS_LIST w exceptions ipa h epen tl
      = Ok r /\
    (0 < exceptions ->
     let this := Syllabification.init ipa h tl (1 <? exceptions) in
     let word :=
       Syllabification.makeExceptions EXCEPTIONS_LIST this
         (if epen then Syllabification.epenthesis w else w) in
     Syllabification.latinGuard (toLowerCase word) = true ->
     exists provisional,
       Syllabification.syllabify unicodeLN toLowerCase this
         (Syllabification.Str (Syllabification.latinMark (toLowerCase word)))
         = Ok provisional /\
       Syllabification.latinStress provisional = Ok (syllables r)) /\
    (exceptions <= 0 ->
     Syllabification.syllabify unicodeLN toLowerCase
       (Syllabification.init ipa h tl false)
       (Syllabification.Str (if epen then Syllabification.epenthesis w else w))
       = Ok (syllables r)).
Proof.
  unfold Syllabification.new. cbv zeta.
  set (pre := if epen then Syllabification.epenthesis w else w).
  destruct (0 <? exceptions) eqn:E.
  - apply Z.ltb_lt in E.
    set (this := Syllabification.init ipa h tl (1 <? exceptions)).
    set (w' := Syllabification.makeExceptions EXCEPTIONS_LIST this pre).
    unfold Syllabification.latin. cbv zeta.
    destruct (Syllabification.latinGuard (toLowerCase w')) eqn:G.
    + destruct (syllabify_Str unicodeLN toLowerCase this
                  (Syllabification.latinMark (toLowerCase w')) (init_closeOk _ _ _ _))
        as (raw & Hsy & _).
      destruct (latinStress_shape (map trim raw)) as (syls & Hs & _).
      destruct (stressedSyllable_range syls) as (st & Hst & _).
      exists {| syllables := syls; stress := st |}. rewrite Hsy. cbn [bind].
      rewrite Hs. cbn [bind Syllabification.syllabify]. rewrite Hst.
      split; [reflexivity|]. split; [|lia].
      intros _ _. exists (map trim raw). auto.
    + destruct (syllabify_Str unicodeLN toLowerCase this w' (init_closeOk _ _ _ _))
        as (raw & Hsy & _).
      destruct (stressedSyllable_range (map trim raw)) as (st & Hst & _).
      exists {| syllables := map trim raw; stress := st |}. cbn [bind].
      rewrite Hsy. cbn [bind]. rewrite Hst.
      split; [reflexivity|]. split; [discriminate | lia].
  - apply Z.ltb_ge in E.
    destruct (syllabify_Str unicodeLN toLowerCase (Syllabification.init ipa h tl false)
                pre (init_closeOk _ _ _ _)) as (raw & Hsy & _).
    destruct (stressedSyllable_range (map trim raw)) as (st & Hst & _).
    exists {| syllables := map trim raw; stress := st |}.
    rewrite Hsy. cbn [bind]. rewrite Hst.
    split; [reflexivity|]. split; [lia | auto].
Qed.

(** C8, as amended.  The exception level is restricted to 0, 1 and 2 by
    the type [ExceptionLevel] alone: the constructor validates nothing and
    never fails; a level above 2 is processed as level 2, and a level
    below 0 as level 0. *)
Theorem level_out_of_range (w : jsstring) (exceptions : Z) (ipa h epen tl : bool) :
  (exists r,
     Syllabification.new unicodeLN toLowerCase EXCEPTIONS_LIST w exceptions ipa h epen tl
       = Ok r) /\
  (2 < exceptions ->
   Syllabification.new unicodeLN toLowerCase EXCEPTIONS_LIST w exceptions ipa h epen tl
   = Syllabification.new unicodeLN toLowerCase EXCEPTIONS_LIST w 2 ipa h epen tl) /\
  (exceptions < 0 ->
   Syllabification.new unicodeLN toLowerCase EXCEPTIONS_LIST w exceptions ipa h epen tl
   = Syllabification.new unicodeLN toLowerCase EXCEPTIONS_LIST w 0 ipa h epen tl).
Proof.
  split; [|split].
  - destruct (new_returns unicodeLN toLowerCase EXCEPTIONS_LIST w exceptions ipa h epen tl)
      as (r & Hr & _). now exists r.
  - intros H. unfold Syllabification.new.
    assert (E0 : (0 <? exceptions) = true) by (apply Z.ltb_lt; lia).
    assert (E1 : (1 <? exceptions) = true) by (apply Z.ltb_lt; lia).
    now rewrite E0, E1.
  - intros H. unfold Syllabification.new.
    assert (E0 : (0 <? exceptions) = false) by (apply Z.ltb_ge; lia).
    now rewrite E0.
Qed.

(** C5, as amended.  At exception level 2, a word that begins with one of
    the prefixes [fie], [sua], [rui] gets the sentinel after the second
    letter of the prefix, between its two vowels, before the table of
    exceptions is applied; epenthesis leaves such a word as it is. *)
Theorem hiatus_prefix_marked (prefix rest : jsstring) (ipa h tl epen : bool) :
  In prefix [js "fie"; js "sua"; js "rui"] ->
  let this := Syllabification.init ipa h tl (1 <? 2) in
  Syllabification.epenthesis (prefix ++ rest) = prefix ++ rest /\
  Syllabification.makeExceptions EXCEPTIONS_LIST this
    (if epen then Syllabification.epenthesis (prefix ++ rest) else prefix ++ rest)
  = fold_left (fun word exception => exception word) EXCEPTIONS_LIST
      (hiatusMarked prefix rest).
Proof.
  intros Hin this.
  assert (He : Syllabification.epenthesis (prefix ++ rest) = prefix ++ rest).
  { cbn [In] in Hin. in_cases Hin; vm_compute; reflexivity. }
  split; [exact He|].
  assert (Hw : (if epen then Syllabification.epenthesis (prefix ++ rest)
                else prefix ++ rest) = prefix ++ rest) by (destruct epen; auto).
  rewrite Hw. unfold Syllabification.makeExceptions. f_equal.
  assert (Hs : slice (prefix ++ rest) 0 3 = prefix).
  { cbn [In] in Hin. in_cases Hin;
      match goal with
      | |- slice (?p ++ _) _ _ = _ => exact (slice_prefix p rest)
      end. }
  rewrite Hs. cbn [In] in Hin. in_cases Hin; vm_compute; reflexivity.
Qed.

(** C6, as amended.  On two syllables or more, none with an accent mark,
    the stress is read off the last syllable: [-1] if it ends in [y] or
    [Y] after a plain vowel; otherwise [-2] if it ends in a plain vowel or
    [y]; otherwise [-2] if it ends in [n] or [s], in either case, after a
    plain vowel; otherwise [-1].  The plain vowels are [a, e, i, o, u] in
    either case, and no other vowel of the program counts. *)
Theorem default_stress (syls : list jsstring) :
  2 <= len syls ->
  (forall s c, In s syls -> In c s -> ~ In c (js "áéíóúÁÉÍÓÚ")) ->
  Syllabification.stressedSyllable syls = Ok (defaultStress (last syls [])).
Proof.
  intros Hlen Hplain. unfold Syllabification.stressedSyllable.
  assert (E0 : (len syls =? 0) = false) by (apply Z.eqb_neq; lia).
  assert (E1 : (len syls =? 1) = false) by (apply Z.eqb_neq; lia).
  rewrite E0, E1.
  assert (Ea : Syllabification.accented (concat syls) = false).
  { unfold Syllabification.accented.
    destruct (existsb _ (concat syls)) eqn:E; [|reflexivity].
    apply existsb_exists in E as (k & Hk & Hi).
    apply in_concat in Hk as (s & Hs & Hk).
    apply includes_unit in Hi. now destruct (Hplain s k Hs Hk). }
  rewrite Ea.
  assert (Hne : syls <> []) by (intros ->; cbn in Hlen; lia).
  assert (Hat : at_ syls (-1) = Some (last syls [])).
  { rewrite (app_removelast_last [] Hne) at 1.
    exact (at_from_end (removelast syls) [] (last syls []) 1 eq_refl). }
  rewrite Hat. cbn [deref bind]. unfold defaultStress, plainVowel.
  pose proof (at_ends (last syls [])) as Hends.
  destruct (rev (last syls [])) as [|e [|b r]]; destruct Hends as [-> ->];
    cbn [includesAt]; rewrite ?includes_existsb; [reflexivity | |];
    change (includes (js "aeiouAEIOU") (js "undefined")) with false;
    rewrite ?andb_false_r;
    change (js "aeiouAEIOUy") with (js "aeiouAEIOU" ++ js "y");
    rewrite existsb_app;
    repeat match goal with
           | |- context [existsb ?f ?l] => destruct (existsb f l)
           end; reflexivity.
Qed.

(** C4, as amended.  On a provisional segmentation of more than two
    syllables: when the penultimate syllable is long, the accent is
    written into the penultimate syllable; when it is not and the
    antepenultimate syllable is long, the accent is written into the
    antepenultimate syllable; when neither is long, the antepenultimate
    syllable is left as it is and only the penultimate may change.  In the
    first two cases the accent goes on the first of the letters
    [a, e, i, o, u], in the order of the table, that the chosen syllable
    contains, at its first occurrence; a chosen syllable with none of the
    five letters is left as it is, and no accent is written at all. *)
Theorem latin_accent_placement (pre : list jsstring) (x y z : jsstring) :
  (long y ->
   (hasVowelLetter y ->
    exists y', accentOn y y' /\
      Syllabification.latinStress (pre ++ [x; y; z]) = Ok (pre ++ [x; y'; z])) /\
   (~ hasVowelLetter y ->
    Syllabification.latinStress (pre ++ [x; y; z]) = Ok (pre ++ [x; y; z]))) /\
  (~ long y -> long x ->
   (hasVowelLetter x ->
    exists x', accentOn x x' /\
      Syllabification.latinStress (pre ++ [x; y; z]) = Ok (pre ++ [x'; y; z])) /\
   (~ hasVowelLetter x ->
    Syllabification.latinStress (pre ++ [x; y; z]) = Ok (pre ++ [x; y; z]))) /\
  (~ long y -> ~ long x ->
   exists y', Syllabification.latinStress (pre ++ [x; y; z]) = Ok (pre ++ [x; y'; z])).
Proof.
  rewrite latinStress_three. split; [|split].
  - intros Hy. apply longa_iff in Hy. rewrite Hy. split; intros Hv.
    + exists (accentWith Syllabification.dictionarium y).
      split; [now apply accentWith_spec | reflexivity].
    + destruct (accentWith_spec y) as [_ E]. now rewrite (E Hv).
  - intros Hy Hx. apply longa_false_iff in Hy. apply longa_iff in Hx.
    rewrite Hy, Hx. split; intros Hv.
    + exists (accentWith Syllabification.dictionarium x).
      split; [now apply accentWith_spec | reflexivity].
    + destruct (accentWith_spec x) as [_ E]. now rewrite (E Hv).
  - intros Hy Hx. apply longa_false_iff in Hy, Hx. rewrite Hy, Hx. eauto.
Qed.

(** C9, as amended.  A word that is empty or holds no letter and no
    number has no syllable, and its stress is [-1]; this is a normal
    result.  It is assumed that lowercasing and the rules of the table of
    exceptions bring no letter or number into a word that has none. *)
Theorem letterless_input_degrades :
  (forall w, letterless unicodeLN w -> letterless unicodeLN (toLowerCase w)) ->
  Forall (fun exception => forall w, letterless unicodeLN w ->
                                     letterless unicodeLN (exception w))
    EXCEPTIONS_LIST ->
  forall (w : jsstring) (exceptions : Z) (ipa h epen tl : bool),
  letterless unicodeLN w ->
  syllabify unicodeLN toLowerCase EXCEPTIONS_LIST w exceptions ipa h epen tl = Ok [] /\
  tonica unicodeLN toLowerCase EXCEPTIONS_LIST w exceptions ipa h epen tl = Ok (-1).
Proof.
  intros Hlow Hrules w exceptions ipa h epen tl Hw.
  unfold syllabify, tonica.
  rewrite (letterless_new unicodeLN toLowerCase EXCEPTIONS_LIST w exceptions
             ipa h epen tl Hlow Hrules Hw).
  split; reflexivity.
Qed.

End Properties.

(* ===================================================================== *)
(** ** Runs of the program on words in Latin-1 *)
(* ===================================================================== *)

(** The scenarios of the specification that do not need the table of
    exceptions. *)
Example scenario_uvulopalatofaringoplastia :
  Latin1.syllabify (js "Uvulopalatofaringoplastia") 1 false false false false
  = Ok (map js ["U"; "vu"; "lo"; "pa"; "la"; "to"; "fa"; "rin"; "go"; "plas"; "tia"]%string)
  /\ Latin1.tonica (js "Uvulopalatofaringoplastia") 1 false false false false = Ok (-2).
Proof. split; vm_compute; reflexivity. Qed.

Example scenario_short_words :
  Latin1.syllabify (js "hola") 1 false false false false = Ok [js "ho"; js "la"]
  /\ Latin1.syllabify (js "ciudad") 1 false false false false = Ok [js "ciu"; js "dad"]
  /\ Latin1.syllabify (js "cruel") 0 false false false false = Ok [js "cruel"]
  /\ Latin1.syllabify (js "sol") 1 false false false false = Ok [js "sol"]
  /\ Latin1.syllabify (js "canción") 1 false false false false = Ok [js "can"; js "ción"]
  /\ Latin1.tonica (js "canción") 1 false false false false = Ok (-1)
  /\ Latin1.tonica (js "reloj") 1 false false false false = Ok (-1)
  /\ Latin1.tonica (js "casa") 1 false false false false = Ok (-2)
  /\ Latin1.syllabify (js "") 1 false false false false = Ok [].
Proof. repeat split; vm_compute; reflexivity. Qed.

Example unaccent_undoes_the_table :
  map unaccent (js "áéíóúxÁ") = js "aeiouxÁ".
Proof. reflexivity. Qed.

(** The last branch of the accent stage tries the letter [a] only: with
    two short syllables and no [a] in the penultimate, no accent is
    written. *)
Example latin_without_accent :
  Latin1.syllabify (js "moneam") 1 false false false false
  = Ok [js "mo"; js "ne"; js "am"].
Proof. vm_compute. reflexivity. Qed.

Example latin_antepenultimate :
  Latin1.syllabify (js "gaudeam") 1 false false false false
  = Ok [js "gáu"; js "de"; js "am"]
  /\ Latin1.syllabify (js "dominum") 1 false false false false
  = Ok [js "do"; js "mín"; js "um"].
Proof. split; vm_compute; reflexivity. Qed.

Example epenthesis_marks_the_boundary :
  Syllabification.epenthesis (js "stop") = js "es_top"
  /\ Syllabification.epenthesis (js "st") = js "est_"
  /\ Latin1.syllabify (js "stop") 0 false false true false = Ok [js "es"; js "top"].
Proof. repeat split; vm_compute; reflexivity. Qed.

Lemma latin1_spaceless : spaceless Latin1.unicodeLN.
Proof. intros c _. reflexivity. Qed.

(** C1: the claim fails on a foreign letter.  At level 0 and without
    epenthesis the word [à] is a letter, so it is its own normalized word
    in the terms of the claim; the syllable returned is [a]. *)
Lemma concatenation_counterexample :
  Latin1.syllabify (js "à") 0 false false false false = Ok [js "a"] /\
  Syllabification.stripNonWord Latin1.unicodeLN (js "à") = js "à" /\
  unmark (concat [js "a"]) <> js "à".
Proof.
  split; [vm_compute; reflexivity|]. split; [vm_compute; reflexivity|].
  vm_compute. discriminate.
Qed.

(** The invariant on [rosam], a word of the Latin path. *)
Lemma concatenation_invariant_witness :
  exists syls,
    Latin1.syllabify (js "rosam") 1 false false false false = Ok syls /\
    let target :=
      unmark (normalize Latin1.unicodeLN
                (marked Latin1.toLowerCase Latin1.EXCEPTIONS_LIST (js "rosam") 1 false)) in
    if latinFires Latin1.toLowerCase Latin1.EXCEPTIONS_LIST (js "rosam") 1 false
    then oneAccent target (concat syls)
    else concat syls = target.
Proof.
  exact (concatenation_invariant Latin1.unicodeLN Latin1.toLowerCase
           Latin1.EXCEPTIONS_LIST latin1_spaceless (js "rosam") 1 false false false false).
Defined.

(** The empty word: no syllable, and the stress [-1]. *)
Example scenario_empty_word :
  Latin1.new (js "") 1 false false false false
    = Ok {| Syllabification.syllables := []; Syllabification.stress := -1 |}.
Proof. vm_compute; reflexivity. Qed.

(** C3: the claim fails at level 0.  The word [rosam] passes the guard of
    the Latin rules, which segment it as [rós-am]; at level 0 it is
    segmented as [ro-sam], without accent. *)
Lemma latin_level0_counterexample :
  Syllabification.latinGuard (Latin1.toLowerCase (js "rosam")) = true /\
  Latin1.syllabify (js "rosam") 0 false false false false = Ok [js "ro"; js "sam"] /\
  Latin1.syllabify (js "rosam") 1 false false false false = Ok [js "rós"; js "am"].
Proof. repeat split; vm_compute; reflexivity. Qed.

(** C4: the claim fails on [palaam].  The provisional segmentation is
    [pa-la-am]; the penultimate [la] has no ligature, one vowel letter, and
    ends in a vowel letter, so the claim puts the accent into [pa]; the
    accent is written into [la]. *)
Lemma latin_accent_counterexample :
  Syllabification.syllabify Latin1.unicodeLN Latin1.toLowerCase
    (Syllabification.init false false false false)
    (Syllabification.Str (Syllabification.latinMark (js "palaam")))
  = Ok [js "pa"; js "la"; js "am"] /\
  Syllabification.longa (js "la") = false /\
  Syllabification.latinStress [js "pa"; js "la"; js "am"]
  = Ok [js "pa"; js "lá"; js "am"] /\
  Latin1.syllabify (js "palaam") 1 false false false false
  = Ok [js "pa"; js "lá"; js "am"].
Proof. repeat split; vm_compute; reflexivity. Qed.

(** The Latin rules on [martyrum]: the penultimate syllable [rtyr] is long
    and has none of the five vowel letters; no accent is written. *)
Example latin_long_without_vowel_letter :
  Syllabification.longa (js "rtyr") = true /\
  Syllabification.latinStress [js "ma"; js "rtyr"; js "um"]
  = Ok [js "ma"; js "rtyr"; js "um"] /\
  Latin1.new (js "martyrum") 1 false false false false
  = Ok {| Syllabification.syllables := [js "ma"; js "rtyr"; js "um"];
          Syllabification.stress := -1 |}.
Proof. repeat split; vm_compute; reflexivity. Qed.

(** C6: the claim fails on [menü].  The syllables are [me-nü], none has an
    accent mark, and the last one ends in [ü], which is a vowel of the
    program; the claim gives [-2].  The cascade tests the plain vowels
    only and gives [-1]; on [me-nu] it gives [-2]. *)
Lemma default_stress_counterexample :
  Latin1.new (js "menü") 0 false false false false
  = Ok {| Syllabification.syllables := [js "me"; js "nü"];
          Syllabification.stress := -1 |} /\
  Syllabification.stressedSyllable [js "me"; js "nü"] = Ok (-1) /\
  includes (Syllabification.vowels (Syllabification.init false false false false))
    (js "ü") = true /\
  Syllabification.accented (concat [js "me"; js "nü"]) = false /\
  Syllabification.stressedSyllable [js "me"; js "nu"] = Ok (-2).
Proof. repeat split; vm_compute; reflexivity. Qed.

(** C5: the claim fails on [fiel], where the sentinel comes after the
    second letter of the prefix, not after the first. *)
Lemma hiatus_prefix_counterexample :
  Syllabification.makeExceptions Latin1.EXCEPTIONS_LIST
    (Syllabification.init false false false (1 <? 2)) (js "fiel") = js "fi_el" /\
  js "fi_el" <> js "f_iel" /\
  Latin1.syllabify (js "fiel") 2 false false false false = Ok [js "fi"; js "el"].
Proof.
  split; [vm_compute; reflexivity|]. split; [vm_compute; discriminate|].
  vm_compute. reflexivity.
Qed.

(** The prefix [sua] of [suave], with epenthesis switched on. *)
Lemma hiatus_prefix_marked_witness :
  Syllabification.epenthesis (js "sua" ++ js "ve") = js "sua" ++ js "ve" /\
  Syllabification.makeExceptions Latin1.EXCEPTIONS_LIST
    (Syllabification.init false false false (1 <? 2))
    (if true then Syllabification.epenthesis (js "sua" ++ js "ve") else js "sua" ++ js "ve")
  = fold_left (fun word exception => exception word) Latin1.EXCEPTIONS_LIST
      (hiatusMarked (js "sua") (js "ve")).
Proof.
  apply (hiatus_prefix_marked Latin1.EXCEPTIONS_LIST (js "sua") (js "ve")
           false false false true).
  cbn [In]. right. left. reflexivity.
Defined.

(** The cascade on [ca-rey]: a final [y] after a plain vowel. *)
Lemma default_stress_witness :
  Syllabification.stressedSyllable [js "ca"; js "rey"]
  = Ok (defaultStress (last [js "ca"; js "rey"] [])).
Proof.
  apply default_stress.
  - vm_compute. discriminate.
  - intros s c Hs Hc Hacc. cbn [In] in Hs.
    destruct Hs as [<-|[<-|[]]]; vm_compute in Hc, Hacc;
      in_cases Hc; in_cases Hacc; discriminate.
Defined.

(** Lowercasing in Latin-1 changes letters only. *)
Lemma lowerUnit_letter (c : N) :
  Latin1.lowerUnit c <> c -> (c <? 256)%N = true /\ latin1LN c = true.
Proof.
  unfold Latin1.lowerUnit.
  destruct (((65 <=? c)%N && (c <=? 90)%N)
            || ((192 <=? c)%N && (c <=? 222)%N && negb (c =? 215)%N)) eqn:E;
    [intros _ | intros H; now destruct H].
  unfold latin1LN, latin1L.
  apply orb_true_iff in E as [E|E].
  - rewrite E. split; [|reflexivity].
    apply andb_true_iff in E as [_ E]. apply N.leb_le in E. apply N.ltb_lt. lia.
  - apply andb_true_iff in E as [E E3]. apply andb_true_iff in E as [E1 E2].
    assert (E4 : (c <=? 255)%N = true) by (apply N.leb_le in E2; apply N.leb_le; lia).
    assert (E5 : negb (c =? 247)%N = true).
    { apply negb_true_iff, N.eqb_neq. apply N.leb_le in E2. lia. }
    rewrite E1, E3, E4, E5. cbn [andb]. rewrite !orb_true_r.
    split; [|reflexivity]. apply N.leb_le in E2. apply N.ltb_lt. lia.
Qed.

Lemma latin1_lower_letterless (w : jsstring) :
  letterless Latin1.unicodeLN w -> letterless Latin1.unicodeLN (Latin1.toLowerCase w).
Proof.
  intros Hw. unfold Latin1.toLowerCase.
  replace (map Latin1.lowerUnit w) with w; [exact Hw|].
  rewrite <- (map_id w) at 1. apply map_ext_in. intros c Hc.
  destruct (N.eq_dec (Latin1.lowerUnit c) c) as [E|E]; [now rewrite E|].
  apply lowerUnit_letter in E as [E1 E2].
  rewrite (letterless_latin1 Latin1.unicodeLN w c Hw Hc E1) in E2. discriminate.
Qed.

(** C9: the claim fails on digits.  The word [123] holds no letter, and
    is returned as one syllable. *)
Lemma letterless_counterexample :
  forallb (fun c => negb (latin1L c)) (js "123") = true /\
  Latin1.syllabify (js "123") 0 false false false false = Ok [js "123"].
Proof. split; vm_compute; reflexivity. Qed.

(** Punctuation and a sentinel, at level 1 with epenthesis. *)
Lemma letterless_input_degrades_witness :
  Latin1.syllabify (js "¿_?") 1 false false true false = Ok [] /\
  Latin1.tonica (js "¿_?") 1 false false true false = Ok (-1).
Proof.
  apply (letterless_input_degrades Latin1.unicodeLN Latin1.toLowerCase
           Latin1.EXCEPTIONS_LIST).
  - exact latin1_lower_letterless.
  - constructor.
  - unfold letterless.
    change (arrayFrom (js "¿_?")) with [[191%N]; [95%N]; [63%N]].
    repeat constructor.
Defined.

(** C8: the claim fails on level 3, which is processed without error. *)
Lemma invalid_level_counterexample :
  Latin1.new (js "hola") 3 false false false false
    = Ok {| Syllabification.syllables := [js "ho"; js "la"];
            Syllabification.stress := -2 |}.
Proof. vm_compute. reflexivity. Qed.

(* ===================================================================== *)
(** ** Further properties: [epenthesis] *)
(* ===================================================================== *)

Section EpenthesisFacts.

Lemma sliceFrom_prefix (p r : jsstring) : sliceFrom (p ++ r) (len p) = r.
Proof.
  pose proof (slice_sliceFrom (p ++ r) (len p)) as H.
  rewrite slice_prefix in H. now apply app_inv_head in H.
Qed.

Lemma charAt_prefix (p r : jsstring) : charAt (p ++ r) (len p) = hd_error r.
Proof.
  unfold charAt. pose proof (len_nonneg p) as Hp.
  destruct (len p <? 0) eqn:E; [apply Z.ltb_lt in E; lia|].
  replace (Z.to_nat (len p)) with (length p + 0)%nat by (unfold len; lia).
  rewrite nth_error_app2 by lia.
  replace (length p + 0 - length p)%nat with O by lia.
  now destruct r.
Qed.

(** The loop of [epenthesis] stops at the first onset of the list that
    the word begins with. *)
Lemma epenthesis_for_first (onsets : list jsstring) (w : jsstring) :
  existsb (fun onset => startsWith w onset) onsets = true ->
  exists onset rest,
    In onset onsets /\ w = onset ++ rest /\
    Syllabification.epenthesis_for onsets w =
    if includesAt (js "aeiouáéíóúrl") (hd_error rest)
    then js "es_" ++ sliceFrom onset 1 ++ rest
    else js "e" ++ onset ++ js "_" ++ rest.
Proof.
  induction onsets as [|onset onsets IH]; [discriminate|].
  cbn [existsb Syllabification.epenthesis_for].
  destruct (startsWith w onset) eqn:E.
  - intros _. apply startsWith_iff in E as (rest & ->).
    exists onset, rest. rewrite charAt_prefix, sliceFrom_prefix.
    split; [now left | split; reflexivity].
  - cbn [orb]. intros H. destruct (IH H) as (o & rest & Hin & Hw & He).
    exists o, rest. split; [now right | split; assumption].
Qed.

End EpenthesisFacts.

Lemma epenthesis_cases (w : jsstring) :
  (Syllabification.epenthesis w = w /\
   forall onset, In onset Syllabification.liquidae -> startsWith w onset = false)
  \/
  (exists onset rest,
     In onset Syllabification.liquidae /\ w = onset ++ rest /\
     exists a b,
       w = a ++ b /\
       a = (if includesAt (js "aeiouáéíóúrl") (hd_error rest) then js "s" else onset) /\
       Syllabification.epenthesis w = js "e" ++ a ++ [sentinel] ++ b).
Proof.
  unfold Syllabification.epenthesis.
  destruct (existsb (fun onset => startsWith w onset) Syllabification.liquidae) eqn:E.
  - right. destruct (epenthesis_for_first _ w E) as (onset & rest & Hin & Hw & He).
    exists onset, rest. split; [exact Hin|]. split; [exact Hw|].
    rewrite He. subst w.
    destruct (includesAt (js "aeiouáéíóúrl") (hd_error rest)).
    + exists (js "s"), (sliceFrom onset 1 ++ rest). split; [|split; reflexivity].
      cbn in Hin. in_cases Hin; reflexivity.
    + exists onset, rest. split; [reflexivity|]. split; reflexivity.
  - left. split; [reflexivity|]. intros onset Hin.
    now apply (existsb_false _ _ E).
Qed.

(** The loop of [epenthesis], with the onsets that it has passed over. *)
Lemma epenthesis_for_first_onset (onsets : list jsstring) (w : jsstring) :
  existsb (fun onset => startsWith w onset) onsets = true ->
  exists before onset after rest,
    onsets = before ++ onset :: after /\
    (forall o, In o before -> startsWith w o = false) /\
    w = onset ++ rest /\
    Syllabification.epenthesis_for onsets w =
    if includesAt (js "aeiouáéíóúrl") (hd_error rest)
    then js "es_" ++ sliceFrom onset 1 ++ rest
    else js "e" ++ onset ++ js "_" ++ rest.
Proof.
  induction onsets as [|onset onsets IH]; [discriminate|].
  cbn [existsb Syllabification.epenthesis_for].
  destruct (startsWith w onset) eqn:E.
  - intros _. apply startsWith_iff in E as (rest & ->).
    exists [], onset, onsets, rest. rewrite charAt_prefix, sliceFrom_prefix.
    split; [reflexivity|]. split; [intros o []|]. split; reflexivity.
  - cbn [orb]. intros H.
    destruct (IH H) as (before & o & after & rest & Ho & Hb & Hw & He).
    exists (onset :: before), o, after, rest.
    split; [now rewrite Ho|]. split; [|split; assumption].
    intros o' [<-|Hin]; [exact E | now apply Hb].
Qed.

(** X1.  [epenthesis] leaves a word as it is unless it begins with one of
    the onsets of [liquidae]; then the first onset of the list that the
    word begins with decides: [e] is put in front and one sentinel
    inside, after the [s] when that onset is followed by a vowel, [r] or
    [l], after the whole onset otherwise. *)
Theorem epenthesis_shape (w : jsstring) :
  (Syllabification.epenthesis w = w /\
   forall onset, In onset Syllabification.liquidae -> startsWith w onset = false)
  \/
  (exists before onset after rest,
     Syllabification.liquidae = before ++ onset :: after /\
     (forall o, In o before -> startsWith w o = false) /\
     w = onset ++ rest /\
     exists a b,
       w = a ++ b /\
       a = (if includesAt (js "aeiouáéíóúrl") (hd_error rest) then js "s" else onset) /\
       Syllabification.epenthesis w = js "e" ++ a ++ [sentinel] ++ b).
Proof.
  unfold Syllabification.epenthesis.
  destruct (existsb (fun onset => startsWith w onset) Syllabification.liquidae) eqn:E.
  - right. destruct (epenthesis_for_first_onset _ w E)
      as (before & onset & after & rest & Ho & Hb & Hw & He).
    exists before, onset, after, rest.
    split; [exact Ho|]. split; [exact Hb|]. split; [exact Hw|].
    assert (Hin : In onset Syllabification.liquidae).
    { rewrite Ho. apply in_or_app. right. now left. }
    rewrite He. subst w.
    destruct (includesAt (js "aeiouáéíóúrl") (hd_error rest)).
    + exists (js "s"), (sliceFrom onset 1 ++ rest). split; [|split; reflexivity].
      cbn in Hin. in_cases Hin; reflexivity.
    + exists onset, rest. split; [reflexivity|]. split; reflexivity.
  - left. split; [reflexivity|]. intros onset Hin.
    now apply (existsb_false _ _ E).
Qed.

(** The onset that decides is the first: [schma] begins with [sch] and
    with [sc], and the sentinel goes after [sch]. *)
Example epenthesis_takes_the_first_onset :
  Syllabification.epenthesis (js "schma") = js "esch_ma" /\
  Syllabification.epenthesis (js "scha") = js "es_cha".
Proof. split; vm_compute; reflexivity. Qed.

(** X2.  [epenthesis] applied twice is [epenthesis] applied once: what it
    returns begins with [e] when it has changed the word. *)
Theorem epenthesis_idempotent (w : jsstring) :
  Syllabification.epenthesis (Syllabification.epenthesis w)
  = Syllabification.epenthesis w.
Proof.
  destruct (epenthesis_cases w) as [[E _]|(onset & rest & _ & _ & a & b & _ & _ & E)].
  - now rewrite E.
  - rewrite E. unfold Syllabification.epenthesis at 1.
    rewrite existsb_all_false; [reflexivity|].
    intros o Hin. cbn in Hin. in_cases Hin; reflexivity.
Qed.

(* ===================================================================== *)
(** ** Further properties: [split] *)
(* ===================================================================== *)

Section SplitMore.

Import Syllabification.

Variable this : Self.
Hypothesis close_ok : closeOk this.

Lemma starCls_long (cs : jsstring) (k : jsstring -> bool) (s : jsstring) :
  starCls cs k s = true -> exists s1 s2, s = s1 ++ s2 /\ k s2 = true.
Proof.
  intros H. destruct (starCls_sound cs k s H) as (s1 & s2 & E & _ & Hk). eauto.
Qed.

(** A match is at least as long as the expression demands. *)
Lemma matchK_long (r : regex) : forall (k : jsstring -> bool) (s : jsstring),
  matchK r k s = true ->
  exists s1 s2, s = s1 ++ s2 /\ (minLen r <= length s1)%nat /\ k s2 = true.
Proof.
  induction r as [cs|a IHa b IHb|a IHa b IHb|a IHa|cs]; intros k s H;
    cbn [matchK minLen] in *.
  - destruct s as [|c s]; [discriminate|].
    apply andb_true_iff in H as [_ H]. exists [c], s. auto.
  - destruct (IHa _ _ H) as (s1 & s2 & -> & L1 & H2).
    destruct (IHb _ _ H2) as (s3 & s4 & -> & L3 & H4).
    exists (s1 ++ s3), s4. rewrite app_assoc, length_app. repeat split; auto. lia.
  - apply orb_true_iff in H as [H|H];
      [destruct (IHa _ _ H) as (s1 & s2 & -> & L1 & H2)
      |destruct (IHb _ _ H) as (s1 & s2 & -> & L1 & H2)];
      exists s1, s2; repeat split; auto; lia.
  - apply orb_true_iff in H as [H|H].
    + destruct (IHa _ _ H) as (s1 & s2 & -> & _ & H2). exists s1, s2.
      repeat split; auto. lia.
    + exists [], s. repeat split; auto.
  - destruct (starCls_long _ _ _ H) as (s1 & s2 & -> & H2). exists s1, s2.
    repeat split; auto. lia.
Qed.

Lemma matchToEnd_long (r : regex) (s : jsstring) :
  matchToEnd r s = true -> (minLen r <= length s)%nat.
Proof.
  intros H. destruct (matchK_long _ _ _ H) as (s1 & s2 & -> & L & H2).
  rewrite length_app. lia.
Qed.

Ltac unit_cases_more H :=
  repeat match type of H with
         | In _ (_ ++ _) => apply in_app_or in H; destruct H as [H|H]
         end;
  first [ apply close_ok; exact H
        | vm_compute in H; vm_compute;
          repeat (destruct H as [H|H]; [subst; intuition discriminate|]);
          contradiction ].

Lemma safe_units_forall (s : jsstring) :
  Forall (fun c => ~ In c (js "gq_")) s -> dropGQ s = s.
Proof. intros H. now destruct (safe_units s H). Qed.

(** A diphthong match, with [g] or [q] dropped, keeps two code units or
    more, none of them [g], [q] or the sentinel. *)
Lemma diphthong_long (m : jsstring) :
  matchToEnd (diphthongPattern this) m = true ->
  (2 <= length (dropGQ m))%nat /\ Forall (fun c => ~ In c (js "gq_")) (dropGQ m).
Proof using close_ok.
  unfold diphthongPattern. rewrite !matchToEnd_Alt, matchToEnd_Seq_Cls. intros H.
  apply orb_true_iff in H as [H|H].
  - destruct m as [|c m']; [discriminate|].
    apply andb_true_iff in H as [Hc H].
    pose proof (matchToEnd_long _ _ H) as Hlen.
    apply matchToEnd_sound in H.
    assert (Hs : Forall (fun c => ~ In c (js "gq_")) m').
    { eapply Forall_impl; [|exact H]. cbv beta. intros a Ha.
      cbn [alphabet] in Ha. unit_cases_more Ha. }
    assert (Hg : includes (js "gq") [c] = true).
    { apply includes_unit. apply includes_unit in Hc.
      vm_compute in Hc |- *. intuition. }
    unfold dropGQ. cbn [filter]. rewrite Hg. cbn [negb].
    fold (dropGQ m'). rewrite (safe_units_forall _ Hs). split; [exact Hlen | exact Hs].
  - assert (Hlen : (2 <= length m)%nat).
    { apply orb_true_iff in H as [H|H]; exact (matchToEnd_long _ _ H). }
    assert (Hs : Forall (fun c => ~ In c (js "gq_")) m).
    { apply orb_true_iff in H as [H|H]; apply matchToEnd_sound in H;
        (eapply Forall_impl; [|exact H]); cbv beta; intros a Ha;
        cbn [alphabet] in Ha; unit_cases_more Ha. }
    rewrite (safe_units_forall _ Hs). auto.
Qed.

(** One call of [split], with what the segment is made of. *)
Lemma split_step_more (word : jsstring) :
  word <> [] ->
  exists rest seg, word = rest ++ seg /\ nucleusOrUnit seg /\
    forall syllables, split this word syllables = split this rest (seg :: syllables).
Proof using close_ok.
  intros Hw.
  destruct (matchEnd (diphthongPattern this) word) as [m|] eqn:Em.
  - destruct (matchEnd_suffix _ _ _ Em) as (pre & -> & Hm).
    destruct (diphthong_shape this close_ok _ Hm) as (g & Hg & Hd & _).
    destruct (diphthong_long _ Hm) as [Hlen Hs].
    exists (pre ++ g), (dropGQ m). repeat split.
    + rewrite <- app_assoc. now rewrite <- Hg.
    + right. auto.
    + intros syllables. rewrite split_unfold, Em. cbv zeta.
      assert (E : pre ++ m = (pre ++ g) ++ dropGQ m)
        by (rewrite <- app_assoc; now rewrite <- Hg).
      destruct (slice_last _ _ _ _ E Hd eq_refl) as [-> _]. reflexivity.
  - destruct (existsb (fun d => endsWith word d) digraph) eqn:Ed.
    + pose proof Ed as Ed'.
      apply existsb_exists in Ed as (d & Hin & Hd).
      apply endsWith_iff in Hd as (r & ->).
      assert (Hd2 : d <> [] /\ 2 = len d /\ nucleusOrUnit d).
      { vm_compute in Hin.
        repeat (destruct Hin as [Hin|Hin];
                [subst; repeat split; [discriminate|];
                 right; split; [vm_compute; lia|];
                 repeat constructor; vm_compute; intuition discriminate|]).
        contradiction. }
      destruct Hd2 as (Hd & Hl & Hn).
      exists r, d. repeat split; auto.
      intros syllables. rewrite split_unfold, Em, Ed'.
      destruct (slice_last (r ++ d) r d (-2) eq_refl Hd ltac:(lia)) as [-> ->].
      reflexivity.
    + destruct (exists_last Hw) as (r & c & ->).
      exists r, [c]. repeat split; [left; eauto|].
      intros syllables. rewrite split_unfold, Em, Ed.
      assert (Ee : eqb (r ++ [c]) [] = false) by (apply eqb_neq; destruct r; discriminate).
      rewrite Ee. cbn [negb].
      assert (Hc : [c] <> []) by discriminate.
      destruct (slice_last (r ++ [c]) r [c] (-1) eq_refl Hc eq_refl) as [-> ->].
      reflexivity.
Qed.

(** The segments of a word do not depend on the syllables that [split]
    is given: these are only appended. *)
Lemma split_more : forall (n : nat) (word : jsstring),
  (length word <= n)%nat ->
  exists segs, concat segs = word /\ Forall nucleusOrUnit segs /\
    forall syllables, split this word syllables = segs ++ syllables.
Proof using close_ok.
  induction n as [|n IH]; intros word Hn.
  - destruct word; [|simpl in Hn; lia]. exists []. repeat split; auto.
  - destruct word as [|c w] eqn:Ew.
    { exists []. repeat split; auto. }
    rewrite <- Ew in *.
    assert (Hw : word <> []) by (rewrite Ew; discriminate).
    destruct (split_step_more _ Hw) as (rest & seg & E & Hseg & Hstep).
    assert (Hlen : (length rest <= n)%nat).
    { rewrite E, length_app in Hn.
      assert (1 <= length seg)%nat; [|lia].
      destruct Hseg as [[u ->]|[H2 _]]; [reflexivity | lia]. }
    destruct (IH rest Hlen) as (segs & Hc & Hf & Hs).
    exists (segs ++ [seg]). repeat split.
    + rewrite concat_app, Hc. simpl. now rewrite app_nil_r.
    + apply Forall_app. split; auto.
    + intros syllables. rewrite Hstep, Hs. now rewrite <- app_assoc.
Qed.

End SplitMore.

Section SplitProperties.

Variables ipa h tl hiatus : bool.

(** X3.  [split] cuts the word into segments and loses nothing: the
    segments, concatenated, are the word, and the syllables that the
    recursion is given are only appended to. *)
Theorem split_partition (word : jsstring) (syllables : list jsstring) :
  let this := Syllabification.init ipa h tl hiatus in
  concat (Syllabification.split this word []) = word /\
  Syllabification.split this word syllables
  = Syllabification.split this word [] ++ syllables.
Proof.
  intros this.
  destruct (split_more this (init_closeOk ipa h tl hiatus) _ word (le_n _))
    as (segs & Hc & _ & Hs).
  rewrite (Hs syllables), (Hs []), app_nil_r. auto.
Qed.

(** X4.  A segment of [split] is one code unit, or it has two code units
    or more and holds no [g], no [q] and no sentinel: the letter that
    triggers [qu] or [gu] stays outside the nucleus. *)
Theorem split_segments_shape (word : jsstring) :
  Forall nucleusOrUnit
    (Syllabification.split (Syllabification.init ipa h tl hiatus) word []).
Proof.
  destruct (split_more _ (init_closeOk ipa h tl hiatus) _ word (le_n _))
    as (segs & _ & Hf & Hs).
  now rewrite (Hs []), app_nil_r.
Qed.

End SplitProperties.

Example split_que_gui :
  Syllabification.split (Syllabification.init false false false false) (js "quegüi") []
  = [js "q"; js "ue"; js "g"; js "üi"].
Proof. vm_compute. reflexivity. Qed.

(* ===================================================================== *)
(** ** Further properties: [join] *)
(* ===================================================================== *)

Section JoinMore.

Import Syllabification.

Variable toLowerCase : jsstring -> jsstring.
Variable this : Self.

Lemma solid_snoc (a : list jsstring) (x : jsstring) :
  solid a -> x <> [] -> solid (a ++ [x]).
Proof. intros Ha Hx. apply Forall_app. split; [exact Ha | now constructor]. Qed.

Lemma solid_appendLast (a : list jsstring) (x : jsstring) :
  solid a -> solid (appendLast a x).
Proof.
  intros Ha. destruct a as [|y a]; [constructor|].
  assert (Hne : y :: a <> []) by discriminate.
  destruct (nonempty_snoc _ Hne) as (b & z & E). rewrite E in *.
  rewrite appendLast_snoc. unfold solid in *.
  apply Forall_app in Ha as [Hb Hz]. apply Forall_app. split; [exact Hb|].
  inversion Hz; subst. constructor; [|constructor].
  destruct z; [contradiction | discriminate].
Qed.

Lemma app_nonempty_r (a b : jsstring) : b <> [] -> a ++ b <> [].
Proof. intros Hb E. apply app_eq_nil in E as [_ E]. contradiction. Qed.

Lemma noVowel_nonempty (letter : jsstring) :
  noVowel toLowerCase this letter = false -> letter <> [].
Proof. intros H ->. discriminate. Qed.

Lemma endsWith_nonempty (o p : jsstring) :
  endsWith o p = true -> p <> [] -> o <> [].
Proof.
  intros H Hp ->. apply endsWith_iff in H as (r & E).
  symmetry in E. apply app_eq_nil in E as [_ E]. contradiction.
Qed.

Lemma sliceFrom_last_two (o : jsstring) : o <> [] -> sliceFrom o (-2) <> [].
Proof.
  intros Ho E.
  assert (Hl : length (sliceFrom o (-2)) = O) by now rewrite E.
  unfold sliceFrom in Hl. rewrite length_skipn in Hl.
  assert (0 < len o) by (unfold len; destruct o; [contradiction | simpl; lia]).
  unfold relIndex, len in *. cbn [Z.ltb Z.compare] in Hl. lia.
Qed.

(** A turn of the loop keeps the syllables non-empty, and a nucleus opens
    a syllable of its own. *)
Lemma joinStep_more (st : joinState) (letter : jsstring) :
  match joinStep toLowerCase this st letter with
  | Ok st' =>
    (solid (word st) -> solid (word st')) /\
    (length (word st) + (if nucleus toLowerCase this letter then 1 else 0)
     <= length (word st'))%nat
  | Throw _ => True
  end.
Proof.
  unfold joinStep, nucleus. destruct st as [w o m]. cbn [word onset media].
  destruct (eqb letter (js "_")) eqn:El; cbn [negb andb].
  { destruct (0 <? len w); cbn [word]; split; auto using solid_appendLast;
      rewrite ?appendLast_length; lia. }
  destruct (noVowel toLowerCase this letter) eqn:Ev; cbn [negb].
  { destruct (endsWith o (js "y")) eqn:Ey.
    - assert (Ho : o <> []) by (apply (endsWith_nonempty _ _ Ey); discriminate).
      destruct (eqb o (js "y")); [destruct (0 <? len w)|].
      + destruct (deref (at_ w (-1))) as [last|e]; cbn [bind]; [|exact I].
        destruct (includesAt _ _); cbn [word]; split;
          auto using solid_appendLast, solid_snoc;
          rewrite ?appendLast_length, ?length_app; cbn [length]; lia.
      + cbn [bind word]. split; auto using solid_snoc.
        rewrite length_app. cbn [length]. lia.
      + cbn [bind word]. split; auto using solid_snoc.
        rewrite length_app. cbn [length]. lia.
    - cbn [word]. split; [auto | lia]. }
  pose proof (noVowel_nonempty _ Ev) as Hl.
  assert (Hpush : forall (a : list jsstring) (x : jsstring),
            (solid w -> solid a) -> length a = length w ->
            (solid w -> solid (a ++ [x ++ letter])) /\
            (length w + 1 <= length (a ++ [x ++ letter]))%nat).
  { intros a x Ha Hlen. split.
    - intros Hw. apply solid_snoc; [auto | now apply app_nonempty_r].
    - rewrite length_app, Hlen. cbn [length]. lia. }
  repeat match goal with
         | |- context [if ?b then _ else _] => destruct b
         end; cbn [word]; apply Hpush;
    auto using solid_appendLast, appendLast_length.
Qed.

Lemma joinLoop_more (segs : list jsstring) : forall st,
  match joinLoop toLowerCase this st segs with
  | Ok st' =>
    (solid (word st) -> solid (word st')) /\
    (length (word st) + length (filter (nucleus toLowerCase this) segs)
     <= length (word st'))%nat
  | Throw _ => True
  end.
Proof.
  induction segs as [|letter segs IH]; intros st; cbn [joinLoop filter].
  - split; [auto | cbn [length]; lia].
  - pose proof (joinStep_more st letter) as H1.
    destruct (joinStep toLowerCase this st letter) as [st1|e]; cbn [bind]; [|exact I].
    pose proof (IH st1) as H2.
    destruct (joinLoop toLowerCase this st1 segs) as [st'|e]; [|exact I].
    destruct H1 as [S1 L1], H2 as [S2 L2]. split; [auto|].
    destruct (nucleus toLowerCase this letter); cbn [length] in *; lia.
Qed.

Lemma joinTail_more (st : joinState) :
  (solid (word st) -> solid (joinTail st)) /\
  (length (word st) <= length (joinTail st))%nat.
Proof.
  unfold joinTail. destruct st as [w o m]. cbn [word onset].
  destruct (eqb o []) eqn:Eo; cbn [negb]; [split; auto|].
  apply eqb_neq in Eo.
  repeat match goal with
         | |- context [if ?b then _ else _] => destruct b
         end; split;
    auto using solid_appendLast, solid_snoc, sliceFrom_last_two;
    rewrite ?length_app, ?appendLast_length; cbn [length]; lia.
Qed.

(** [join] as a whole. *)
Lemma join_more (segs : list jsstring) :
  exists syllables,
    join toLowerCase this segs = Ok syllables /\
    concat syllables = visible segs /\
    solid syllables /\
    (length (filter (nucleus toLowerCase this) segs) <= length syllables)%nat.
Proof.
  destruct (join_concat toLowerCase this segs) as (syllables & Hj & Hc).
  exists syllables. split; [exact Hj|]. split; [exact Hc|].
  unfold join in Hj.
  pose proof (joinLoop_more segs {| word := []; onset := []; media := 0 |}) as H.
  destruct (joinLoop toLowerCase this _ segs) as [st'|e]; [|discriminate].
  cbn [bind] in Hj. injection Hj as <-.
  destruct H as [S L]. destruct (joinTail_more st') as [S' L'].
  cbn [word length] in *. split; [apply S', S; constructor | lia].
Qed.

(** X5.  [join] never throws, whatever the segments, and regroups them:
    the syllables, concatenated, are the segments other than the sentinel,
    concatenated. *)
Theorem join_regroups (segs : list jsstring) :
  exists syllables,
    Syllabification.join toLowerCase this segs = Ok syllables /\
    concat syllables = visible segs.
Proof.
  destruct (join_more segs) as (syllables & Hj & Hc & _). eauto.
Qed.

(** X6.  [join] returns no empty syllable, whatever the segments. *)
Theorem join_no_empty_syllable (segs : list jsstring) :
  exists syllables,
    Syllabification.join toLowerCase this segs = Ok syllables /\
    solid syllables.
Proof.
  destruct (join_more segs) as (syllables & Hj & _ & Hs & _). eauto.
Qed.

(** X7.  Every nucleus opens a syllable of its own: [join] returns at
    least as many syllables as there are segments with a vowel. *)
Theorem join_syllable_per_nucleus (segs : list jsstring) :
  exists syllables,
    Syllabification.join toLowerCase this segs = Ok syllables /\
    (length (filter (nucleus toLowerCase this) segs) <= length syllables)%nat.
Proof.
  destruct (join_more segs) as (syllables & Hj & _ & _ & Hn). eauto.
Qed.

End JoinMore.

(** A lone [y] after a close vowel opens a syllable without nucleus. *)
Example join_more_syllables_than_nuclei :
  Syllabification.join Latin1.toLowerCase (Syllabification.init false false false false)
    [js "s"; js "u"; js "y"; js "d"]
  = Ok [js "su"; js "yd"].
Proof. vm_compute. reflexivity. Qed.

(* ===================================================================== *)
(** ** Further properties: [stressedSyllable] and the accent of [latin] *)
(* ===================================================================== *)

Section StressMore.

Import Syllabification.

Lemma accented_iff (s : jsstring) : accented s = true <-> hasAccent s.
Proof.
  unfold accented, hasAccent. rewrite existsb_exists. split.
  - intros (c & Hc & Hi). apply includes_unit in Hi. eauto.
  - intros (c & Hc & Hi). exists c. split; [exact Hc | now apply includes_unit].
Qed.

Lemma accented_false_iff (s : jsstring) : accented s = false <-> ~ hasAccent s.
Proof.
  rewrite <- accented_iff. destruct (accented s); split; congruence.
Qed.

Lemma firstAccented_app (pre post : list jsstring) (s : jsstring) : forall i,
  (forall x, In x pre -> ~ hasAccent x) -> hasAccent s ->
  firstAccented (pre ++ s :: post) i = Some (i + len pre).
Proof.
  induction pre as [|x pre IH]; intros i Hpre Hs; cbn [app firstAccented].
  - apply accented_iff in Hs. rewrite Hs. f_equal. cbn. lia.
  - assert (Hx : accented x = false) by (apply accented_false_iff, Hpre; now left).
    rewrite Hx, IH; [|intros y Hy; apply Hpre; now right | exact Hs].
    f_equal. unfold len. cbn [length]. lia.
Qed.

(** The stress of a word with a written accent. *)
Lemma stress_at_first_accent (pre post : list jsstring) (s : jsstring) :
  2 <= len (pre ++ s :: post) ->
  (forall x, In x pre -> ~ hasAccent x) -> hasAccent s ->
  stressedSyllable (pre ++ s :: post) = Ok (- (len post + 1)).
Proof.
  intros Hlen Hpre Hs. unfold stressedSyllable.
  assert (E0 : (len (pre ++ s :: post) =? 0) = false) by (apply Z.eqb_neq; lia).
  assert (E1 : (len (pre ++ s :: post) =? 1) = false) by (apply Z.eqb_neq; lia).
  rewrite E0, E1.
  assert (Ea : accented (concat (pre ++ s :: post)) = true).
  { apply accented_iff. destruct Hs as (c & Hc & Hi). exists c. split; [|exact Hi].
    apply in_concat. exists s. split; [apply in_or_app; right; now left | exact Hc]. }
  rewrite Ea, (firstAccented_app pre post s 0 Hpre Hs).
  f_equal. rewrite len_app. unfold len. cbn [length]. lia.
Qed.

Lemma replace_unit_hit (s : jsstring) (c p : N) :
  In c s -> In p (replace s [c] [p]).
Proof.
  induction s as [|d s IH]; [intros []|]. rewrite replace_unit.
  destruct (c =? d)%N eqn:E; [intros _; now left|].
  intros [->|H]; [rewrite N.eqb_refl in E; discriminate | right; auto].
Qed.

(** A syllable with one of the five vowel letters gets an accent. *)
Lemma accentWith_hit (s : jsstring) :
  (exists v, vowelLetter v /\ In v s) -> hasAccent (accentWith dictionarium s).
Proof.
  intros (v & Hv & Hs). unfold dictionarium. cbn [accentWith].
  change (js "a") with [97%N]. change (js "e") with [101%N]. change (js "i") with [105%N].
  change (js "o") with [111%N]. change (js "u") with [117%N].
  change (js "á") with [225%N]. change (js "é") with [233%N]. change (js "í") with [237%N].
  change (js "ó") with [243%N]. change (js "ú") with [250%N].
  repeat match goal with
         | |- hasAccent (if includes s [?c] then replace s [?c] [?p] else _) =>
           let E := fresh "E" in
           destruct (includes s [c]) eqn:E;
           [apply includes_unit in E; exists p;
            split; [now apply replace_unit_hit | vm_compute; in_solve]
           |apply includes_unit_false in E]
         end.
  exfalso. unfold vowelLetter in Hv. vm_compute in Hv. in_cases Hv; contradiction.
Qed.

End StressMore.

(** X8.  On two syllables or more, when a syllable carries a written
    accent, the stress is the index, counted from the end, of the first
    syllable that does. *)
Theorem stress_on_first_accent (pre post : list jsstring) (s : jsstring) :
  2 <= len (pre ++ s :: post) ->
  (forall x, In x pre -> ~ hasAccent x) -> hasAccent s ->
  Syllabification.stressedSyllable (pre ++ s :: post) = Ok (- (len post + 1)).
Proof. exact (stress_at_first_accent pre post s). Qed.

(** The accent of [can-ción] is on the last syllable. *)
Lemma stress_on_first_accent_witness :
  Syllabification.stressedSyllable ([js "can"] ++ js "ción" :: [])
  = Ok (- (len (@nil jsstring) + 1)).
Proof.
  apply stress_on_first_accent.
  - vm_compute. discriminate.
  - intros x [<-|[]] (c & Hc & Hi). vm_compute in Hc, Hi.
    in_cases Hc; in_cases Hi; discriminate.
  - exists 243%N. split; vm_compute; in_solve.
Defined.

(** X9.  The accent stage of [latin] never throws, keeps the number of
    syllables, and changes one syllable at most, in which the first
    occurrence of one vowel letter of the table is replaced by its
    accented letter. *)
Theorem latinStress_one_accent (a : list jsstring) :
  Syllabification.latinStress a = Ok a \/
  exists pre s post c p,
    a = pre ++ s :: post /\ In ([c], [p]) Syllabification.dictionarium /\
    Syllabification.latinStress a = Ok (pre ++ replace s [c] [p] :: post).
Proof. exact (latinStress_cases a). Qed.

(** X10.  The accent that [latin] writes decides the stress.  On
    provisional syllables without written accent: with two syllables, or
    with a long penultimate syllable, the stress is [-2]; with a
    penultimate that is not long and a long antepenultimate, it is [-3];
    provided the syllable has a vowel letter to carry the accent. *)
Theorem latin_accent_is_stress (pre : list jsstring) (x y z : jsstring) :
  (forall s, In s (pre ++ [x; y; z]) -> ~ hasAccent s) ->
  ((exists v, vowelLetter v /\ In v y) ->
   exists r, Syllabification.latinStress [y; z] = Ok r /\
             Syllabification.stressedSyllable r = Ok (-2)) /\
  (long y -> (exists v, vowelLetter v /\ In v y) ->
   exists r, Syllabification.latinStress (pre ++ [x; y; z]) = Ok r /\
             Syllabification.stressedSyllable r = Ok (-2)) /\
  (~ long y -> long x -> (exists v, vowelLetter v /\ In v x) ->
   exists r, Syllabification.latinStress (pre ++ [x; y; z]) = Ok r /\
             Syllabification.stressedSyllable r = Ok (-3)).
Proof.
  intros Hplain.
  assert (Hin : forall s, In s (pre ++ [x]) -> ~ hasAccent s).
  { intros s Hs. apply Hplain. apply in_app_or in Hs as [Hs|[<-|[]]];
      apply in_or_app; [now left | right; now left]. }
  repeat split.
  - intros Hv. eexists. split; [apply latinStress_two|].
    apply (stress_at_first_accent [] [z]); [cbn; lia | intros ? [] |].
    now apply accentWith_hit.
  - intros Hy Hv. rewrite latinStress_three. apply longa_iff in Hy. rewrite Hy.
    eexists. split; [reflexivity|].
    change (pre ++ [x; accentWith Syllabification.dictionarium y; z])
      with (pre ++ [x] ++ accentWith Syllabification.dictionarium y :: [z]).
    rewrite app_assoc.
    apply (stress_at_first_accent (pre ++ [x]) [z]);
      [rewrite !len_app; pose proof (len_nonneg pre); cbn; lia | exact Hin |].
    now apply accentWith_hit.
  - intros Hy Hx Hv. rewrite latinStress_three.
    apply longa_false_iff in Hy. apply longa_iff in Hx. rewrite Hy, Hx.
    eexists. split; [reflexivity|].
    apply (stress_at_first_accent pre [y; z]);
      [rewrite len_app; pose proof (len_nonneg pre); cbn; lia | |].
    + intros s Hs. apply Hplain. apply in_or_app. now left.
    + now apply accentWith_hit.
Qed.

(** The syllables [gau-de-am] and [do-min-um]. *)
Lemma latin_accent_is_stress_witness :
  ((exists v, vowelLetter v /\ In v (js "de")) ->
   exists r, Syllabification.latinStress [js "de"; js "am"] = Ok r /\
             Syllabification.stressedSyllable r = Ok (-2)) /\
  (long (js "de") -> (exists v, vowelLetter v /\ In v (js "de")) ->
   exists r, Syllabification.latinStress ([] ++ [js "gau"; js "de"; js "am"]) = Ok r /\
             Syllabification.stressedSyllable r = Ok (-2)) /\
  (~ long (js "de") -> long (js "gau") -> (exists v, vowelLetter v /\ In v (js "gau")) ->
   exists r, Syllabification.latinStress ([] ++ [js "gau"; js "de"; js "am"]) = Ok r /\
             Syllabification.stressedSyllable r = Ok (-3)).
Proof.
  apply (latin_accent_is_stress [] (js "gau") (js "de") (js "am")).
  intros s Hs (c & Hc & Hi). cbn [app In] in Hs.
  destruct Hs as [<-|[<-|[<-|[]]]]; vm_compute in Hc, Hi;
    in_cases Hc; in_cases Hi; discriminate.
Defined.

(* ===================================================================== *)
(** ** Further properties: the sentinel before a Latin ending *)
(* ===================================================================== *)

Section FlexioMore.

Import Syllabification.

Lemma unmark_sentinel (s : jsstring) : unmark (sentinel :: s) = unmark s.
Proof. reflexivity. Qed.

Lemma replaceBeforeBoundary_unmark (s p : jsstring) :
  unmark (replaceBeforeBoundary s p (sentinel :: p)) = unmark s.
Proof.
  induction s as [|c s IH]; cbn [replaceBeforeBoundary].
  - destruct (startsWith [] p && _) eqn:E; [|reflexivity].
    apply andb_true_iff in E as [E _]. apply startsWith_iff in E as (r & E).
    symmetry in E. apply app_eq_nil in E as [-> ->]. reflexivity.
  - destruct (startsWith (c :: s) p && _) eqn:E.
    + apply andb_true_iff in E as [E _]. apply startsWith_iff in E as (r & E).
      rewrite E. replace (length p) with (length p + 0)%nat by lia.
      rewrite skipn_app, skipn_all2 by lia.
      replace (length p + 0 - length p)%nat with O by lia.
      cbn [skipn app]. apply unmark_sentinel.
    + unfold unmark in *. cbn [filter]. now rewrite IH.
Qed.

Lemma markFlexio_unmark (fls : list jsstring) (w : jsstring) :
  unmark (markFlexio fls w) = unmark w.
Proof.
  induction fls as [|fl fls IH]; cbn [markFlexio]; [reflexivity|].
  destruct (endsWith w fl); [|exact IH].
  apply replaceBeforeBoundary_unmark.
Qed.

(** In a string of [\w] characters the only boundary is the end. *)
Lemma replaceBeforeBoundary_end (stem fl r : jsstring) :
  wordChars (stem ++ fl) ->
  replaceBeforeBoundary (stem ++ fl) fl r = stem ++ r.
Proof.
  induction stem as [|c stem IH]; intros Hw.
  - cbn [app]. destruct fl as [|d fl].
    + cbn. now rewrite app_nil_r.
    + cbn [replaceBeforeBoundary].
      assert (E : startsWith (d :: fl) (d :: fl) = true)
        by (apply startsWith_iff; exists []; now rewrite app_nil_r).
      rewrite E, skipn_all. cbn [andb app]. now rewrite app_nil_r.
  - cbn [app replaceBeforeBoundary].
    assert (E : startsWith (c :: stem ++ fl) fl &&
                match skipn (length fl) (c :: stem ++ fl) with
                | [] => true
                | d :: _ => negb (isWordChar d)
                end = false).
    { apply andb_false_iff. right.
      destruct (skipn (length fl) (c :: stem ++ fl)) as [|d t] eqn:Es.
      - exfalso.
        assert (Hl : length (skipn (length fl) (c :: stem ++ fl)) = O) by now rewrite Es.
        rewrite length_skipn in Hl. cbn [length] in Hl. rewrite length_app in Hl. lia.
      - assert (Hd : In d (c :: stem ++ fl)).
        { apply (in_skipn (length fl)). rewrite Es. now left. }
        unfold wordChars in Hw. rewrite Forall_forall in Hw.
        change (In d ((c :: stem) ++ fl)) in Hd.
        now rewrite (Hw d Hd). }
    rewrite E. f_equal. apply IH. now inversion Hw.
Qed.

Lemma markFlexio_end (fls : list jsstring) (w : jsstring) :
  wordChars w ->
  existsb (fun x => endsWith w x) fls = true ->
  exists stem fl,
    In fl fls /\ w = stem ++ fl /\ markFlexio fls w = stem ++ [sentinel] ++ fl.
Proof.
  intros Hw. induction fls as [|fl fls IH]; [discriminate|].
  cbn [existsb markFlexio]. destruct (endsWith w fl) eqn:E.
  - intros _. apply endsWith_iff in E as (stem & ->).
    exists stem, fl. split; [now left|]. split; [reflexivity|].
    now apply replaceBeforeBoundary_end.
  - cbn [orb]. intros H. destruct (IH H) as (stem & f & Hin & He & Hm).
    exists stem, f. split; [now right | auto].
Qed.

(** The replacement is made in a word that ends with the pattern: at
    the end of the word, if not before. *)
Lemma replaceBeforeBoundary_fires (p r : jsstring) : forall s : jsstring,
  endsWith s p = true ->
  exists a b, s = a ++ p ++ b /\ replaceBeforeBoundary s p r = a ++ r ++ b.
Proof.
  assert (Hcut : forall rest, skipn (length p) (p ++ rest) = rest).
  { intros rest. replace (length p) with (length p + 0)%nat by lia.
    rewrite skipn_app, skipn_all2 by lia.
    replace (length p + 0 - length p)%nat with O by lia. reflexivity. }
  induction s as [|c s IH]; intros H; apply endsWith_iff in H as (q & Hq).
  - symmetry in Hq. apply app_eq_nil in Hq as [-> ->].
    exists [], []. split; reflexivity.
  - cbn [replaceBeforeBoundary].
    destruct (startsWith (c :: s) p &&
              match skipn (length p) (c :: s) with
              | [] => true
              | d :: _ => negb (isWordChar d)
              end) eqn:E.
    + apply andb_true_iff in E as [E _]. apply startsWith_iff in E as (rest & E).
      exists [], rest. rewrite E, Hcut. split; reflexivity.
    + destruct q as [|c' q].
      * cbn [app] in Hq. exfalso.
        assert (E1 : startsWith (c :: s) p = true).
        { apply startsWith_iff. exists []. now rewrite app_nil_r. }
        rewrite E1, Hq, skipn_all in E. discriminate.
      * injection Hq as <- Hs.
        assert (He : endsWith s p = true) by (apply endsWith_iff; now exists q).
        destruct (IH He) as (a & b & Ha & Hr).
        exists (c :: a), b. rewrite Hr. split; [|reflexivity].
        cbn [app]. f_equal. exact Ha.
Qed.

(** [markFlexio] on any word: the first ending of the list that the word
    ends with gets a sentinel before one of its occurrences. *)
Lemma markFlexio_cases (fls : list jsstring) (w : jsstring) :
  (existsb (fun x => endsWith w x) fls = false -> markFlexio fls w = w) /\
  (existsb (fun x => endsWith w x) fls = true ->
   exists a flexio b,
     In flexio fls /\ endsWith w flexio = true /\ w = a ++ flexio ++ b /\
     markFlexio fls w = a ++ [sentinel] ++ flexio ++ b).
Proof.
  induction fls as [|fl fls [IH1 IH2]]; cbn [existsb markFlexio].
  - split; [reflexivity | discriminate].
  - destruct (endsWith w fl) eqn:E; cbn [orb].
    + split; [discriminate|]. intros _.
      destruct (replaceBeforeBoundary_fires fl (js "_" ++ fl) w E) as (a & b & Ha & Hr).
      exists a, fl, b. split; [now left|]. split; [exact E|]. split; [exact Ha|].
      rewrite Hr. now rewrite <- app_assoc.
    + split; [exact IH1|]. intros H.
      destruct (IH2 H) as (a & f & b & Hin & He & Ha & Hm).
      exists a, f, b. split; [now right | auto].
Qed.

End FlexioMore.

(** X11.  Marking the Latin ending adds one sentinel and nothing else.  A
    word that ends with none of the endings is returned as it is; in a
    word that ends with one of them, one sentinel is put before an
    occurrence of the first such ending of the list, and the rest of the
    word is kept. *)
Theorem markFlexio_only_sentinel (w : jsstring) :
  (existsb (fun x => endsWith w x) Syllabification.flexiones = false ->
   Syllabification.markFlexio Syllabification.flexiones w = w) /\
  (existsb (fun x => endsWith w x) Syllabification.flexiones = true ->
   exists a flexio b,
     In flexio Syllabification.flexiones /\ endsWith w flexio = true /\
     w = a ++ flexio ++ b /\
     Syllabification.markFlexio Syllabification.flexiones w
     = a ++ [sentinel] ++ flexio ++ b) /\
  unmark (Syllabification.markFlexio Syllabification.flexiones w) = unmark w.
Proof.
  destruct (markFlexio_cases Syllabification.flexiones w) as [H1 H2].
  split; [exact H1|]. split; [exact H2|]. apply markFlexio_unmark.
Qed.

(** X12.  In a word of [\w] characters (unaccented Latin letters, digits,
    the underscore) that ends in a Latin ending, the sentinel is put just
    before the ending that the word ends in. *)
Theorem markFlexio_before_ending (w : jsstring) :
  wordChars w ->
  existsb (fun x => endsWith w x) Syllabification.flexiones = true ->
  exists stem flexio,
    In flexio Syllabification.flexiones /\ w = stem ++ flexio /\
    Syllabification.markFlexio Syllabification.flexiones w
    = stem ++ [sentinel] ++ flexio.
Proof. apply markFlexio_end. Qed.

(** The word [dominum]. *)
Lemma markFlexio_before_ending_witness :
  exists stem flexio,
    In flexio Syllabification.flexiones /\ js "dominum" = stem ++ flexio /\
    Syllabification.markFlexio Syllabification.flexiones (js "dominum")
    = stem ++ [sentinel] ++ flexio.
Proof.
  apply markFlexio_before_ending.
  - change (js "dominum") with [100; 111; 109; 105; 110; 117; 109]%N.
    repeat constructor.
  - reflexivity.
Defined.

(** Outside [\w] the boundary of the regular expression is met earlier:
    a letter such as [ñ] after an occurrence of the ending counts as the
    end of a word, and the sentinel goes before that occurrence. *)
Example markFlexio_inner_boundary :
  Syllabification.markFlexio Syllabification.flexiones (js "umñum") = js "_umñum".
Proof. reflexivity. Qed.

(* ===================================================================== *)
(** ** Further properties: the constructor *)
(* ===================================================================== *)

Section ConstructorMore.

Import Syllabification.

Variable unicodeLN : N -> bool.
Variable toLowerCase : jsstring -> jsstring.
Variable EXCEPTIONS_LIST : list (jsstring -> jsstring).

(** *** The methods read [vowels], [close], [h] and [tl] only *)

Lemma split_rec_fields (this1 this2 : Self) :
  close this1 = close this2 ->
  forall fuel w a, split_rec fuel this1 w a = split_rec fuel this2 w a.
Proof.
  intros Hc.
  assert (Hp : diphthongPattern this1 = diphthongPattern this2).
  { unfold diphthongPattern. now rewrite Hc. }
  induction fuel as [|fuel IH]; intros w a; cbn [split_rec]; [reflexivity|].
  rewrite Hp. destruct (matchEnd _ w); [apply IH|].
  destruct (existsb _ digraph); [apply IH|].
  destruct (negb _); [apply IH | reflexivity].
Qed.

Lemma joinLoop_fields (this1 this2 : Self) :
  vowels this1 = vowels this2 -> h this1 = h this2 -> tl this1 = tl this2 ->
  forall segs st,
    joinLoop toLowerCase this1 st segs = joinLoop toLowerCase this2 st segs.
Proof.
  intros Hv Hh Ht.
  assert (Hs : forall st letter,
            joinStep toLowerCase this1 st letter = joinStep toLowerCase this2 st letter).
  { intros st letter. unfold joinStep, noVowel, indivisibleOnset.
    now rewrite Hv, Hh, Ht. }
  induction segs as [|letter segs IH]; intros st; cbn [joinLoop]; [reflexivity|].
  rewrite Hs. destruct (joinStep toLowerCase this2 st letter); cbn [bind]; auto.
Qed.

Lemma syllabify_fields (this1 this2 : Self) (word : wordT) :
  vowels this1 = vowels this2 -> close this1 = close this2 ->
  h this1 = h this2 -> tl this1 = tl this2 ->
  syllabify unicodeLN toLowerCase this1 word
  = syllabify unicodeLN toLowerCase this2 word.
Proof.
  intros Hv Hc Hh Ht. destruct word as [w|l]; [|reflexivity].
  unfold syllabify, split, join. cbv zeta.
  rewrite (split_rec_fields this1 this2 Hc).
  now rewrite (joinLoop_fields this1 this2 Hv Hh Ht).
Qed.

Lemma latin_fields (this1 this2 : Self) (word : wordT) :
  vowels this1 = vowels this2 -> close this1 = close this2 ->
  h this1 = h this2 -> tl this1 = tl this2 ->
  latin unicodeLN toLowerCase this1 word = latin unicodeLN toLowerCase this2 word.
Proof.
  intros Hv Hc Hh Ht. destruct word as [w|l]; [|reflexivity].
  unfold latin. cbv zeta. destruct (latinGuard (toLowerCase w)); [|reflexivity].
  now rewrite (syllabify_fields this1 this2 _ Hv Hc Hh Ht).
Qed.

Lemma new_levels (w : jsstring) (exceptions : Z) (ipa h epen tl : bool) :
  1 <= exceptions ->
  (forall prefix, In prefix (keys caparros) ->
     startsWith (if epen then epenthesis w else w) prefix = false) ->
  new unicodeLN toLowerCase EXCEPTIONS_LIST w exceptions ipa h epen tl
  = new unicodeLN toLowerCase EXCEPTIONS_LIST w 1 ipa h epen tl.
Proof.
  intros Hl Hp. unfold new. cbv zeta.
  set (pre := if epen then epenthesis w else w) in *.
  assert (E0 : (0 <? exceptions) = true) by (apply Z.ltb_lt; lia).
  rewrite E0. change (0 <? 1) with true. change (1 <? 1) with false. cbv iota.
  set (this1 := init ipa h tl (1 <? exceptions)).
  set (this2 := init ipa h tl false).
  assert (Hm : makeExceptions EXCEPTIONS_LIST this1 pre
               = makeExceptions EXCEPTIONS_LIST this2 pre).
  { unfold makeExceptions.
    rewrite (existsb_all_false (fun x => startsWith pre x) (keys caparros) Hp).
    now rewrite !andb_false_r. }
  rewrite Hm.
  rewrite (latin_fields this1 this2 _ eq_refl eq_refl eq_refl eq_refl).
  destruct (latin unicodeLN toLowerCase this2 _) as [word|e]; cbn [bind]; [|reflexivity].
  now rewrite (syllabify_fields this1 this2 word eq_refl eq_refl eq_refl eq_refl).
Qed.

(** *** No empty syllable *)

Lemma syllabify_Str_solid (this : Self) (w : jsstring) :
  closeOk this ->
  exists raw, syllabify unicodeLN toLowerCase this (Str w) = Ok (map trim raw) /\
    concat raw = unmark (normalize unicodeLN w) /\ solid raw.
Proof.
  intros Hc. unfold syllabify. cbv zeta.
  destruct (split_spec this Hc (foldForeign (stripNonWord unicodeLN w)))
    as (segs & -> & Hcat & Hseg).
  destruct (join_more toLowerCase this segs) as (raw & -> & Hraw & Hs & _).
  exists raw. split; [reflexivity|]. split; [|exact Hs].
  rewrite Hraw, visible_unmark by exact Hseg. now rewrite Hcat.
Qed.

Lemma replace_unit_nonempty (s : jsstring) (c p : N) :
  s <> [] -> replace s [c] [p] <> [].
Proof.
  intros Hs. rewrite replace_unit. destruct s as [|d s]; [contradiction|].
  destruct (c =? d)%N; discriminate.
Qed.

Lemma Forall2_solid (a r : list jsstring) :
  Forall2 accentedFrom a r -> solid a -> solid r.
Proof.
  induction 1 as [|s s' a r Hs _ IH]; intros HF; [constructor|].
  inversion HF; subst. constructor; [|now apply IH].
  destruct Hs as [->|(c & p & _ & ->)]; [assumption | now apply replace_unit_nonempty].
Qed.

Lemma solid_concat_nil (a : list jsstring) : solid a -> concat a = [] -> a = [].
Proof.
  intros Hs Hc. destruct a as [|s a]; [reflexivity|].
  inversion Hs; subst. cbn [concat] in Hc.
  apply app_eq_nil in Hc as [Hc _]. contradiction.
Qed.

Lemma new_solid (w : jsstring) (exceptions : Z) (ipa h epen tl : bool) :
  spaceless unicodeLN ->
  exists r,
    new unicodeLN toLowerCase EXCEPTIONS_LIST w exceptions ipa h epen tl = Ok r /\
    solid (syllables r) /\
    (syllables r = [] <->
     unmark (normalize unicodeLN
               (marked toLowerCase EXCEPTIONS_LIST w exceptions epen)) = []).
Proof.
  intros Hsp.
  assert (Hcase : forall this x,
            closeOk this ->
            exists raw, syllabify unicodeLN toLowerCase this (Str x) = Ok raw /\
              concat raw = unmark (normalize unicodeLN x) /\ solid raw).
  { intros this x Hc.
    destruct (syllabify_Str_solid this x Hc) as (raw & Hsy & Hraw & Hs).
    exists raw. rewrite Hsy. split; [|auto]. f_equal.
    apply trimmed_spaceless. rewrite Hraw.
    apply Forall_forall. intros c Hin. apply filter_In in Hin as [Hin _].
    pose proof (normalize_spaceless unicodeLN Hsp x) as HF.
    rewrite Forall_forall in HF. auto. }
  assert (Hiff : forall raw target,
            concat raw = target -> solid raw -> (raw = [] <-> target = [])).
  { intros raw target <- Hs. split; [intros ->; reflexivity|].
    now apply solid_concat_nil. }
  unfold new, marked, latinFires, substituted. cbv zeta.
  set (pre := if epen then epenthesis w else w).
  destruct (0 <? exceptions) eqn:E; cbn [andb].
  - change (makeExceptions EXCEPTIONS_LIST (init false false false (1 <? exceptions)) pre)
      with (makeExceptions EXCEPTIONS_LIST (init ipa h tl (1 <? exceptions)) pre).
    set (this := init ipa h tl (1 <? exceptions)).
    set (w' := makeExceptions EXCEPTIONS_LIST this pre).
    unfold latin. cbv zeta.
    destruct (latinGuard (toLowerCase w')) eqn:G.
    + destruct (Hcase this (latinMark (toLowerCase w')) (init_closeOk _ _ _ _))
        as (raw & -> & Hraw & Hs).
      destruct (latinStress_shape raw) as (syls & Hl & HF).
      destruct (stressedSyllable_range syls) as (st & Hst & _).
      exists {| syllables := syls; stress := st |}. cbn [bind]. rewrite Hl.
      cbn [bind syllabify]. rewrite Hst. split; [reflexivity|].
      cbn [syllables]. split; [now apply (Forall2_solid raw)|].
      rewrite <- (Hiff raw _ Hraw Hs). split.
      * intros ->. inversion HF. reflexivity.
      * intros ->. inversion HF. reflexivity.
    + destruct (Hcase this w' (init_closeOk _ _ _ _)) as (raw & Hsy & Hraw & Hs).
      destruct (stressedSyllable_range raw) as (st & Hst & _).
      exists {| syllables := raw; stress := st |}. cbn [bind]. rewrite Hsy.
      cbn [bind]. rewrite Hst. split; [reflexivity|].
      cbn [syllables]. split; [exact Hs | now apply Hiff].
  - destruct (Hcase (init ipa h tl false) pre (init_closeOk _ _ _ _))
      as (raw & -> & Hraw & Hs).
    destruct (stressedSyllable_range raw) as (st & Hst & _).
    exists {| syllables := raw; stress := st |}. cbn [bind]. rewrite Hst.
    split; [reflexivity|]. cbn [syllables]. split; [exact Hs | now apply Hiff].
Qed.

(** *** Words of [\w] characters *)

Lemma isWordChar_facts (c : N) :
  isWordChar c = true ->
  (c <? 256)%N = true /\ (latin1LN c = true \/ c = sentinel) /\
  isHighSurrogate c = false /\ isWhiteSpace c = false.
Proof.
  unfold isWordChar. intros H.
  assert (Hr : (48 <= c <= 57)%N \/ (65 <= c <= 90)%N \/ (97 <= c <= 122)%N \/ c = 95%N).
  { repeat (apply orb_true_iff in H as [H|H]);
      try (apply andb_true_iff in H as [H1 H2]; apply N.leb_le in H1, H2; lia).
    apply N.eqb_eq in H. lia. }
  assert (Hlt : (c < 128)%N) by lia.
  split; [apply N.ltb_lt; lia|]. split.
  - unfold latin1LN, latin1L, latin1N.
    repeat (apply orb_true_iff in H as [H|H]).
    + left. rewrite H. now rewrite !orb_true_r.
    + left. now rewrite H.
    + left. rewrite H. now rewrite !orb_true_r.
    + right. now apply N.eqb_eq in H.
  - split.
    + unfold isHighSurrogate. apply andb_false_iff. left. apply N.leb_gt. lia.
    + destruct (isWhiteSpace c) eqn:Ew; [|reflexivity].
      apply isWhiteSpace_cases in Ew as [Ew|Ew]; [|lia].
      cbn [In] in Ew. in_cases Ew; lia.
Qed.

Lemma arrayFrom_wordChars (w : jsstring) :
  wordChars w -> arrayFrom w = map (fun c => [c]) w.
Proof.
  induction 1 as [|c w Hc Hw IH]; [reflexivity|].
  destruct (isWordChar_facts c Hc) as (_ & _ & Hh & _).
  destruct w as [|d w]; [reflexivity|].
  rewrite arrayFrom_pair, Hh. cbn [andb map]. now rewrite IH.
Qed.

Lemma concat_units (w : jsstring) : concat (map (fun c => [c]) w) = w.
Proof. induction w as [|c w IH]; [reflexivity|]. cbn. now rewrite IH. Qed.

Lemma foreignLig_not_word (c : N) :
  isWordChar c = true -> lookup [c] foreignLig = None.
Proof.
  intros Hc. unfold foreignLig. cbn [lookup].
  repeat match goal with
         | |- (if eqb [c] (js ?k) then _ else _) = None =>
           let E := fresh "E" in
           destruct (eqb [c] (js k)) eqn:E;
           [apply eqb_eq in E; vm_compute in E; try discriminate E;
            injection E as ->; vm_compute in Hc; discriminate|]
         end.
  reflexivity.
Qed.

Lemma strip_units (w : jsstring) :
  wordChars w ->
  filter (fun x => isLN unicodeLN (codePoint x) || eqb x (js "_"))
    (map (fun c => [c]) w) = map (fun c => [c]) w.
Proof.
  induction 1 as [|c w Hc Hw IH]; [reflexivity|].
  cbn [map filter].
  assert (E : isLN unicodeLN (codePoint [c]) || eqb [c] (js "_") = true).
  { destruct (isWordChar_facts c Hc) as (Hlt & [Hl| ->] & _ & _).
    - cbn [codePoint]. unfold isLN. now rewrite Hlt, Hl.
    - apply orb_true_iff. right. reflexivity. }
  rewrite E. f_equal. exact IH.
Qed.

Lemma fold_units (w : jsstring) :
  wordChars w ->
  concat (map (fun letter =>
                 match lookup letter foreignLig with
                 | Some v => v
                 | None => letter
                 end) (map (fun c => [c]) w)) = w.
Proof.
  induction 1 as [|c w Hc Hw IH]; [reflexivity|].
  cbn [map concat]. rewrite (foreignLig_not_word c Hc). cbn [app].
  f_equal. exact IH.
Qed.

(** Normalization leaves a word of [\w] characters as it is. *)
Lemma normalize_wordChars (w : jsstring) :
  wordChars w -> normalize unicodeLN w = w.
Proof.
  intros Hw. unfold normalize, stripNonWord, foldForeign.
  rewrite (arrayFrom_wordChars w Hw), (strip_units w Hw), concat_units.
  rewrite (arrayFrom_wordChars w Hw). now apply fold_units.
Qed.

Lemma wordChars_epenthesis (w : jsstring) : wordChars w -> wordChars (epenthesis w).
Proof.
  intros Hw.
  destruct (epenthesis_cases w) as [[E _]|(onset & rest & _ & _ & a & b & Hab & _ & E)].
  - now rewrite E.
  - rewrite E, Hab in *. unfold wordChars in *.
    apply Forall_app in Hw as [Ha Hb].
    change (js "e") with [101%N]. cbn [app].
    constructor; [reflexivity|]. apply Forall_app. split; [exact Ha|].
    constructor; [reflexivity | exact Hb].
Qed.

Lemma new_wordChars (w : jsstring) (exceptions : Z) (ipa h epen tl : bool) :
  exceptions <= 0 -> wordChars w ->
  exists r,
    new unicodeLN toLowerCase EXCEPTIONS_LIST w exceptions ipa h epen tl = Ok r /\
    concat (syllables r) = unmark (if epen then epenthesis w else w).
Proof.
  intros Hl Hw. unfold new. cbv zeta.
  set (pre := if epen then epenthesis w else w).
  assert (Hpre : wordChars pre).
  { unfold pre. destruct epen; [now apply wordChars_epenthesis | exact Hw]. }
  assert (E : (0 <? exceptions) = false) by (apply Z.ltb_ge; lia).
  rewrite E.
  destruct (syllabify_Str unicodeLN toLowerCase (init ipa h tl false) pre
              (init_closeOk _ _ _ _)) as (raw & -> & Hraw).
  rewrite (normalize_wordChars pre Hpre) in Hraw.
  assert (Ht : map trim raw = raw).
  { apply trimmed_spaceless. rewrite Hraw. apply Forall_forall.
    intros c Hc. apply filter_In in Hc as [Hc _].
    unfold wordChars in Hpre. rewrite Forall_forall in Hpre.
    now destruct (isWordChar_facts c (Hpre c Hc)) as (_ & _ & _ & Hs). }
  rewrite Ht. destruct (stressedSyllable_range raw) as (st & Hst & _).
  exists {| syllables := raw; stress := st |}. cbn [bind]. rewrite Hst.
  split; [reflexivity | exact Hraw].
Qed.

End ConstructorMore.

Section FoldMore.

Import Syllabification.



End FoldMore.

Section ConstructorProperties.

Variable unicodeLN : N -> bool.
Variable toLowerCase : jsstring -> jsstring.
Variable EXCEPTIONS_LIST : list (jsstring -> jsstring).

(** X13.  The hiatus mode of level 2 matters for the three prefixes only:
    a word that, after epenthesis, begins with none of [fie], [sua], [rui]
    gets the same syllables and stress at every level from 1 on. *)
Theorem hiatus_mode_only_for_prefixes
    (w : jsstring) (exceptions : Z) (ipa h epen tl : bool) :
  1 <= exceptions ->
  (forall prefix, In prefix [js "fie"; js "sua"; js "rui"] ->
     startsWith (if epen then Syllabification.epenthesis w else w) prefix = false) ->
  Syllabification.new unicodeLN toLowerCase EXCEPTIONS_LIST w exceptions ipa h epen tl
  = Syllabification.new unicodeLN toLowerCase EXCEPTIONS_LIST w 1 ipa h epen tl.
Proof. exact (new_levels unicodeLN toLowerCase EXCEPTIONS_LIST w exceptions ipa h epen tl). Qed.

(** X14.  No syllable that is returned is empty, and the sequence of
    syllables is empty exactly when the word that is split and joined has
    no letter and no number left after normalization.  It is assumed of
    the engine that no white space is a letter or a number. *)
Theorem syllables_empty_iff :
  spaceless unicodeLN ->
  forall (w : jsstring) (exceptions : Z) (ipa h epen tl : bool),
  exists r,
    Syllabification.new unicodeLN toLowerCase EXCEPTIONS_LIST w exceptions ipa h epen tl
      = Ok r /\
    solid (Syllabification.syllables r) /\
    (Syllabification.syllables r = [] <->
     unmark (normalize unicodeLN
               (marked toLowerCase EXCEPTIONS_LIST w exceptions epen)) = []).
Proof.
  intros Hsp w exceptions ipa h epen tl.
  exact (new_solid unicodeLN toLowerCase EXCEPTIONS_LIST w exceptions ipa h epen tl Hsp).
Qed.

(** X15.  At level 0, a word of [\w] characters (unaccented Latin
    letters, digits, the underscore) is regrouped exactly, whatever the
    engine: the syllables, concatenated, are the word, after epenthesis
    when it is asked for, without its sentinels. *)
Theorem word_chars_regrouped (w : jsstring) (exceptions : Z) (ipa h epen tl : bool) :
  exceptions <= 0 -> wordChars w ->
  exists syls,
    syllabify unicodeLN toLowerCase EXCEPTIONS_LIST w exceptions ipa h epen tl = Ok syls /\
    concat syls = unmark (if epen then Syllabification.epenthesis w else w).
Proof.
  intros Hl Hw.
  destruct (new_wordChars unicodeLN toLowerCase EXCEPTIONS_LIST w exceptions
              ipa h epen tl Hl Hw) as (r & Hr & Hc).
  exists (Syllabification.syllables r). unfold syllabify. rewrite Hr. auto.
Qed.


End ConstructorProperties.

(** The word [hola] at level 2. *)
Lemma hiatus_mode_only_for_prefixes_witness :
  Latin1.new (js "hola") 2 false false false false
  = Latin1.new (js "hola") 1 false false false false.
Proof.
  apply (hiatus_mode_only_for_prefixes Latin1.unicodeLN Latin1.toLowerCase
           Latin1.EXCEPTIONS_LIST (js "hola") 2 false false false false).
  - lia.
  - intros prefix Hin. cbn [In] in Hin. in_cases Hin; reflexivity.
Defined.

(** The word [sol], and the engine of Latin-1. *)
Lemma syllables_empty_iff_witness :
  exists r,
    Latin1.new (js "sol") 1 false false false false = Ok r /\
    solid (Syllabification.syllables r) /\
    (Syllabification.syllables r = [] <->
     unmark (normalize Latin1.unicodeLN
               (marked Latin1.toLowerCase Latin1.EXCEPTIONS_LIST (js "sol") 1 false)) = []).
Proof.
  exact (syllables_empty_iff Latin1.unicodeLN Latin1.toLowerCase Latin1.EXCEPTIONS_LIST
           latin1_spaceless (js "sol") 1 false false false false).
Defined.

(** The word [stop], with epenthesis. *)
Lemma word_chars_regrouped_witness :
  exists syls,
    Latin1.syllabify (js "stop") 0 false false true false = Ok syls /\
    concat syls = unmark (if true then Syllabification.epenthesis (js "stop") else js "stop").
Proof.
  apply (word_chars_regrouped Latin1.unicodeLN Latin1.toLowerCase Latin1.EXCEPTIONS_LIST
           (js "stop") 0 false false true false).
  - lia.
  - change (js "stop") with [115; 116; 111; 112]%N. repeat constructor.
Defined.


(* ===================================================================== *)
(** ** The constructor and the call stack *)
(* ===================================================================== *)

Section StackOverflow.

Import Syllabification.

Variable unicodeLN : N -> bool.
Variable toLowerCase : jsstring -> jsstring.
Variable EXCEPTIONS_LIST : list (jsstring -> jsstring).

(** A word of [n] letters [a]: no diphthong, no digraph, [n] segments. *)
Lemma matchToEnd_a (ipa h tl hiatus : bool) (n : nat) :
  matchToEnd (diphthongPattern (init ipa h tl hiatus)) (repeat 97%N n) = false.
Proof. destruct ipa; destruct n as [|[|n]]; reflexivity. Qed.

Lemma matchEnd_a (ipa h tl hiatus : bool) (n : nat) :
  matchEnd (diphthongPattern (init ipa h tl hiatus)) (repeat 97%N n) = None.
Proof.
  induction n as [|n IH]; [reflexivity|].
  pose proof (matchToEnd_a ipa h tl hiatus (S n)) as H.
  cbn [repeat] in *. cbn [matchEnd]. rewrite H. exact IH.
Qed.

Lemma digraph_a (n : nat) :
  existsb (fun d => endsWith (repeat 97%N n) d) digraph = false.
Proof.
  apply existsb_all_false. intros d Hin.
  destruct (endsWith (repeat 97%N n) d) eqn:E; [|reflexivity].
  apply endsWith_iff in E as (r & E). exfalso.
  assert (H : forall c, In c d -> c = 97%N).
  { intros c Hc. apply (repeat_spec n 97%N c). rewrite E. apply in_or_app. now right. }
  cbn in Hin. in_cases Hin.
  - specialize (H 108%N (or_introl eq_refl)). discriminate.
  - specialize (H 99%N (or_introl eq_refl)). discriminate.
  - specialize (H 114%N (or_introl eq_refl)). discriminate.
Qed.

Lemma split_a (ipa h tl hiatus : bool) : forall (n : nat) (syllables : list jsstring),
  split (init ipa h tl hiatus) (repeat 97%N n) syllables = repeat [97%N] n ++ syllables.
Proof.
  induction n as [|n IH]; intros syllables; [reflexivity|].
  rewrite split_unfold, matchEnd_a, digraph_a.
  assert (Ee : eqb (repeat 97%N (S n)) [] = false) by reflexivity.
  rewrite Ee. cbn [negb].
  assert (Hw : repeat 97%N (S n) = repeat 97%N n ++ [97%N]) by apply repeat_cons.
  assert (Hc : [97%N] <> []) by discriminate.
  destruct (slice_last (repeat 97%N (S n)) (repeat 97%N n) [97%N] (-1) Hw Hc eq_refl)
    as [-> ->].
  rewrite IH. change (repeat [97%N] (S n)) with ([97%N] :: repeat [97%N] n).
  rewrite (repeat_cons n [97%N]). now rewrite <- app_assoc.
Qed.

Lemma wordChars_a (n : nat) : wordChars (repeat 97%N n).
Proof.
  apply Forall_forall. intros c Hc. apply repeat_spec in Hc. now subst.
Qed.

(** Whatever the room on the stack, the word of as many letters [a]
    overflows it. *)
Lemma stack_new_overflows (frames : nat) (ipa h tl : bool) :
  Stack.new unicodeLN toLowerCase EXCEPTIONS_LIST frames
    (repeat 97%N frames) 0 ipa h false tl
  = Throw RangeError.
Proof.
  rewrite stack_new.
  change (marked toLowerCase EXCEPTIONS_LIST (repeat 97%N frames) 0 false)
    with (repeat 97%N frames).
  rewrite (normalize_wordChars unicodeLN _ (wordChars_a frames)).
  change (1 <? 0) with false.
  rewrite split_a, app_nil_r, repeat_length, Nat.ltb_irrefl. reflexivity.
Qed.

End StackOverflow.

Section StackProperties.

Import Syllabification (syllables, stress).

Variable unicodeLN : N -> bool.
Variable toLowerCase : jsstring -> jsstring.
Variable EXCEPTIONS_LIST : list (jsstring -> jsstring).

(** C7, as amended.  The constructor never throws a [TypeError]: no access
    through [at] or an index meets [undefined], and the recursion of
    [split] ends.  [split] makes one nested call for each segment of the
    word that it is handed and one more, which is one call for each code
    unit and one more at most.  On a stack with room for these calls the
    constructor returns an object, the one that [syllabify] and [tonica]
    read; on a stack without, it throws a [RangeError], and whatever the
    room on the stack there is a word that does not fit.  The rules of
    the table of exceptions are taken to return. *)
Theorem construction_throws_on_overflow_only
    (frames : nat) (w : jsstring) (exceptions : Z) (ipa h epen tl : bool) :
  (Stack.calls (Syllabification.init ipa h tl (1 <? exceptions)%Z)
     (splitInput unicodeLN toLowerCase EXCEPTIONS_LIST w exceptions epen)
   <= S (length (splitInput unicodeLN toLowerCase EXCEPTIONS_LIST w exceptions epen)))%nat /\
  ((Stack.calls (Syllabification.init ipa h tl (1 <? exceptions)%Z)
      (splitInput unicodeLN toLowerCase EXCEPTIONS_LIST w exceptions epen)
    <= frames)%nat ->
   exists r,
     Stack.new unicodeLN toLowerCase EXCEPTIONS_LIST frames w exceptions ipa h epen tl
       = Ok r /\
     Syllabification.new unicodeLN toLowerCase EXCEPTIONS_LIST w exceptions ipa h epen tl
       = Ok r /\
     syllabify unicodeLN toLowerCase EXCEPTIONS_LIST w exceptions ipa h epen tl
       = Ok (syllables r) /\
     tonica unicodeLN toLowerCase EXCEPTIONS_LIST w exceptions ipa h epen tl
       = Ok (stress r)) /\
  ((frames <
    Stack.calls (Syllabification.init ipa h tl (1 <? exceptions)%Z)
      (splitInput unicodeLN toLowerCase EXCEPTIONS_LIST w exceptions epen))%nat ->
   Stack.new unicodeLN toLowerCase EXCEPTIONS_LIST frames w exceptions ipa h epen tl
     = Throw RangeError) /\
  Stack.new unicodeLN toLowerCase EXCEPTIONS_LIST frames
    (repeat 97%N frames) 0 ipa h false tl
  = Throw RangeError.
Proof.
  unfold Stack.calls, splitInput. split; [|split; [|split]].
  - apply le_n_S. apply split_count. apply init_closeOk.
  - intros H. rewrite stack_new.
    destruct (Nat.ltb_spec
                (length (Syllabification.split (Syllabification.init ipa h tl (1 <? exceptions))
                           (normalize unicodeLN
                              (marked toLowerCase EXCEPTIONS_LIST w exceptions epen)) []))
                frames) as [_|Hge]; [|lia].
    destruct (new_returns unicodeLN toLowerCase EXCEPTIONS_LIST w exceptions ipa h epen tl)
      as (r & Hr & _).
    exists r. unfold syllabify, tonica. rewrite Hr. auto.
  - intros H. rewrite stack_new.
    destruct (Nat.ltb_spec
                (length (Syllabification.split (Syllabification.init ipa h tl (1 <? exceptions))
                           (normalize unicodeLN
                              (marked toLowerCase EXCEPTIONS_LIST w exceptions epen)) []))
                frames) as [Hlt|_]; [lia | reflexivity].
  - apply stack_new_overflows.
Qed.

End StackProperties.

(** C7: the claim fails on the word of 8000 letters [a].  It has 8000
    segments, and [split] nests 8001 calls; on a stack with room for 8000
    of them the constructor throws a [RangeError]. *)
Lemma stack_overflow_counterexample :
  Stack.new Latin1.unicodeLN Latin1.toLowerCase Latin1.EXCEPTIONS_LIST
    (Z.to_nat 8000) (repeat 97%N (Z.to_nat 8000)) 0 false false false false
  = Throw RangeError.
Proof. apply stack_new_overflows. Qed.

(** On a stack with room for the calls the same constructor returns. *)
Example stack_with_room :
  Stack.new Latin1.unicodeLN Latin1.toLowerCase Latin1.EXCEPTIONS_LIST
    4 (js "aaa") 0 false false false false
  = Latin1.new (js "aaa") 0 false false false false /\
  Stack.new Latin1.unicodeLN Latin1.toLowerCase Latin1.EXCEPTIONS_LIST
    3 (js "aaa") 0 false false false false
  = Throw RangeError.
Proof. split; vm_compute; reflexivity. Qed.
